(** * A shallow embedding of the trading-floor worker tasks

    The Python workers under [apps/workers/app/tasks] are embedded as pure
    Rocq functions.  Python floats are modelled by canonical rationals
    ([Qc], Leibniz equality, exact arithmetic); the covariance shrinkage,
    which takes square roots, is modelled over the reals.  Python [dict]s
    are insertion-ordered association lists with string keys; exceptions
    are an explicit error result. *)

From Stdlib Require Import QArith Qcanon Qcabs Qround ZArith.
From Stdlib Require Import List String Ascii Bool Arith Lia Lqa.
From Stdlib Require Import Permutation Sorted.
Import ListNotations.

(** ** Numbers *)

Module Num.
Local Open Scope Qc_scope.

(** A decimal literal such as [0.05] is [dec 5 100]. *)
Definition dec (n : Z) (d : positive) : Qc := Q2Qc (n # d).

Definition of_Z (n : Z) : Qc := Q2Qc (inject_Z n).
Definition of_nat (n : nat) : Qc := of_Z (Z.of_nat n).

Definition leb (x y : Qc) : bool :=
  match x ?= y with Gt => false | _ => true end.
Definition ltb (x y : Qc) : bool :=
  match x ?= y with Lt => true | _ => false end.
Definition gtb (x y : Qc) : bool := ltb y x.
Definition geb (x y : Qc) : bool := leb y x.
Definition eqb (x y : Qc) : bool := Qc_eq_bool x y.

(** Python's [sum] over a list of floats. *)
Definition sum (l : list Qc) : Qc := fold_left Qcplus l 0.

Lemma leb_le x y : leb x y = true <-> x <= y.
Proof.
  unfold leb. rewrite Qcle_alt. destruct (x ?= y); split; congruence.
Qed.

Lemma ltb_lt x y : ltb x y = true <-> x < y.
Proof.
  unfold ltb. rewrite Qclt_alt. destruct (x ?= y); split; congruence.
Qed.

Lemma gtb_gt x y : gtb x y = true <-> y < x.
Proof. apply ltb_lt. Qed.

Lemma geb_ge x y : geb x y = true <-> y <= x.
Proof. apply leb_le. Qed.

Lemma eqb_eq x y : eqb x y = true <-> x = y.
Proof.
  unfold eqb. split.
  - apply Qc_eq_bool_correct.
  - intros ->. unfold Qc_eq_bool. destruct (Qc_eq_dec y y); congruence.
Qed.

Lemma ltb_false_le x y : ltb x y = false <-> y <= x.
Proof.
  split; intro H.
  - apply Qcnot_lt_le. intro L. apply ltb_lt in L. congruence.
  - destruct (ltb x y) eqn:E; [|reflexivity].
    apply ltb_lt in E. exfalso. exact (Qclt_not_le _ _ E H).
Qed.

Lemma leb_false_lt x y : leb x y = false <-> y < x.
Proof.
  split; intro H.
  - apply Qcnot_le_lt. intro L. apply leb_le in L. congruence.
  - destruct (leb x y) eqn:E; [|reflexivity].
    apply leb_le in E. exfalso. exact (Qclt_not_le _ _ H E).
Qed.

(** Transport of [Qc] statements to [Q], where [lra] applies. *)
Lemma this_Q2Qc q : (this (Q2Qc q) == q)%Q.
Proof. apply Qred_correct. Qed.
Lemma this_plus x y : (this (x + y) == this x + this y)%Q.
Proof. apply Qred_correct. Qed.
Lemma this_mult x y : (this (x * y) == this x * this y)%Q.
Proof. apply Qred_correct. Qed.
Lemma this_opp x : (this (- x) == - this x)%Q.
Proof. apply Qred_correct. Qed.
Lemma this_minus x y : (this (x - y) == this x - this y)%Q.
Proof. unfold Qcminus. rewrite this_plus, this_opp. reflexivity. Qed.
Lemma this_dec n d : (this (dec n d) == n # d)%Q.
Proof. apply Qred_correct. Qed.
Lemma this_of_Z n : (this (of_Z n) == inject_Z n)%Q.
Proof. apply Qred_correct. Qed.
Lemma this_0 : (this 0 == 0)%Q.
Proof. reflexivity. Qed.
Lemma this_1 : (this 1 == 1)%Q.
Proof. reflexivity. Qed.
Lemma eq_this (x y : Qc) : x = y <-> (this x == this y)%Q.
Proof. split; [intros ->; reflexivity | apply Qc_is_canon]. Qed.

Ltac to_Q :=
  repeat match goal with
  | H : @eq Qc _ _ |- _ => apply eq_this in H
  | H : ~ @eq Qc _ _ |- _ => rewrite eq_this in H
  | |- @eq Qc _ _ => apply eq_this
  | |- ~ @eq Qc _ _ => rewrite eq_this
  end;
  unfold Qcle, Qclt in *;
  repeat (rewrite ?this_plus, ?this_minus, ?this_mult, ?this_opp,
            ?this_dec, ?this_of_Z, ?this_Q2Qc, ?this_0, ?this_1 in * ).

Ltac qc_lra := to_Q; lra.
Ltac qc_nra := to_Q; nra.

(** Closed comparisons and equations are settled by evaluation. *)
Ltac qc_eval :=
  match goal with
  | |- @eq Qc _ _ => apply eqb_eq; vm_compute; reflexivity
  | |- ~ @eq Qc _ _ =>
      let H := fresh in intro H; apply eqb_eq in H; vm_compute in H; discriminate H
  | |- Qclt _ _ => apply ltb_lt; vm_compute; reflexivity
  | |- Qcle _ _ => apply leb_le; vm_compute; reflexivity
  end.

Lemma sum_acc l : forall a, fold_left Qcplus l a = a + sum l.
Proof.
  unfold sum. induction l as [|x l IH]; intro a; simpl.
  - now rewrite Qcplus_0_r.
  - rewrite IH, (IH (0 + x)). ring.
Qed.

Lemma sum_nil : sum [] = 0.
Proof. reflexivity. Qed.

Lemma sum_cons x l : sum (x :: l) = x + sum l.
Proof. unfold sum at 1. simpl. rewrite sum_acc. ring. Qed.

Lemma sum_app l1 l2 : sum (l1 ++ l2) = sum l1 + sum l2.
Proof.
  induction l1 as [|x l1 IH]; simpl.
  - unfold sum at 2. simpl. ring.
  - rewrite !sum_cons, IH. ring.
Qed.

End Num.

(** ** Python dictionaries

    A [dict] with string keys is an association list in insertion order:
    [set] overwrites an existing key in place and appends a new one, as
    [d[k] = v] does; [pop] is [d.pop(k, None)]. *)

Module Dict.
Section Dict.
Context {V : Type}.

Definition t := list (string * V).

Fixpoint get (d : t) (k : string) : option V :=
  match d with
  | [] => None
  | (k', v) :: d' => if String.eqb k k' then Some v else get d' k
  end.

Fixpoint set (d : t) (k : string) (v : V) : t :=
  match d with
  | [] => [(k, v)]
  | (k', v') :: d' =>
      if String.eqb k k' then (k', v) :: d' else (k', v') :: set d' k v
  end.

Fixpoint pop (d : t) (k : string) : t :=
  match d with
  | [] => []
  | (k', v') :: d' => if String.eqb k k' then d' else (k', v') :: pop d' k
  end.

Definition mem (d : t) (k : string) : bool :=
  match get d k with Some _ => true | None => false end.

Definition keys (d : t) : list string := map fst d.
Definition values (d : t) : list V := map snd d.

(** [d.get(k, default)] *)
Definition get_default (d : t) (k : string) (default : V) : V :=
  match get d k with Some v => v | None => default end.

(** A genuine dictionary has no repeated key. *)
Fixpoint nodupb (l : list string) : bool :=
  match l with
  | [] => true
  | k :: l' => negb (existsb (String.eqb k) l') && nodupb l'
  end.

Definition ok (d : t) : Prop := nodupb (keys d) = true.

Lemma dict_nodupb_NoDup l : nodupb l = true <-> NoDup l.
Proof.
  induction l as [|k l IH]; simpl.
  - split; [constructor | reflexivity].
  - rewrite andb_true_iff, negb_true_iff, IH. split.
    + intros [Hk Hl]. constructor; [|exact Hl].
      intro Hin. assert (existsb (String.eqb k) l = true) as E.
      { apply existsb_exists. exists k. split; [exact Hin | apply String.eqb_refl]. }
      congruence.
    + intro H. inversion H as [|? ? Hk Hl]; subst. split; [|exact Hl].
      destruct (existsb (String.eqb k) l) eqn:E; [|reflexivity].
      apply existsb_exists in E. destruct E as [x [Hx Ex]].
      apply String.eqb_eq in Ex. subst x. contradiction.
Qed.

Lemma dict_get_In d k v : get d k = Some v -> In (k, v) d.
Proof.
  induction d as [|[k' v'] d IH]; simpl; [discriminate|].
  destruct (String.eqb k k') eqn:E.
  - apply String.eqb_eq in E. subst. intros [= ->]. now left.
  - intro H. right. now apply IH.
Qed.

Lemma dict_get_None d k : get d k = None <-> ~ In k (keys d).
Proof.
  induction d as [|[k' v'] d IH]; simpl.
  - split; [intros _ [] | reflexivity].
  - destruct (String.eqb k k') eqn:E.
    + apply String.eqb_eq in E. subst. split; [discriminate|].
      intro H. exfalso. apply H. now left.
    + apply String.eqb_neq in E. rewrite IH. split.
      * intros H [H'|H']; [congruence | contradiction].
      * intros H H'. apply H. now right.
Qed.

Lemma dict_In_get d k v : ok d -> In (k, v) d -> get d k = Some v.
Proof.
  unfold ok. rewrite dict_nodupb_NoDup.
  induction d as [|[k' v'] d IH]; simpl; [intros _ []|].
  intros Hnd [H|H].
  - injection H as -> ->. now rewrite String.eqb_refl.
  - inversion Hnd as [|? ? Hk Hd]; subst.
    destruct (String.eqb k k') eqn:E.
    + apply String.eqb_eq in E. subst. exfalso. apply Hk.
      change (In (fst (k', v)) (map fst d)). now apply in_map.
    + now apply IH.
Qed.

Lemma dict_get_set_same d k v : get (set d k v) k = Some v.
Proof.
  induction d as [|[k' v'] d IH]; simpl.
  - now rewrite String.eqb_refl.
  - destruct (String.eqb k k') eqn:E; simpl; rewrite E; [reflexivity | exact IH].
Qed.

Lemma dict_get_set_other d k k' v : k' <> k -> get (set d k v) k' = get d k'.
Proof.
  intro N. induction d as [|[k0 v0] d IH]; simpl.
  - apply String.eqb_neq in N. now rewrite N.
  - destruct (String.eqb k k0) eqn:E; simpl.
    + apply String.eqb_eq in E. subst k0.
      apply String.eqb_neq in N. now rewrite N.
    + now rewrite IH.
Qed.

Lemma dict_get_pop_same d k : ok d -> get (pop d k) k = None.
Proof.
  unfold ok. rewrite dict_nodupb_NoDup.
  induction d as [|[k' v'] d IH]; simpl; [reflexivity|].
  intro Hnd. inversion Hnd as [|? ? Hk Hd]; subst.
  destruct (String.eqb k k') eqn:E; simpl.
  - apply String.eqb_eq in E. subst. now apply dict_get_None.
  - rewrite E. now apply IH.
Qed.

Lemma dict_get_pop_other d k k' : k' <> k -> get (pop d k) k' = get d k'.
Proof.
  intro N. induction d as [|[k0 v0] d IH]; simpl; [reflexivity|].
  destruct (String.eqb k k0) eqn:E; simpl.
  - apply String.eqb_eq in E. subst k0.
    apply String.eqb_neq in N. now rewrite N.
  - now rewrite IH.
Qed.

Lemma dict_keys_set d k v :
  keys (set d k v) = if mem d k then keys d else keys d ++ [k].
Proof.
  unfold mem. induction d as [|[k0 v0] d IH]; simpl; [reflexivity|].
  destruct (String.eqb k k0) eqn:E; simpl; [reflexivity|].
  rewrite IH. now destruct (get d k).
Qed.

Lemma dict_ok_set d k v : ok d -> ok (set d k v).
Proof.
  unfold ok. rewrite !dict_nodupb_NoDup, dict_keys_set. intro H.
  unfold mem. destruct (get d k) eqn:E; [exact H|].
  apply dict_get_None in E.
  apply NoDup_app; [exact H | repeat constructor; intros [] |].
  intros x Hx [<-|[]]. contradiction.
Qed.

Lemma dict_ok_pop d k : ok d -> ok (pop d k).
Proof.
  unfold ok. rewrite !dict_nodupb_NoDup.
  induction d as [|[k0 v0] d IH]; simpl; [auto|].
  intro H. inversion H as [|? ? Hk Hd]; subst.
  destruct (String.eqb k k0); [exact Hd|]. simpl. constructor; [|auto].
  intro Hin. apply Hk. clear - Hin.
  induction d as [|[k1 v1] d IH]; simpl in *; [contradiction|].
  destruct (String.eqb k k1); simpl in *; [now right|].
  destruct Hin; [now left | right; auto].
Qed.

(** Setting a key that is not there appends it. *)
Lemma dict_set_fresh d k v : ~ In k (keys d) -> set d k v = d ++ [(k, v)].
Proof.
  induction d as [|[k0 v0] d IH]; simpl; intro H; [reflexivity|].
  destruct (String.eqb k k0) eqn:E.
  - apply String.eqb_eq in E. subst. exfalso. apply H. now left.
  - rewrite IH; [reflexivity|]. intro Hin. apply H. now right.
Qed.

(** Filling an empty dictionary from the items of a genuine one, each
    value mapped by [f], gives the items themselves, mapped. *)
Lemma dict_fill_map {W : Type} (f : string -> W -> V) (items : list (string * W)) :
  NoDup (map fst items) ->
  forall acc,
    (forall k, In k (map fst items) -> ~ In k (keys acc)) ->
    fold_left (fun acc '(k, w) => set acc k (f k w)) items acc
    = acc ++ map (fun '(k, w) => (k, f k w)) items.
Proof.
  induction items as [|[k w] items IH]; intros Hnd acc Hfresh; simpl.
  - now rewrite app_nil_r.
  - inversion Hnd as [|? ? Hk Hrest]; subst.
    rewrite dict_set_fresh by (apply Hfresh; now left).
    rewrite IH; [now rewrite <- app_assoc | exact Hrest |].
    intros k' Hin Hacc. unfold keys in Hacc. rewrite map_app in Hacc.
    apply in_app_or in Hacc. destruct Hacc as [Hacc|[<-|[]]].
    + apply (Hfresh k'); [now right | exact Hacc].
    + contradiction.
Qed.

End Dict.
Arguments t : clear implicits.
End Dict.

(** ** Compliance gate ([compliance_engine.py]) *)

Module Compliance.
Import Num.
Local Open Scope Qc_scope.
Local Open Scope list_scope.

Inductive status := PASS | WARNING | FAIL.
Inductive overall := OK | REVIEW | BLOCK.

(** The ['current'] and ['limit'] entries of a finding hold a number or a
    string (['N/A'], a country code). *)
Inductive value := VNum (x : Qc) | VStr (s : string).

(** A violation or warning record.  Its ['message'] entry, a formatted
    rendering of the other entries, is not modelled. *)
Record finding := {
  f_symbol : option string;
  f_sector : option string;
  f_rule : string;
  f_current : value;
  f_limit : value
}.

(** What the simulated data source draws for a symbol. *)
Record security := {
  s_market_cap : Qc;
  s_sector : string;
  s_country : string;
  s_esg_score : Qc;
  s_adv_ratio : Qc;
  s_beta : Qc;
  s_volatility : Qc;
  s_is_restricted : bool;
  s_is_watchlist : bool
}.

Record position := {
  weight : Qc;
  market_cap : Qc;
  sector : string;
  country : string;
  esg_score : Qc;
  adv_ratio : Qc;
  beta : Qc;
  volatility : Qc;
  is_restricted : bool;
  is_watchlist : bool
}.

Record portfolio_stats := {
  total_weight : Qc;
  gross_exposure : Qc;
  net_exposure : Qc;
  leverage : Qc;
  num_positions : nat
}.

Record risk_metrics := {
  portfolio_beta : Qc;
  portfolio_var_95 : Qc;
  tracking_error : Qc;
  concentration_index : Qc
}.

Record portfolio_data := {
  positions : Dict.t position;
  stats : portfolio_stats;
  sector_exposures : Dict.t Qc;
  risk : risk_metrics
}.

(** A ruleset; the nested groups of the source ([position_limits],
    [sector_limits], ...) are flattened, the leaf names kept. *)
Record ruleset := {
  name : string;
  description : string;
  max_single_position : Qc;
  min_position_size : Qc;
  max_short_position : Qc;
  max_sector_weight : Qc;
  min_sector_weight : Qc;
  max_gross_exposure : Qc;
  max_net_exposure : Qc;
  max_portfolio_beta : Qc;
  max_var_95 : Qc;
  max_tracking_error : Qc;
  min_adv_ratio : Qc;
  max_illiquid_weight : Qc;
  max_concentration_index : Qc;
  restricted_securities : list string;
  watchlist_securities : list string;
  min_esg_score : Qc;
  exclude_controversial : bool
}.

Record results := {
  r_status : status;
  violations : list finding;
  warnings : list finding
}.

Definition mk_position (w : Qc) (s : security) : position :=
  {| weight := w; market_cap := s_market_cap s; sector := s_sector s;
     country := s_country s; esg_score := s_esg_score s;
     adv_ratio := s_adv_ratio s; beta := s_beta s;
     volatility := s_volatility s; is_restricted := s_is_restricted s;
     is_watchlist := s_is_watchlist s |}.

Definition load_portfolio_data (lookup : string -> security)
    (weights : Dict.t Qc) : portfolio_data :=
  let positions :=
    fold_left (fun acc '(symbol, w) =>
                 Dict.set acc symbol (mk_position w (lookup symbol)))
              weights [] in
  let total_weight := sum (Dict.values weights) in
  let gross := sum (map Qcabs (Dict.values weights)) in
  let stats :=
    {| total_weight := total_weight;
       gross_exposure := gross;
       net_exposure := total_weight;
       leverage := if eqb total_weight 0 then 0 else gross / Qcabs total_weight;
       num_positions := List.length weights |} in
  let sector_exposures :=
    fold_left (fun acc '(_, data) =>
                 Dict.set acc (sector data)
                   (Dict.get_default acc (sector data) 0 + weight data))
              positions [] in
  let risk :=
    {| portfolio_beta :=
         sum (map (fun data => beta data * weight data) (Dict.values positions));
       portfolio_var_95 := dec (-25) 1000;
       tracking_error := dec 45 1000;
       concentration_index :=
         sum (map (fun w => w * w) (Dict.values weights)) |} in
  {| positions := positions; stats := stats;
     sector_exposures := sector_exposures; risk := risk |}.

Definition long_only_fund : ruleset :=
  {| name := "Long-Only Fund";
     description := "Standard long-only fund compliance rules";
     max_single_position := dec 5 100;
     min_position_size := dec 1 1000;
     max_short_position := 0;
     max_sector_weight := dec 30 100;
     min_sector_weight := 0;
     max_gross_exposure := 1;
     max_net_exposure := 1;
     max_portfolio_beta := dec 12 10;
     max_var_95 := dec (-3) 100;
     max_tracking_error := dec 5 100;
     min_adv_ratio := dec 1 100;
     max_illiquid_weight := dec 20 100;
     max_concentration_index := dec 15 100;
     restricted_securities := ["TOXIC_STOCK"; "SANCTIONED_ENTITY"]%string;
     watchlist_securities := ["VOLATILE_STOCK"; "LOW_LIQUIDITY"]%string;
     min_esg_score := dec 50 1;
     exclude_controversial := true |}.

Definition long_short_fund : ruleset :=
  {| name := "Long-Short Fund";
     description := "Long-short fund with leverage";
     max_single_position := dec 8 100;
     min_position_size := dec 1 1000;
     max_short_position := dec (-5) 100;
     max_sector_weight := dec 40 100;
     min_sector_weight := dec (-20) 100;
     max_gross_exposure := dec 2 1;
     max_net_exposure := dec 5 10;
     max_portfolio_beta := dec 8 10;
     max_var_95 := dec (-4) 100;
     max_tracking_error := dec 8 100;
     min_adv_ratio := dec 5 1000;
     max_illiquid_weight := dec 30 100;
     max_concentration_index := dec 20 100;
     restricted_securities := ["TOXIC_STOCK"; "SANCTIONED_ENTITY"]%string;
     watchlist_securities := ["VOLATILE_STOCK"; "LOW_LIQUIDITY"]%string;
     min_esg_score := dec 30 1;
     exclude_controversial := false |}.

Definition load_ruleset (ruleset_id : string) : ruleset :=
  Dict.get_default
    [("long_only_fund", long_only_fund); ("long_short_fund", long_short_fund)]%string
    ruleset_id long_only_fund.

Definition sym_finding (symbol rule : string) (cur lim : value) : finding :=
  {| f_symbol := Some symbol; f_sector := None; f_rule := rule;
     f_current := cur; f_limit := lim |}.

Definition sector_finding (sec rule : string) (cur lim : value) : finding :=
  {| f_symbol := None; f_sector := Some sec; f_rule := rule;
     f_current := cur; f_limit := lim |}.

Definition plain_finding (rule : string) (cur lim : value) : finding :=
  {| f_symbol := None; f_sector := None; f_rule := rule;
     f_current := cur; f_limit := lim |}.

Definition nonempty {A} (l : list A) : bool :=
  match l with [] => false | _ => true end.

(** [if results['violations']: FAIL elif results['warnings']: WARNING] *)
Definition fail_or_warn (vs ws : list finding) : results :=
  {| r_status := if nonempty vs then FAIL
                 else if nonempty ws then WARNING else PASS;
     violations := vs; warnings := ws |}.

(** [if results['violations']: FAIL] *)
Definition fail_only (vs ws : list finding) : results :=
  {| r_status := if nonempty vs then FAIL else PASS;
     violations := vs; warnings := ws |}.

(** [if results['warnings']: WARNING] *)
Definition warn_only (vs ws : list finding) : results :=
  {| r_status := if nonempty ws then WARNING else PASS;
     violations := vs; warnings := ws |}.

(** The body of the loop of [check_position_limits] for one position. *)
Definition position_limits_step (rs : ruleset)
    (acc : list finding * list finding) (item : string * position)
    : list finding * list finding :=
  let '(vs, ws) := acc in
  let '(symbol, data) := item in
  let w := weight data in
  let vs1 :=
    if gtb (Qcabs w) (max_single_position rs)
    then vs ++ [sym_finding symbol "max_single_position" (VNum w)
                  (VNum (max_single_position rs))]
    else vs in
  let ws1 :=
    if gtb (Qcabs w) 0 && ltb (Qcabs w) (min_position_size rs)
    then ws ++ [sym_finding symbol "min_position_size" (VNum w)
                  (VNum (min_position_size rs))]
    else ws in
  let vs2 :=
    if ltb w (max_short_position rs)
    then vs1 ++ [sym_finding symbol "max_short_position" (VNum w)
                   (VNum (max_short_position rs))]
    else vs1 in
  (vs2, ws1).

Definition check_position_limits (pd : portfolio_data) (rs : ruleset) : results :=
  let '(vs, ws) := fold_left (position_limits_step rs) (positions pd) ([], []) in
  fail_or_warn vs ws.

Definition str_in (s : string) (l : list string) : bool :=
  existsb (String.eqb s) l.

Definition check_restricted_securities (pd : portfolio_data) (rs : ruleset) : results :=
  let vs :=
    fold_left (fun vs '(symbol, data) =>
      if is_restricted data || str_in symbol (restricted_securities rs)
      then vs ++ [sym_finding symbol "restricted_securities"
                    (VNum (weight data)) (VNum 0)]
      else vs) (positions pd) [] in
  fail_only vs [].

Definition check_watchlist_securities (pd : portfolio_data) (rs : ruleset) : results :=
  let ws :=
    fold_left (fun ws '(symbol, data) =>
      if is_watchlist data || str_in symbol (watchlist_securities rs)
      then ws ++ [sym_finding symbol "watchlist_securities"
                    (VNum (weight data)) (VStr "N/A")]
      else ws) (positions pd) [] in
  warn_only [] ws.

Definition check_leverage_limits (pd : portfolio_data) (rs : ruleset) : results :=
  let st := stats pd in
  let vs1 :=
    if gtb (gross_exposure st) (max_gross_exposure rs)
    then [plain_finding "max_gross_exposure" (VNum (gross_exposure st))
            (VNum (max_gross_exposure rs))]
    else [] in
  let vs2 :=
    if gtb (Qcabs (net_exposure st)) (max_net_exposure rs)
    then vs1 ++ [plain_finding "max_net_exposure" (VNum (net_exposure st))
                   (VNum (max_net_exposure rs))]
    else vs1 in
  fail_only vs2 [].

Definition check_beta_limits (pd : portfolio_data) (rs : ruleset) : results :=
  let b := portfolio_beta (risk pd) in
  let vs :=
    if gtb (Qcabs b) (max_portfolio_beta rs)
    then [plain_finding "max_portfolio_beta" (VNum b) (VNum (max_portfolio_beta rs))]
    else [] in
  fail_only vs [].

Definition check_sector_limits (pd : portfolio_data) (rs : ruleset) : results :=
  let vs :=
    fold_left (fun vs '(sec, exposure) =>
      if gtb exposure (max_sector_weight rs)
      then vs ++ [sector_finding sec "max_sector_weight" (VNum exposure)
                    (VNum (max_sector_weight rs))]
      else if ltb exposure (min_sector_weight rs)
      then vs ++ [sector_finding sec "min_sector_weight" (VNum exposure)
                    (VNum (min_sector_weight rs))]
      else vs) (sector_exposures pd) [] in
  fail_only vs [].

Definition check_liquidity_requirements (pd : portfolio_data) (rs : ruleset) : results :=
  let '(ws, illiquid_weight) :=
    fold_left (fun '(ws, illiquid) '(symbol, data) =>
      if ltb (adv_ratio data) (min_adv_ratio rs)
      then (ws ++ [sym_finding symbol "min_adv_ratio" (VNum (adv_ratio data))
                     (VNum (min_adv_ratio rs))],
            illiquid + Qcabs (weight data))
      else (ws, illiquid)) (positions pd) ([], 0) in
  let vs :=
    if gtb illiquid_weight (max_illiquid_weight rs)
    then [plain_finding "max_illiquid_weight" (VNum illiquid_weight)
            (VNum (max_illiquid_weight rs))]
    else [] in
  fail_or_warn vs ws.

Definition check_concentration_limits (pd : portfolio_data) (rs : ruleset) : results :=
  let c := concentration_index (risk pd) in
  let vs :=
    if gtb c (max_concentration_index rs)
    then [plain_finding "max_concentration_index" (VNum c)
            (VNum (max_concentration_index rs))]
    else [] in
  fail_only vs [].

Definition check_var_limits (pd : portfolio_data) (rs : ruleset) : results :=
  let v := portfolio_var_95 (risk pd) in
  let vs :=
    if ltb v (max_var_95 rs)
    then [plain_finding "max_var_95" (VNum v) (VNum (max_var_95 rs))]
    else [] in
  fail_only vs [].

Definition check_tracking_error_limits (pd : portfolio_data) (rs : ruleset) : results :=
  let te := tracking_error (risk pd) in
  let vs :=
    if gtb te (max_tracking_error rs)
    then [plain_finding "max_tracking_error" (VNum te) (VNum (max_tracking_error rs))]
    else [] in
  fail_only vs [].

Definition check_esg_requirements (pd : portfolio_data) (rs : ruleset) : results :=
  let ws :=
    fold_left (fun ws '(symbol, data) =>
      if ltb (esg_score data) (min_esg_score rs)
      then ws ++ [sym_finding symbol "min_esg_score" (VNum (esg_score data))
                    (VNum (min_esg_score rs))]
      else ws) (positions pd) [] in
  warn_only [] ws.

Definition check_regulatory_limits (pd : portfolio_data) (rs : ruleset) : results :=
  let vs :=
    fold_left (fun vs '(symbol, data) =>
      if str_in (country data) ["IR"; "KP"; "CU"]%string
      then vs ++ [sym_finding symbol "sanctioned_country" (VStr (country data))
                    (VStr "N/A")]
      else vs) (positions pd) [] in
  fail_only vs [].

Definition status_eqb (a b : status) : bool :=
  match a, b with
  | PASS, PASS | WARNING, WARNING | FAIL, FAIL => true
  | _, _ => false
  end.

Definition calculate_compliance_status (check_results : Dict.t results) : overall :=
  let has_failures :=
    existsb (fun r => status_eqb (r_status r) FAIL) (Dict.values check_results) in
  let has_warnings :=
    existsb (fun r => status_eqb (r_status r) WARNING) (Dict.values check_results) in
  if has_failures then BLOCK
  else if has_warnings then REVIEW
  else OK.

(** The checks of [run_pre_trade_checks], in the order the source fills
    [check_results]. *)
Definition run_checks (pd : portfolio_data) (rs : ruleset) : Dict.t results :=
  let cr := [] in
  let cr := Dict.set cr "position_limits" (check_position_limits pd rs) in
  let cr := Dict.set cr "restricted_securities" (check_restricted_securities pd rs) in
  let cr := Dict.set cr "watchlist_securities" (check_watchlist_securities pd rs) in
  let cr := Dict.set cr "leverage_limits" (check_leverage_limits pd rs) in
  let cr := Dict.set cr "beta_limits" (check_beta_limits pd rs) in
  let cr := Dict.set cr "sector_limits" (check_sector_limits pd rs) in
  let cr := Dict.set cr "liquidity_requirements" (check_liquidity_requirements pd rs) in
  let cr := Dict.set cr "concentration_limits" (check_concentration_limits pd rs) in
  let cr := Dict.set cr "var_limits" (check_var_limits pd rs) in
  let cr := Dict.set cr "tracking_error_limits" (check_tracking_error_limits pd rs) in
  let cr := Dict.set cr "esg_requirements" (check_esg_requirements pd rs) in
  let cr := Dict.set cr "regulatory_limits" (check_regulatory_limits pd rs) in
  cr.

Record verdict := {
  overall_status : overall;
  check_results : Dict.t results
}.

(** [run_pre_trade_checks] once the ruleset is loaded. *)
Definition pre_trade_checks (lookup : string -> security)
    (portfolio_weights : Dict.t Qc) (rs : ruleset) : verdict :=
  let pd := load_portfolio_data lookup portfolio_weights in
  let cr := run_checks pd rs in
  {| overall_status := calculate_compliance_status cr; check_results := cr |}.

Definition run_pre_trade_checks (lookup : string -> security)
    (portfolio_weights : Dict.t Qc) (ruleset_id : string) : verdict :=
  pre_trade_checks lookup portfolio_weights (load_ruleset ruleset_id).

(** *** Properties of the gate *)

Lemma load_positions_fold lookup (items : Dict.t Qc) :
  Dict.ok items ->
  forall (acc : Dict.t position) s,
    Dict.get
      (fold_left (fun acc '(symbol, w) =>
                    Dict.set acc symbol (mk_position w (lookup symbol)))
                 items acc) s
    = match Dict.get items s with
      | Some w => Some (mk_position w (lookup s))
      | None => Dict.get acc s
      end.
Proof.
  unfold Dict.ok. rewrite Dict.dict_nodupb_NoDup.
  induction items as [|[k v] items IH]; intros Hnd acc s; simpl; [reflexivity|].
  inversion Hnd as [|? ? Hk Hrest]; subst.
  rewrite (IH Hrest).
  destruct (String.eqb s k) eqn:E.
  - apply String.eqb_eq in E. subst s.
    assert (Dict.get items k = None) as -> by now apply Dict.dict_get_None.
    apply Dict.dict_get_set_same.
  - apply String.eqb_neq in E.
    destruct (Dict.get items s); [reflexivity|].
    now apply Dict.dict_get_set_other.
Qed.

Lemma load_positions_get lookup weights s w :
  Dict.ok weights ->
  Dict.get weights s = Some w ->
  Dict.get (positions (load_portfolio_data lookup weights)) s
  = Some (mk_position w (lookup s)).
Proof.
  intros Hok Hget. unfold load_portfolio_data. simpl.
  rewrite (load_positions_fold lookup weights Hok). now rewrite Hget.
Qed.

Lemma position_limits_step_keeps rs acc item :
  fst acc <> [] -> fst (position_limits_step rs acc item) <> [].
Proof.
  destruct acc as [vs ws], item as [symbol data]. simpl. intro Hvs.
  destruct (gtb _ _), (ltb (weight data) _);
    try (intro H; apply app_eq_nil in H; destruct H as [H _]);
    try (apply app_eq_nil in H; destruct H as [H _]); auto.
Qed.

Lemma position_limits_step_breach rs acc symbol data :
  max_single_position rs < Qcabs (weight data) ->
  fst (position_limits_step rs acc (symbol, data)) <> [].
Proof.
  destruct acc as [vs ws]. simpl. intro Hgt.
  apply gtb_gt in Hgt. rewrite Hgt.
  destruct (ltb (weight data) _); intro H;
    repeat (apply app_eq_nil in H; destruct H as [H ?]); discriminate.
Qed.

Lemma position_limits_fold_keeps rs items :
  forall acc, fst acc <> [] ->
    fst (fold_left (position_limits_step rs) items acc) <> [].
Proof.
  induction items as [|item items IH]; intros acc H; simpl; [exact H|].
  apply IH. now apply position_limits_step_keeps.
Qed.

Lemma position_limits_fold_breach rs items symbol data :
  In (symbol, data) items ->
  max_single_position rs < Qcabs (weight data) ->
  forall acc, fst (fold_left (position_limits_step rs) items acc) <> [].
Proof.
  induction items as [|item items IH]; intros Hin Hgt acc; [destruct Hin|].
  simpl. destruct Hin as [->|Hin].
  - apply position_limits_fold_keeps. now apply position_limits_step_breach.
  - now apply IH.
Qed.

Lemma position_breach_fails pd rs symbol data :
  In (symbol, data) (positions pd) ->
  max_single_position rs < Qcabs (weight data) ->
  r_status (check_position_limits pd rs) = FAIL.
Proof.
  intros Hin Hgt. unfold check_position_limits.
  pose proof (position_limits_fold_breach rs _ _ _ Hin Hgt ([], [])) as H.
  destruct (fold_left _ _ _) as [vs ws]. simpl in *.
  destruct vs; [congruence | reflexivity].
Qed.

Lemma any_fail_blocks (cr : Dict.t results) k r :
  Dict.get cr k = Some r -> r_status r = FAIL ->
  calculate_compliance_status cr = BLOCK.
Proof.
  intros Hget Hst. unfold calculate_compliance_status.
  assert (existsb (fun r => status_eqb (r_status r) FAIL) (Dict.values cr) = true) as ->.
  { apply existsb_exists. exists r. split.
    - apply Dict.dict_get_In in Hget.
      change r with (snd (k, r)). now apply in_map.
    - now rewrite Hst. }
  reflexivity.
Qed.

Lemma run_checks_position_limits pd rs :
  Dict.get (run_checks pd rs) "position_limits" = Some (check_position_limits pd rs).
Proof. reflexivity. Qed.

(** C1: whenever some symbol's absolute weight strictly exceeds the
    ruleset's [max_single_position], [check_position_limits] reports FAIL
    and the overall status computed from the check results is BLOCK. *)
Theorem position_breach_blocks :
  forall (lookup : string -> security) (weights : Dict.t Qc) (rs : ruleset)
         (symbol : string) (w : Qc),
    Dict.ok weights ->
    Dict.get weights symbol = Some w ->
    max_single_position rs < Qcabs w ->
    r_status (check_position_limits (load_portfolio_data lookup weights) rs) = FAIL
    /\ calculate_compliance_status
         (run_checks (load_portfolio_data lookup weights) rs) = BLOCK
    /\ overall_status (pre_trade_checks lookup weights rs) = BLOCK.
Proof.
  intros lookup weights rs symbol w Hok Hget Hgt.
  assert (r_status (check_position_limits (load_portfolio_data lookup weights) rs)
          = FAIL) as Hfail.
  { apply position_breach_fails with symbol (mk_position w (lookup symbol)).
    - apply Dict.dict_get_In. now apply load_positions_get.
    - exact Hgt. }
  assert (calculate_compliance_status
            (run_checks (load_portfolio_data lookup weights) rs) = BLOCK) as Hblock.
  { eapply any_fail_blocks; [apply run_checks_position_limits | exact Hfail]. }
  repeat split; assumption.
Qed.

(** The scenario of the specification: weights A 0.4, B 0.4, C 0.2. *)
Definition plain_security : security :=
  {| s_market_cap := dec 1000000 1; s_sector := "Technology"; s_country := "US";
     s_esg_score := dec 80 1; s_adv_ratio := dec 5 100; s_beta := 1;
     s_volatility := dec 2 10; s_is_restricted := false; s_is_watchlist := false |}.

Definition scenario_weights : Dict.t Qc :=
  [("A", dec 4 10); ("B", dec 4 10); ("C", dec 2 10)]%string.

Definition with_max_single (m : Qc) (rs : ruleset) : ruleset :=
  {| name := name rs; description := description rs;
     max_single_position := m;
     min_position_size := min_position_size rs;
     max_short_position := max_short_position rs;
     max_sector_weight := max_sector_weight rs;
     min_sector_weight := min_sector_weight rs;
     max_gross_exposure := max_gross_exposure rs;
     max_net_exposure := max_net_exposure rs;
     max_portfolio_beta := max_portfolio_beta rs;
     max_var_95 := max_var_95 rs;
     max_tracking_error := max_tracking_error rs;
     min_adv_ratio := min_adv_ratio rs;
     max_illiquid_weight := max_illiquid_weight rs;
     max_concentration_index := max_concentration_index rs;
     restricted_securities := restricted_securities rs;
     watchlist_securities := watchlist_securities rs;
     min_esg_score := min_esg_score rs;
     exclude_controversial := exclude_controversial rs |}.

Example scenario_limit_half_passes :
  r_status (check_position_limits
              (load_portfolio_data (fun _ => plain_security) scenario_weights)
              (with_max_single (dec 5 10) long_only_fund)) = PASS.
Proof. vm_compute. reflexivity. Qed.

Example scenario_limit_030_cites_A_B :
  map f_symbol
    (violations (check_position_limits
                   (load_portfolio_data (fun _ => plain_security) scenario_weights)
                   (with_max_single (dec 3 10) long_only_fund)))
  = [Some "A"; Some "B"]%string.
Proof. vm_compute. reflexivity. Qed.

Lemma position_breach_blocks_witness :
  r_status (check_position_limits
              (load_portfolio_data (fun _ => plain_security) scenario_weights)
              (with_max_single (dec 3 10) long_only_fund)) = FAIL
  /\ calculate_compliance_status
       (run_checks (load_portfolio_data (fun _ => plain_security) scenario_weights)
          (with_max_single (dec 3 10) long_only_fund)) = BLOCK
  /\ overall_status
       (pre_trade_checks (fun _ => plain_security) scenario_weights
          (with_max_single (dec 3 10) long_only_fund)) = BLOCK.
Proof.
  apply (position_breach_blocks (fun _ => plain_security) scenario_weights
           (with_max_single (dec 3 10) long_only_fund) "A" (dec 4 10)).
  - reflexivity.
  - reflexivity.
  - apply ltb_lt. vm_compute. reflexivity.
Defined.

(** *** More on the gate: aggregation, position limits, the report *)

Lemma status_by_results :
  forall cr : Dict.t results,
    (calculate_compliance_status cr = BLOCK
     <-> exists r, In r (Dict.values cr) /\ r_status r = FAIL)
    /\ (calculate_compliance_status cr = REVIEW
        <-> (forall r, In r (Dict.values cr) -> r_status r <> FAIL)
            /\ exists r, In r (Dict.values cr) /\ r_status r = WARNING)
    /\ (calculate_compliance_status cr = OK
        <-> forall r, In r (Dict.values cr) -> r_status r = PASS).
Proof.
  intro cr. unfold calculate_compliance_status.
  set (f := existsb (fun r => status_eqb (r_status r) FAIL) (Dict.values cr)).
  set (w := existsb (fun r => status_eqb (r_status r) WARNING) (Dict.values cr)).
  assert (f = true <-> exists r, In r (Dict.values cr) /\ r_status r = FAIL) as Hf.
  { unfold f. rewrite existsb_exists. split; intros [r [Hin Hr]]; exists r;
      split; try assumption.
    - destruct (r_status r); simpl in Hr; congruence.
    - now rewrite Hr. }
  assert (w = true <-> exists r, In r (Dict.values cr) /\ r_status r = WARNING) as Hw.
  { unfold w. rewrite existsb_exists. split; intros [r [Hin Hr]]; exists r;
      split; try assumption.
    - destruct (r_status r); simpl in Hr; congruence.
    - now rewrite Hr. }
  assert (f = false <-> forall r, In r (Dict.values cr) -> r_status r <> FAIL) as Hnf.
  { split.
    - intros E r Hin Hr. assert (f = true) by (apply Hf; eauto). congruence.
    - intro H. destruct f eqn:E; [|reflexivity].
      destruct (proj1 Hf eq_refl) as [r [Hin Hr]]. now destruct (H r Hin). }
  assert (w = false <-> forall r, In r (Dict.values cr) -> r_status r <> WARNING) as Hnw.
  { split.
    - intros E r Hin Hr. assert (w = true) by (apply Hw; eauto). congruence.
    - intro H. destruct w eqn:E; [|reflexivity].
      destruct (proj1 Hw eq_refl) as [r [Hin Hr]]. now destruct (H r Hin). }
  split; [|split].
  - rewrite <- Hf. destruct f, w; split; congruence.
  - rewrite <- Hnf, <- Hw. destruct f, w; intuition congruence.
  - split.
    + intros H r Hin.
      assert (f = false) as Ef by (destruct f, w; congruence).
      assert (w = false) as Ew by (destruct f, w; congruence).
      pose proof (proj1 Hnf Ef r Hin). pose proof (proj1 Hnw Ew r Hin).
      destruct (r_status r); congruence.
    + intro H.
      assert (f = false) as ->.
      { apply Hnf. intros r Hin Hr. rewrite (H r Hin) in Hr. discriminate. }
      assert (w = false) as ->.
      { apply Hnw. intros r Hin Hr. rewrite (H r Hin) in Hr. discriminate. }
      reflexivity.
Qed.

(** The overall status is BLOCK exactly when some check failed, REVIEW
    exactly when none failed and some check warned, and OK exactly when
    every check passed. *)
Theorem compliance_status_cases :
  forall cr : Dict.t results,
    (calculate_compliance_status cr = BLOCK
     <-> exists r, In r (Dict.values cr) /\ r_status r = FAIL)
    /\ (calculate_compliance_status cr = REVIEW
        <-> (forall r, In r (Dict.values cr) -> r_status r <> FAIL)
            /\ exists r, In r (Dict.values cr) /\ r_status r = WARNING)
    /\ (calculate_compliance_status cr = OK
        <-> forall r, In r (Dict.values cr) -> r_status r = PASS).
Proof. exact status_by_results. Qed.

(** The violations and warnings a position adds in [check_position_limits]. *)
Definition position_violations (rs : ruleset) (item : string * position)
    : list finding :=
  let '(symbol, data) := item in
  (if gtb (Qcabs (weight data)) (max_single_position rs)
   then [sym_finding symbol "max_single_position" (VNum (weight data))
           (VNum (max_single_position rs))]
   else [])
  ++ (if ltb (weight data) (max_short_position rs)
      then [sym_finding symbol "max_short_position" (VNum (weight data))
              (VNum (max_short_position rs))]
      else []).

Definition position_warnings (rs : ruleset) (item : string * position)
    : list finding :=
  let '(symbol, data) := item in
  if gtb (Qcabs (weight data)) 0 && ltb (Qcabs (weight data)) (min_position_size rs)
  then [sym_finding symbol "min_position_size" (VNum (weight data))
          (VNum (min_position_size rs))]
  else [].

Lemma position_limits_fold rs items :
  forall vs ws,
    fold_left (position_limits_step rs) items (vs, ws)
    = (vs ++ flat_map (position_violations rs) items,
       ws ++ flat_map (position_warnings rs) items).
Proof.
  induction items as [|[symbol data] items IH]; intros vs ws; simpl.
  - now rewrite !app_nil_r.
  - rewrite IH.
    destruct (gtb (Qcabs (weight data)) (max_single_position rs)),
             (ltb (weight data) (max_short_position rs)),
             (gtb (Qcabs (weight data)) 0
              && ltb (Qcabs (weight data)) (min_position_size rs));
      simpl; rewrite <- ?app_assoc; simpl; rewrite ?app_nil_r; reflexivity.
Qed.

(** [check_position_limits] lists its findings in portfolio order, fails
    exactly when some position is larger than [max_single_position] in
    absolute value or below [max_short_position], and otherwise warns
    exactly when some non-zero position is smaller than
    [min_position_size] in absolute value. *)
Theorem position_limits_cases :
  forall (pd : portfolio_data) (rs : ruleset),
    violations (check_position_limits pd rs)
    = flat_map (position_violations rs) (positions pd)
    /\ warnings (check_position_limits pd rs)
       = flat_map (position_warnings rs) (positions pd)
    /\ (r_status (check_position_limits pd rs) = FAIL
        <-> exists symbol data,
              In (symbol, data) (positions pd)
              /\ (max_single_position rs < Qcabs (weight data)
                  \/ weight data < max_short_position rs))
    /\ (r_status (check_position_limits pd rs) = WARNING
        <-> (forall symbol data,
               In (symbol, data) (positions pd) ->
               Qcabs (weight data) <= max_single_position rs
               /\ max_short_position rs <= weight data)
            /\ exists symbol data,
                 In (symbol, data) (positions pd)
                 /\ 0 < Qcabs (weight data)
                 /\ Qcabs (weight data) < min_position_size rs).
Proof.
  intros pd rs. unfold check_position_limits.
  rewrite position_limits_fold. cbn [app fail_or_warn violations warnings r_status].
  set (V := flat_map (position_violations rs) (positions pd)).
  set (W := flat_map (position_warnings rs) (positions pd)).
  assert (V <> [] <-> exists symbol data,
            In (symbol, data) (positions pd)
            /\ (max_single_position rs < Qcabs (weight data)
                \/ weight data < max_short_position rs)) as HV.
  { unfold V. split.
    - intro H.
      destruct (flat_map (position_violations rs) (positions pd)) as [|v l] eqn:E;
        [congruence|].
      assert (In v (flat_map (position_violations rs) (positions pd))) as Hin
        by (rewrite E; now left).
      apply in_flat_map in Hin. destruct Hin as [[symbol data] [Hin Hv]].
      exists symbol, data. split; [exact Hin|].
      unfold position_violations in Hv.
      destruct (gtb _ _) eqn:G; [left; now apply gtb_gt|].
      destruct (ltb _ _) eqn:L; [right; now apply ltb_lt|]. destruct Hv.
    - intros [symbol [data [Hin Hc]]] E.
      assert (forall v, ~ In v (flat_map (position_violations rs) (positions pd))) as Hno
        by (intros v Hv; rewrite E in Hv; destruct Hv).
      destruct Hc as [Hc|Hc].
      + apply gtb_gt in Hc.
        apply (Hno (sym_finding symbol "max_single_position" (VNum (weight data))
                      (VNum (max_single_position rs)))).
        apply in_flat_map. exists (symbol, data). split; [exact Hin|].
        unfold position_violations. rewrite Hc. now left.
      + apply ltb_lt in Hc.
        apply (Hno (sym_finding symbol "max_short_position" (VNum (weight data))
                      (VNum (max_short_position rs)))).
        apply in_flat_map. exists (symbol, data). split; [exact Hin|].
        unfold position_violations. rewrite Hc. apply in_or_app. right. now left. }
  assert (W <> [] <-> exists symbol data,
            In (symbol, data) (positions pd)
            /\ 0 < Qcabs (weight data)
            /\ Qcabs (weight data) < min_position_size rs) as HW.
  { unfold W. split.
    - intro H.
      destruct (flat_map (position_warnings rs) (positions pd)) as [|v l] eqn:E;
        [congruence|].
      assert (In v (flat_map (position_warnings rs) (positions pd))) as Hin
        by (rewrite E; now left).
      apply in_flat_map in Hin. destruct Hin as [[symbol data] [Hin Hv]].
      exists symbol, data. split; [exact Hin|].
      unfold position_warnings in Hv.
      destruct (gtb _ 0 && ltb _ _) eqn:G; [|destruct Hv].
      apply andb_true_iff in G. destruct G as [G1 G2].
      split; [now apply gtb_gt | now apply ltb_lt].
    - intros [symbol [data [Hin [H1 H2]]]] E.
      apply gtb_gt in H1. apply ltb_lt in H2.
      assert (In (sym_finding symbol "min_position_size" (VNum (weight data))
                    (VNum (min_position_size rs)))
                 (flat_map (position_warnings rs) (positions pd))) as Hv.
      { apply in_flat_map. exists (symbol, data). split; [exact Hin|].
        unfold position_warnings. rewrite H1, H2. now left. }
      rewrite E in Hv. destruct Hv. }
  split; [reflexivity|]. split; [reflexivity|]. split.
  - rewrite <- HV. destruct V; simpl; [|split; congruence].
    destruct W; simpl; split; congruence.
  - rewrite <- HW. split.
    + intro H. destruct V as [|v V'] eqn:EV; [|simpl in H; discriminate].
      split.
      * intros symbol data Hin. split.
        -- apply Qcnot_lt_le. intro C. apply (proj2 HV); [eauto | reflexivity].
        -- apply Qcnot_lt_le. intro C. apply (proj2 HV); [eauto | reflexivity].
      * destruct W; simpl in H; congruence.
    + intros [Hall HWne].
      assert (V = []) as ->.
      { destruct V as [|v V'] eqn:EV; [reflexivity|]. exfalso.
        destruct (proj1 HV) as [symbol [data [Hin Hc]]]; [discriminate|].
        destruct (Hall symbol data Hin) as [H1 H2].
        destruct Hc as [Hc|Hc]; [exact (Qclt_not_le _ _ Hc H1) | exact (Qclt_not_le _ _ Hc H2)]. }
      destruct W; simpl; congruence.
Qed.


(** The twelve results of [run_checks], in order. *)
Lemma run_checks_values pd rs :
  Dict.values (run_checks pd rs)
  = [check_position_limits pd rs; check_restricted_securities pd rs;
     check_watchlist_securities pd rs; check_leverage_limits pd rs;
     check_beta_limits pd rs; check_sector_limits pd rs;
     check_liquidity_requirements pd rs; check_concentration_limits pd rs;
     check_var_limits pd rs; check_tracking_error_limits pd rs;
     check_esg_requirements pd rs; check_regulatory_limits pd rs].
Proof. reflexivity. Qed.

Lemma warn_only_not_fail vs ws : r_status (warn_only vs ws) <> FAIL.
Proof. unfold warn_only. simpl. destruct (nonempty ws); discriminate. Qed.

(** The watchlist and ESG checks only ever warn, so the verdict is BLOCK
    exactly when one of the other ten checks fails. *)
Theorem block_needs_hard_failure :
  forall (pd : portfolio_data) (rs : ruleset),
    calculate_compliance_status (run_checks pd rs) = BLOCK
    <-> (r_status (check_position_limits pd rs) = FAIL
         \/ r_status (check_restricted_securities pd rs) = FAIL
         \/ r_status (check_leverage_limits pd rs) = FAIL
         \/ r_status (check_beta_limits pd rs) = FAIL
         \/ r_status (check_sector_limits pd rs) = FAIL
         \/ r_status (check_liquidity_requirements pd rs) = FAIL
         \/ r_status (check_concentration_limits pd rs) = FAIL
         \/ r_status (check_var_limits pd rs) = FAIL
         \/ r_status (check_tracking_error_limits pd rs) = FAIL
         \/ r_status (check_regulatory_limits pd rs) = FAIL).
Proof.
  intros pd rs.
  destruct (status_by_results (run_checks pd rs)) as [HB _].
  rewrite HB, run_checks_values. split.
  - intros [r [Hin Hr]]. simpl in Hin.
    assert (r_status (check_watchlist_securities pd rs) <> FAIL) as Hw
      by apply warn_only_not_fail.
    assert (r_status (check_esg_requirements pd rs) <> FAIL) as He
      by apply warn_only_not_fail.
    repeat (destruct Hin as [<-|Hin]; [tauto|]). destruct Hin.
  - intro H. simpl.
    repeat (destruct H as [H|H]; [eexists; split; [|exact H]; tauto|]).
    eexists; split; [|exact H]; tauto.
Qed.

Lemma restricted_fold rs items symbol data :
  In (symbol, data) items ->
  is_restricted data || str_in symbol (restricted_securities rs) = true ->
  forall vs,
    fold_left (fun vs '(symbol, data) =>
      if is_restricted data || str_in symbol (restricted_securities rs)
      then vs ++ [sym_finding symbol "restricted_securities"
                    (VNum (weight data)) (VNum 0)]
      else vs) items vs <> [].
Proof.
  intros Hin Hr.
  assert (forall items vs, vs <> [] ->
            fold_left (fun vs '(symbol, data) =>
              if is_restricted data || str_in symbol (restricted_securities rs)
              then vs ++ [sym_finding symbol "restricted_securities"
                            (VNum (weight data)) (VNum 0)]
              else vs) items vs <> []) as Hkeep.
  { clear. induction items as [|[s d] items IH]; intros vs H; simpl; [exact H|].
    apply IH. destruct (_ || _); [|exact H].
    intro E. apply app_eq_nil in E. destruct E as [_ E]. discriminate. }
  induction items as [|[s d] items IH]; intro vs; [destruct Hin|].
  simpl. destruct Hin as [Hin|Hin].
  - injection Hin as -> ->. rewrite Hr. apply Hkeep.
    intro E. apply app_eq_nil in E. destruct E as [_ E]. discriminate.
  - now apply IH.
Qed.

(** A symbol of the ruleset's restricted list, or one the data source
    flags as restricted, blocks the portfolio whatever its weight, zero
    included. *)
Theorem restricted_security_blocks :
  forall (lookup : string -> security) (weights : Dict.t Qc) (rs : ruleset)
         (symbol : string) (w : Qc),
    Dict.ok weights ->
    Dict.get weights symbol = Some w ->
    s_is_restricted (lookup symbol) = true
    \/ In symbol (restricted_securities rs) ->
    r_status (check_restricted_securities (load_portfolio_data lookup weights) rs)
    = FAIL
    /\ overall_status (pre_trade_checks lookup weights rs) = BLOCK.
Proof.
  intros lookup weights rs symbol w Hok Hget Hr.
  set (pd := load_portfolio_data lookup weights).
  assert (r_status (check_restricted_securities pd rs) = FAIL) as Hfail.
  { unfold check_restricted_securities.
    assert (In (symbol, mk_position w (lookup symbol)) (positions pd)) as Hin.
    { apply Dict.dict_get_In. unfold pd. now apply load_positions_get. }
    assert (s_is_restricted (lookup symbol)
            || str_in symbol (restricted_securities rs) = true) as Hb.
    { apply orb_true_iff. destruct Hr as [Hr|Hr]; [now left|right].
      unfold str_in. apply existsb_exists. exists symbol.
      split; [exact Hr | apply String.eqb_refl]. }
    pose proof (restricted_fold rs (positions pd) symbol
                  (mk_position w (lookup symbol)) Hin Hb []) as H.
    unfold fail_only. cbn [r_status].
    match goal with
    | |- context [nonempty ?l] => destruct l; [congruence | reflexivity]
    end. }
  split; [exact Hfail|].
  unfold pre_trade_checks. simpl. fold pd.
  apply (any_fail_blocks (run_checks pd rs) "restricted_securities"
           (check_restricted_securities pd rs)); [reflexivity | exact Hfail].
Qed.

Lemma restricted_security_blocks_witness :
  r_status (check_restricted_securities
              (load_portfolio_data (fun _ => plain_security)
                 [("TOXIC_STOCK"%string, 0)]) long_short_fund) = FAIL
  /\ overall_status
       (pre_trade_checks (fun _ => plain_security) [("TOXIC_STOCK"%string, 0)]
          long_short_fund) = BLOCK.
Proof.
  apply (restricted_security_blocks (fun _ => plain_security)
           [("TOXIC_STOCK"%string, 0)] long_short_fund "TOXIC_STOCK"%string 0).
  - reflexivity.
  - reflexivity.
  - right. now left.
Defined.


(** *** The loaded portfolio data *)

Lemma load_positions_map lookup (weights : Dict.t Qc) :
  Dict.ok weights ->
  positions (load_portfolio_data lookup weights)
  = map (fun '(symbol, w) => (symbol, mk_position w (lookup symbol))) weights.
Proof.
  intro Hok. unfold load_portfolio_data. cbn [positions].
  apply Dict.dict_nodupb_NoDup in Hok.
  rewrite (Dict.dict_fill_map (fun symbol w => mk_position w (lookup symbol))
             weights Hok []); [reflexivity | intros k _ []].
Qed.

Lemma sum_values_accumulate (d : Dict.t Qc) k w :
  sum (Dict.values (Dict.set d k (Dict.get_default d k 0 + w)))
  = sum (Dict.values d) + w.
Proof.
  unfold Dict.get_default. induction d as [|[k0 v0] d IH]; simpl.
  - rewrite sum_cons, !sum_nil. ring.
  - destruct (String.eqb k k0) eqn:E; simpl.
    + rewrite !sum_cons. ring.
    + rewrite !sum_cons, IH. ring.
Qed.

Lemma sector_fold_sum (items : Dict.t position) :
  forall acc,
    sum (Dict.values
           (fold_left (fun acc '(_, data) =>
                         Dict.set acc (sector data)
                           (Dict.get_default acc (sector data) 0 + weight data))
                      items acc))
    = sum (Dict.values acc) + sum (map weight (Dict.values items)).
Proof.
  induction items as [|[s data] items IH]; intro acc; simpl.
  - rewrite sum_nil. ring.
  - rewrite IH, sum_values_accumulate, sum_cons. ring.
Qed.

(** The sector exposures of a portfolio add up to its net exposure. *)
Theorem sector_exposures_sum_to_net :
  forall (lookup : string -> security) (weights : Dict.t Qc),
    Dict.ok weights ->
    sum (Dict.values (sector_exposures (load_portfolio_data lookup weights)))
    = net_exposure (stats (load_portfolio_data lookup weights)).
Proof.
  intros lookup weights Hok.
  pose proof (load_positions_map lookup weights Hok) as Hp.
  unfold load_portfolio_data in *. cbn [sector_exposures stats net_exposure positions] in *.
  rewrite sector_fold_sum, Hp.
  change (sum (Dict.values (@nil (string * Qc)))) with 0. rewrite Qcplus_0_l.
  f_equal. unfold Dict.values. rewrite !map_map.
  apply map_ext. now intros [s w].
Qed.

Lemma sector_exposures_sum_to_net_witness :
  sum (Dict.values (sector_exposures
                      (load_portfolio_data (fun _ => plain_security) scenario_weights)))
  = net_exposure (stats (load_portfolio_data (fun _ => plain_security) scenario_weights)).
Proof.
  apply (sector_exposures_sum_to_net (fun _ => plain_security) scenario_weights).
  reflexivity.
Defined.

Lemma abs_sum_le l : Qcabs (sum l) <= sum (map Qcabs l).
Proof.
  induction l as [|x l IH]; simpl.
  - rewrite sum_nil. rewrite Qcabs_pos; apply Qcle_refl.
  - rewrite !sum_cons. eapply Qcle_trans; [apply Qcabs_triangle|].
    apply Qcplus_le_compat; [apply Qcle_refl | exact IH].
Qed.

(** Gross exposure is at least the absolute net exposure; the leverage
    figure is 0 for a portfolio of zero net weight and at least 1
    otherwise. *)
Theorem leverage_at_least_one :
  forall (lookup : string -> security) (weights : Dict.t Qc),
    let st := stats (load_portfolio_data lookup weights) in
    Qcabs (net_exposure st) <= gross_exposure st
    /\ (total_weight st = 0 -> leverage st = 0)
    /\ (total_weight st <> 0 -> 1 <= leverage st).
Proof.
  intros lookup weights. unfold load_portfolio_data.
  cbn [stats net_exposure gross_exposure total_weight leverage].
  set (t := sum (Dict.values weights)).
  set (g := sum (map Qcabs (Dict.values weights))).
  assert (Qcabs t <= g) as Hle by apply abs_sum_le.
  split; [exact Hle|]. split.
  - intro E. rewrite E. reflexivity.
  - intro N. destruct (eqb t 0) eqn:E; [apply eqb_eq in E; contradiction|].
    assert (0 < Qcabs t) as Hpos.
    { destruct (Qcle_lt_or_eq _ _ (Qcabs_nonneg t)) as [H|H]; [exact H|].
      symmetry in H. apply Qcabs_null in H. contradiction. }
    apply Qcmult_lt_0_le_reg_r with (Qcabs t); [exact Hpos|].
    rewrite Qcmult_1_l. unfold Qcdiv.
    rewrite <- Qcmult_assoc, Qcmult_inv_l, Qcmult_1_r; [exact Hle|].
    intro Z. rewrite Z in Hpos. exact (Qclt_not_le _ _ Hpos (Qcle_refl 0)).
Qed.


(** *** The compliance report *)

Record compliance_report := {
  rep_overall_status : overall;
  total_checks : nat;
  passed_checks : nat;
  warning_checks : nat;
  failed_checks : nat;
  rep_violations : list (string * finding);   (* each with its ['check_type'] *)
  rep_warnings : list (string * finding);
  recommendations : list string
}.

Definition count_status (st : status) (cr : Dict.t results) : nat :=
  List.length (filter (fun r => status_eqb (r_status r) st) (Dict.values cr)).

Definition overall_eqb (a b : overall) : bool :=
  match a, b with
  | OK, OK | REVIEW, REVIEW | BLOCK, BLOCK => true
  | _, _ => false
  end.

Definition address_violations : string :=
  "Address all violations before proceeding with trade".
Definition review_warnings : string :=
  "Review warnings and consider adjustments".
Definition trade_can_proceed : string :=
  "All compliance checks passed - trade can proceed".

Definition generate_compliance_report (cr : Dict.t results) (st : overall)
    : compliance_report :=
  let vs := flat_map (fun '(check_name, r) =>
                        map (pair check_name) (violations r)) cr in
  let ws := flat_map (fun '(check_name, r) =>
                        map (pair check_name) (warnings r)) cr in
  {| rep_overall_status := st;
     total_checks := List.length cr;
     passed_checks := count_status PASS cr;
     warning_checks := count_status WARNING cr;
     failed_checks := count_status FAIL cr;
     rep_violations := vs;
     rep_warnings := ws;
     recommendations :=
       (if nonempty vs then [address_violations] else [])
       ++ (if nonempty ws then [review_warnings] else [])
       ++ (if overall_eqb st OK then [trade_can_proceed] else []) |}.

(** A result whose status agrees with its findings. *)
Definition consistent (r : results) : Prop :=
  (r_status r = FAIL <-> violations r <> [])
  /\ (r_status r = PASS <-> violations r = [] /\ warnings r = []).

Lemma fail_or_warn_consistent vs ws : consistent (fail_or_warn vs ws).
Proof.
  unfold consistent, fail_or_warn. simpl.
  destruct vs, ws; simpl; intuition congruence.
Qed.

Lemma fail_only_consistent vs : consistent (fail_only vs []).
Proof.
  unfold consistent, fail_only. simpl. destruct vs; simpl; intuition congruence.
Qed.

Lemma warn_only_consistent ws : consistent (warn_only [] ws).
Proof.
  unfold consistent, warn_only. simpl. destruct ws; simpl; intuition congruence.
Qed.

Lemma run_checks_consistent pd rs :
  Forall consistent (Dict.values (run_checks pd rs)).
Proof.
  rewrite run_checks_values.
  repeat apply Forall_cons; try apply Forall_nil;
    first [ apply fail_only_consistent | apply warn_only_consistent | idtac ].
  - unfold check_position_limits.
    match goal with
    | |- context [fold_left ?f ?l ?a] => destruct (fold_left f l a)
    end.
    apply fail_or_warn_consistent.
  - unfold check_liquidity_requirements.
    match goal with
    | |- context [fold_left ?f ?l ?a] => destruct (fold_left f l a)
    end.
    apply fail_or_warn_consistent.
Qed.

Lemma flat_map_nil_iff {A B} (f : A -> list B) l :
  flat_map f l = [] <-> forall x, In x l -> f x = [].
Proof.
  induction l as [|a l IH]; simpl.
  - split; [intros _ x [] | reflexivity].
  - split.
    + intro H. apply app_eq_nil in H. destruct H as [Ha Hl].
      intros x [<-|Hx]; [exact Ha | now apply IH].
    + intro H. rewrite (H a (or_introl eq_refl)). simpl.
      apply IH. intros x Hx. apply H. now right.
Qed.

Lemma count_status_total (cr : Dict.t results) :
  (count_status PASS cr + count_status WARNING cr + count_status FAIL cr
   = List.length cr)%nat.
Proof.
  unfold count_status, Dict.values.
  induction cr as [|[k r] cr IH]; simpl; [reflexivity|].
  destruct (r_status r); simpl; lia.
Qed.

(** The report of a pre-trade run counts twelve checks, each exactly once
    as passed, warning or failed; it recommends that the trade can proceed
    exactly when it lists no violation and no warning; and a listed
    violation means the verdict is BLOCK. *)
Theorem report_agrees_with_verdict :
  forall (pd : portfolio_data) (rs : ruleset),
    let cr := run_checks pd rs in
    let rep := generate_compliance_report cr (calculate_compliance_status cr) in
    total_checks rep = 12%nat
    /\ (passed_checks rep + warning_checks rep + failed_checks rep
        = total_checks rep)%nat
    /\ (In trade_can_proceed (recommendations rep)
        <-> rep_violations rep = [] /\ rep_warnings rep = [])
    /\ (rep_violations rep <> [] -> rep_overall_status rep = BLOCK).
Proof.
  intros pd rs cr rep.
  pose proof (run_checks_consistent pd rs) as Hc. fold cr in Hc.
  rewrite Forall_forall in Hc.
  destruct (status_by_results cr) as [HB [_ HO]].
  assert (forall k r, In (k, r) cr -> In r (Dict.values cr)) as Hval.
  { intros k r Hin. change r with (snd (k, r)). now apply in_map. }
  assert (rep_violations rep = [] <-> forall r, In r (Dict.values cr) -> violations r = [])
    as HV.
  { unfold rep, generate_compliance_report. cbn [rep_violations].
    rewrite flat_map_nil_iff. split.
    - intros H r Hin. apply in_map_iff in Hin. destruct Hin as [[k r'] [<- Hin]].
      specialize (H (k, r') Hin). simpl in *.
      destruct (violations r'); [reflexivity | discriminate].
    - intros H [k r] Hin. rewrite (H r (Hval k r Hin)). reflexivity. }
  assert (rep_warnings rep = [] <-> forall r, In r (Dict.values cr) -> warnings r = [])
    as HW.
  { unfold rep, generate_compliance_report. cbn [rep_warnings].
    rewrite flat_map_nil_iff. split.
    - intros H r Hin. apply in_map_iff in Hin. destruct Hin as [[k r'] [<- Hin]].
      specialize (H (k, r') Hin). simpl in *.
      destruct (warnings r'); [reflexivity | discriminate].
    - intros H [k r] Hin. rewrite (H r (Hval k r Hin)). reflexivity. }
  split; [reflexivity|]. split; [apply count_status_total|]. split.
  - rewrite HV, HW.
    assert (In trade_can_proceed (recommendations rep)
            <-> calculate_compliance_status cr = OK) as ->.
    { unfold rep, generate_compliance_report. cbn [recommendations]. split.
      - intro H. apply in_app_or in H. destruct H as [H|H].
        { destruct (nonempty _); [|destruct H].
          destruct H as [H|[]]. vm_compute in H. discriminate H. }
        apply in_app_or in H. destruct H as [H|H].
        { destruct (nonempty _); [|destruct H].
          destruct H as [H|[]]. vm_compute in H. discriminate H. }
        destruct (calculate_compliance_status cr); simpl in H;
          [reflexivity | destruct H | destruct H].
      - intro E. rewrite E. apply in_or_app. right. apply in_or_app. right.
        now left. }
    rewrite HO. split.
    + intro H. split; intros r Hin; apply (Hc r Hin), H, Hin.
    + intros [H1 H2] r Hin. apply (Hc r Hin). split; auto.
  - intro Hne. change (calculate_compliance_status cr = BLOCK). apply HB.
    destruct (existsb (fun r => nonempty (violations r)) (Dict.values cr)) eqn:E.
    + apply existsb_exists in E. destruct E as [r [Hin Hr]].
      exists r. split; [exact Hin|]. apply (Hc r Hin).
      destruct (violations r); [discriminate | congruence].
    + exfalso. apply Hne. apply HV. intros r Hin.
      destruct (violations r) eqn:Ev; [reflexivity|].
      assert (existsb (fun r => nonempty (violations r)) (Dict.values cr) = true) as C.
      { apply existsb_exists. exists r. split; [exact Hin|]. now rewrite Ev. }
      congruence.
Qed.

End Compliance.

(** ** Python exceptions as results *)

Module Py.

Inductive exn :=
| ZeroDivisionError
| IndexError
| ValueError (msg : string)
| SolverError (msg : string).

Inductive result (A : Type) :=
| Ok (a : A)
| Raise (e : exn).
Arguments Ok {A} a.
Arguments Raise {A} e.

Definition bind {A B} (r : result A) (f : A -> result B) : result B :=
  match r with
  | Ok a => f a
  | Raise e => Raise e
  end.

End Py.

(** ** Backtest portfolio ([backtester.py], class [Portfolio]) *)

Module Backtester.
Import Num Py.
Local Open Scope Qc_scope.
Local Open Scope list_scope.

Record portfolio := {
  initial_capital : Qc;
  cash : Qc;
  positions : Dict.t Qc;   (* symbol -> shares *)
  total_value : Qc
}.

Record trade := {
  t_symbol : string;
  t_shares : Qc;
  t_price : Qc;
  t_value : Qc;
  t_cost : Qc
}.

Definition init (initial_capital : Qc) : portfolio :=
  {| initial_capital := initial_capital; cash := initial_capital;
     positions := []; total_value := initial_capital |}.

(** The threshold [1e-6] under which a share difference is not traded. *)
Definition tiny : Qc := dec 1 1000000.

(** [current_value]: cash plus the priced positions. *)
Definition current_value (p : portfolio) (prices : Dict.t Qc) : Qc :=
  fold_left (fun acc '(symbol, shares) =>
               match Dict.get prices symbol with
               | Some pr => acc + shares * pr
               | None => acc
               end)
            (positions p) (cash p).

(** The loop that fills [target_positions]; dividing by a zero price
    raises, as Python floats do.  (numpy floats give an infinity or a NaN
    there instead, which this model does not carry: what is proved of a
    rebalance that returns holds of runs without a zero target price.) *)
Fixpoint target_positions_from (cv : Qc) (prices : Dict.t Qc)
    (items : Dict.t Qc) (tp : Dict.t Qc) : result (Dict.t Qc) :=
  match items with
  | [] => Ok tp
  | (symbol, w) :: rest =>
      match Dict.get prices symbol with
      | Some pr =>
          if eqb pr 0 then Raise ZeroDivisionError
          else target_positions_from cv prices rest
                 (Dict.set tp symbol (cv * w / pr))
      | None => target_positions_from cv prices rest tp
      end
  end.

Definition target_positions (cv : Qc) (target_weights prices : Dict.t Qc)
    : result (Dict.t Qc) :=
  target_positions_from cv prices target_weights [].

(** The mutable part of the portfolio during the trade loop, and the
    trades made so far. *)
Record book := {
  b_cash : Qc;
  b_positions : Dict.t Qc;
  b_trades : list trade
}.

(** The body of the trade loop for one symbol. *)
Definition rebalance_symbol (prices target : Dict.t Qc) (transaction_costs : Qc)
    (b : book) (symbol : string) : book :=
  let current_shares := Dict.get_default (b_positions b) symbol 0 in
  let target_shares := Dict.get_default target symbol 0 in
  if gtb (Qcabs (target_shares - current_shares)) tiny then
    let trade_shares := target_shares - current_shares in
    let trade_value := trade_shares * Dict.get_default prices symbol 0 in
    let cash1 :=
      if gtb trade_value 0
      then b_cash b - Qcabs trade_value * transaction_costs
      else b_cash b in
    let positions1 :=
      if eqb target_shares 0 then Dict.pop (b_positions b) symbol
      else Dict.set (b_positions b) symbol target_shares in
    {| b_cash := cash1 - trade_value;
       b_positions := positions1;
       b_trades := b_trades b ++
         [ {| t_symbol := symbol; t_shares := trade_shares;
              t_price := Dict.get_default prices symbol 0;
              t_value := trade_value;
              t_cost := Qcabs trade_value * transaction_costs |} ] |}
  else b.

(** The trade loop over the symbols in a given order. *)
Definition rebalance_over (order : list string) (prices target : Dict.t Qc)
    (transaction_costs : Qc) (b : book) : book :=
  fold_left (rebalance_symbol prices target transaction_costs) order b.

(** [set(list(positions.keys()) + list(target_positions.keys()))]: the
    distinct symbols.  A Python set iterates in an unspecified order; the
    order of first occurrence is taken here, and the lemmas on
    [rebalance_over] hold for every duplicate-free order. *)
Definition symbol_set (positions target : Dict.t Qc) : list string :=
  rev (nodup string_dec (rev (Dict.keys positions ++ Dict.keys target))).

Definition rebalance (p : portfolio) (target_weights prices : Dict.t Qc)
    (transaction_costs : Qc) : result (portfolio * list trade) :=
  let cv := current_value p prices in
  bind (target_positions cv target_weights prices) (fun target =>
    let b := rebalance_over (symbol_set (positions p) target) prices target
               transaction_costs
               {| b_cash := cash p; b_positions := positions p; b_trades := [] |} in
    Ok ({| initial_capital := initial_capital p; cash := b_cash b;
           positions := b_positions b; total_value := total_value p |},
        b_trades b)).

Definition update_value (p : portfolio) (prices : Dict.t Qc) : portfolio :=
  {| initial_capital := initial_capital p; cash := cash p;
     positions := positions p; total_value := current_value p prices |}.

Definition gross_exposure (p : portfolio) : Qc :=
  sum (map Qcabs (Dict.values (positions p))).

Definition net_exposure (p : portfolio) : Qc :=
  sum (Dict.values (positions p)).

Definition apply_borrowing_costs (p : portfolio) (borrow_rate : Qc) : portfolio :=
  if gtb (net_exposure p) 0 then
    {| initial_capital := initial_capital p;
       cash := cash p - net_exposure p * (borrow_rate / dec 252 1);
       positions := positions p; total_value := total_value p |}
  else p.

(** *** Cash accounting of the trade loop *)

(** What the loop takes out of cash for a trade: its value, and its cost
    only when the value is positive. *)
Definition charged (t : trade) : Qc :=
  t_value t + (if gtb (t_value t) 0 then t_cost t else 0).

Lemma rebalance_symbol_cash prices target tc b symbol :
  let b' := rebalance_symbol prices target tc b symbol in
  b_cash b' + sum (map charged (b_trades b'))
  = b_cash b + sum (map charged (b_trades b)).
Proof.
  unfold rebalance_symbol.
  destruct (gtb (Qcabs _) tiny); [|reflexivity].
  cbn [b_cash b_trades]. rewrite map_app, sum_app. cbn [map].
  rewrite sum_cons, sum_nil.
  unfold charged at 2. cbn [t_value t_cost].
  destruct (gtb _ 0); ring.
Qed.

Lemma rebalance_over_cash prices target tc order :
  forall b,
    let b' := rebalance_over order prices target tc b in
    b_cash b' + sum (map charged (b_trades b'))
    = b_cash b + sum (map charged (b_trades b)).
Proof.
  unfold rebalance_over.
  induction order as [|s order IH]; intro b; simpl; [reflexivity|].
  rewrite IH. apply rebalance_symbol_cash.
Qed.

(** Every recorded trade carries the cost [|value| * rate], and is valued
    at the price found in the map, or at 0 when there is none. *)
Definition trade_well_formed (prices : Dict.t Qc) (tc : Qc) (t : trade) : Prop :=
  t_price t = Dict.get_default prices (t_symbol t) 0
  /\ t_value t = t_shares t * t_price t
  /\ t_cost t = Qcabs (t_value t) * tc.

Lemma rebalance_over_trades_wf prices target tc order :
  forall b,
    Forall (trade_well_formed prices tc) (b_trades b) ->
    Forall (trade_well_formed prices tc)
           (b_trades (rebalance_over order prices target tc b)).
Proof.
  unfold rebalance_over.
  induction order as [|s order IH]; intros b H; simpl; [exact H|].
  apply IH. unfold rebalance_symbol.
  destruct (gtb (Qcabs _) tiny); [|exact H].
  cbn [b_trades]. apply Forall_app. split; [exact H|].
  constructor; [|constructor]. repeat split.
Qed.

Lemma rebalance_ok_inv p tw prices tc p' trades :
  rebalance p tw prices tc = Ok (p', trades) ->
  exists target,
    target_positions (current_value p prices) tw prices = Ok target
    /\ rebalance_over (symbol_set (positions p) target) prices target tc
         {| b_cash := cash p; b_positions := positions p; b_trades := [] |}
       = {| b_cash := cash p'; b_positions := positions p'; b_trades := trades |}.
Proof.
  unfold rebalance, bind.
  destruct (target_positions _ tw prices) as [target|e]; [|discriminate].
  intros [= <- <-]. exists target. split; [reflexivity|].
  now destruct (rebalance_over _ _ _ _ _).
Qed.

(** Cash after a rebalance: the starting cash less what each trade took. *)
Lemma rebalance_cash p tw prices tc p' trades :
  rebalance p tw prices tc = Ok (p', trades) ->
  cash p' = cash p - sum (map charged trades).
Proof.
  intro H. apply rebalance_ok_inv in H. destruct H as [target [_ H]].
  pose proof (rebalance_over_cash prices target tc
                (symbol_set (positions p) target)
                {| b_cash := cash p; b_positions := positions p; b_trades := [] |}) as A.
  cbv zeta in A. rewrite H in A. cbn [b_cash b_trades map] in A.
  rewrite sum_nil, Qcplus_0_r in A. rewrite <- A. ring.
Qed.

(** A sale out of a one-position portfolio: 10 shares of A at 100, target
    weight one half, cost rate 10 basis points. *)
Definition sale_portfolio : portfolio :=
  {| initial_capital := dec 1000 1; cash := 0;
     positions := [("A"%string, dec 10 1)]; total_value := dec 1000 1 |}.

(** C2, at the sale: the trade is recorded with value -500 and cost 0.5,
    and cash ends at 500: the cost is not deducted from cash, although
    the record carries it. *)
Theorem sale_cost_not_deducted :
  match rebalance sale_portfolio [("A"%string, dec 1 2)]
          [("A"%string, dec 100 1)] (dec 1 1000) with
  | Ok (p', [t]) =>
      t_shares t = dec (-5) 1 /\ t_value t = dec (-500) 1
      /\ t_cost t = dec 5 10
      /\ cash p' = dec 500 1
      /\ cash p' <> cash sale_portfolio - t_value t - t_cost t
  | _ => False
  end.
Proof.
  vm_compute. repeat split; try (apply Qc_is_canon; reflexivity).
  intro H. apply (f_equal this) in H. discriminate H.
Qed.

(** *** A held symbol that has no price *)

Lemma target_positions_unpriced cv prices s :
  Dict.get prices s = None ->
  forall items tp target,
    target_positions_from cv prices items tp = Ok target ->
    Dict.get tp s = None ->
    Dict.get target s = None.
Proof.
  intros Hs. induction items as [|[symbol w] items IH]; intros tp target; simpl.
  - now intros [= <-].
  - destruct (Dict.get prices symbol) as [pr|] eqn:E.
    + destruct (eqb pr 0); [discriminate|].
      intros H Htp. apply (IH _ _ H).
      rewrite Dict.dict_get_set_other; [exact Htp|].
      intros ->. congruence.
    + apply IH.
Qed.

Lemma target_positions_total cv prices :
  (forall s pr, Dict.get prices s = Some pr -> pr <> 0) ->
  forall items tp, exists target,
    target_positions_from cv prices items tp = Ok target.
Proof.
  intros Hnz. induction items as [|[symbol w] items IH]; intro tp; simpl.
  - now exists tp.
  - destruct (Dict.get prices symbol) as [pr|] eqn:E; [|apply IH].
    destruct (eqb pr 0) eqn:Z; [|apply IH].
    apply eqb_eq in Z. exfalso. exact (Hnz _ _ E Z).
Qed.

(** The trade the loop records for [sh] shares of an unpriced symbol. *)
Definition unpriced_trade (s : string) (sh : Qc) : trade :=
  {| t_symbol := s; t_shares := - sh; t_price := 0; t_value := 0; t_cost := 0 |}.

Lemma rebalance_symbol_unpriced prices target tc b s sh :
  Dict.get prices s = None ->
  Dict.get target s = None ->
  Dict.get (b_positions b) s = Some sh ->
  tiny < Qcabs sh ->
  rebalance_symbol prices target tc b s
  = {| b_cash := b_cash b;
       b_positions := Dict.pop (b_positions b) s;
       b_trades := b_trades b ++ [unpriced_trade s sh] |}.
Proof.
  intros Hp Ht Hb Hsh. unfold rebalance_symbol, Dict.get_default.
  rewrite Hp, Ht, Hb.
  replace (0 - sh) with (- sh) by ring.
  rewrite Qcabs_opp.
  apply gtb_gt in Hsh. rewrite Hsh.
  replace (- sh * 0) with 0 by ring.
  replace (gtb 0 0) with false by reflexivity.
  replace (eqb 0 0) with true by reflexivity.
  rewrite (Qcabs_pos 0) by apply Qcle_refl.
  replace (0 * tc) with 0 by ring.
  replace (b_cash b - 0) with (b_cash b) by ring.
  reflexivity.
Qed.

Lemma rebalance_symbol_other prices target tc b s s' :
  s <> s' ->
  Dict.get (b_positions (rebalance_symbol prices target tc b s')) s
  = Dict.get (b_positions b) s.
Proof.
  intro N. unfold rebalance_symbol.
  destruct (gtb (Qcabs _) tiny); [|reflexivity].
  cbn [b_positions]. destruct (eqb _ 0).
  - now apply Dict.dict_get_pop_other.
  - now apply Dict.dict_get_set_other.
Qed.

Lemma rebalance_symbol_ok prices target tc b s :
  Dict.ok (b_positions b) ->
  Dict.ok (b_positions (rebalance_symbol prices target tc b s)).
Proof.
  intro H. unfold rebalance_symbol.
  destruct (gtb (Qcabs _) tiny); [|exact H].
  cbn [b_positions]. destruct (eqb _ 0).
  - now apply Dict.dict_ok_pop.
  - now apply Dict.dict_ok_set.
Qed.

Lemma rebalance_symbol_trades prices target tc b s t :
  In t (b_trades b) -> In t (b_trades (rebalance_symbol prices target tc b s)).
Proof.
  intro H. unfold rebalance_symbol.
  destruct (gtb (Qcabs _) tiny); [|exact H].
  cbn [b_trades]. apply in_or_app. now left.
Qed.

Lemma rebalance_over_other prices target tc s order :
  ~ In s order ->
  forall b,
    Dict.get (b_positions (rebalance_over order prices target tc b)) s
    = Dict.get (b_positions b) s.
Proof.
  unfold rebalance_over.
  induction order as [|s' order IH]; intros Hn b; simpl; [reflexivity|].
  rewrite IH.
  - apply rebalance_symbol_other. intros ->. apply Hn. now left.
  - intro H. apply Hn. now right.
Qed.

Lemma rebalance_over_ok prices target tc order :
  forall b, Dict.ok (b_positions b) ->
    Dict.ok (b_positions (rebalance_over order prices target tc b)).
Proof.
  unfold rebalance_over.
  induction order as [|s order IH]; intros b H; simpl; [exact H|].
  apply IH. now apply rebalance_symbol_ok.
Qed.

Lemma rebalance_over_trades prices target tc order t :
  forall b, In t (b_trades b) ->
    In t (b_trades (rebalance_over order prices target tc b)).
Proof.
  unfold rebalance_over.
  induction order as [|s order IH]; intros b H; simpl; [exact H|].
  apply IH. now apply rebalance_symbol_trades.
Qed.

(** The loop, in any duplicate-free order that visits [s], drops an
    unpriced position of more than [tiny] shares and logs its trade. *)
Lemma rebalance_over_unpriced prices target tc order b s sh :
  NoDup order -> In s order ->
  Dict.ok (b_positions b) ->
  Dict.get prices s = None ->
  Dict.get target s = None ->
  Dict.get (b_positions b) s = Some sh ->
  tiny < Qcabs sh ->
  let b' := rebalance_over order prices target tc b in
  Dict.get (b_positions b') s = None /\ In (unpriced_trade s sh) (b_trades b').
Proof.
  intros Hnd Hin Hok Hp Ht Hb Hsh.
  apply in_split in Hin. destruct Hin as [l1 [l2 ->]].
  apply NoDup_remove_2 in Hnd.
  assert (~ In s l1) as H1 by (intro H; apply Hnd, in_or_app; now left).
  assert (~ In s l2) as H2 by (intro H; apply Hnd, in_or_app; now right).
  unfold rebalance_over. cbv zeta. rewrite fold_left_app. cbn [fold_left].
  fold (rebalance_over l1 prices target tc b).
  set (b1 := rebalance_over l1 prices target tc b).
  assert (Dict.get (b_positions b1) s = Some sh) as Hb1.
  { unfold b1. now rewrite rebalance_over_other. }
  assert (Dict.ok (b_positions b1)) as Hok1 by now apply rebalance_over_ok.
  rewrite (rebalance_symbol_unpriced prices target tc b1 s sh Hp Ht Hb1 Hsh).
  match goal with
  | |- context [fold_left _ l2 ?b2] =>
      fold (rebalance_over l2 prices target tc b2)
  end.
  split.
  - rewrite rebalance_over_other by exact H2. cbn [b_positions].
    now apply Dict.dict_get_pop_same.
  - apply rebalance_over_trades. cbn [b_trades].
    apply in_or_app. right. now left.
Qed.

Lemma symbol_set_NoDup positions target : NoDup (symbol_set positions target).
Proof. unfold symbol_set. apply NoDup_rev, NoDup_nodup. Qed.

Lemma symbol_set_held (positions target : Dict.t Qc) s sh :
  Dict.get positions s = Some sh -> In s (symbol_set positions target).
Proof.
  intro H. unfold symbol_set. rewrite <- in_rev, nodup_In, <- in_rev.
  apply in_or_app. left. apply Dict.dict_get_In in H.
  change s with (fst (s, sh)). now apply in_map.
Qed.

(** *** Mark-to-market value across a rebalance *)

Definition price_of (prices : Dict.t Qc) (s : string) : Qc :=
  Dict.get_default prices s 0.

(** The priced holdings: an unpriced symbol counts for nothing. *)
Definition holdings_value (positions prices : Dict.t Qc) : Qc :=
  sum (map (fun '(s, sh) => sh * price_of prices s) positions).

(** The cost the loop really takes out of cash for a trade. *)
Definition fee (t : trade) : Qc :=
  if gtb (t_value t) 0 then t_cost t else 0.

Lemma current_value_fold prices (positions : Dict.t Qc) :
  forall c,
    fold_left (fun acc '(symbol, shares) =>
                 match Dict.get prices symbol with
                 | Some pr => acc + shares * pr
                 | None => acc
                 end) positions c
    = c + holdings_value positions prices.
Proof.
  unfold holdings_value.
  induction positions as [|[s sh] positions IH]; intro c; simpl.
  - rewrite sum_nil. ring.
  - rewrite IH, sum_cons. unfold price_of, Dict.get_default.
    destruct (Dict.get prices s); ring.
Qed.

Lemma current_value_holdings p prices :
  current_value p prices = cash p + holdings_value (positions p) prices.
Proof. apply current_value_fold. Qed.

Lemma holdings_value_set prices (d : Dict.t Qc) k v :
  holdings_value (Dict.set d k v) prices
  = holdings_value d prices + (v - Dict.get_default d k 0) * price_of prices k.
Proof.
  unfold holdings_value, Dict.get_default.
  induction d as [|[k0 v0] d IH]; simpl.
  - rewrite sum_cons, sum_nil. ring.
  - destruct (String.eqb k k0) eqn:E; simpl.
    + apply String.eqb_eq in E. subst k0. rewrite !sum_cons. ring.
    + rewrite !sum_cons, IH. ring.
Qed.

Lemma holdings_value_pop prices (d : Dict.t Qc) k :
  holdings_value (Dict.pop d k) prices
  = holdings_value d prices - Dict.get_default d k 0 * price_of prices k.
Proof.
  unfold holdings_value, Dict.get_default.
  induction d as [|[k0 v0] d IH]; simpl.
  - rewrite sum_nil. ring.
  - destruct (String.eqb k k0) eqn:E; simpl.
    + apply String.eqb_eq in E. subst k0. rewrite !sum_cons. ring.
    + rewrite !sum_cons, IH. ring.
Qed.

Lemma rebalance_symbol_value prices target tc b symbol :
  let b' := rebalance_symbol prices target tc b symbol in
  b_cash b' + holdings_value (b_positions b') prices + sum (map fee (b_trades b'))
  = b_cash b + holdings_value (b_positions b) prices + sum (map fee (b_trades b)).
Proof.
  unfold rebalance_symbol.
  destruct (gtb (Qcabs _) tiny); [|reflexivity].
  cbn [b_cash b_trades b_positions]. rewrite map_app, sum_app. cbn [map].
  rewrite sum_cons, sum_nil. unfold fee at 2. cbn [t_value t_cost].
  fold (price_of prices symbol).
  destruct (eqb (Dict.get_default target symbol 0) 0) eqn:Z.
  - apply eqb_eq in Z. rewrite Z, holdings_value_pop.
    destruct (gtb _ 0); ring.
  - rewrite holdings_value_set. destruct (gtb _ 0); ring.
Qed.

Lemma rebalance_over_value prices target tc order :
  forall b,
    let b' := rebalance_over order prices target tc b in
    b_cash b' + holdings_value (b_positions b') prices + sum (map fee (b_trades b'))
    = b_cash b + holdings_value (b_positions b) prices + sum (map fee (b_trades b)).
Proof.
  unfold rebalance_over.
  induction order as [|s order IH]; intro b; simpl; [reflexivity|].
  rewrite IH. apply rebalance_symbol_value.
Qed.

(** Marking to market after a rebalance gives the value before it, at the
    same prices, less the fees taken. *)
Lemma rebalance_value p tw prices tc p' trades :
  rebalance p tw prices tc = Ok (p', trades) ->
  current_value p' prices = current_value p prices - sum (map fee trades).
Proof.
  intro H. apply rebalance_ok_inv in H. destruct H as [target [_ H]].
  pose proof (rebalance_over_value prices target tc
                (symbol_set (positions p) target)
                {| b_cash := cash p; b_positions := positions p; b_trades := [] |}) as A.
  cbv zeta in A. rewrite H in A. cbn [b_cash b_trades b_positions map] in A.
  rewrite sum_nil, Qcplus_0_r in A.
  rewrite !current_value_holdings, <- A. ring.
Qed.

(** Pricing a so far unpriced symbol [s] at [q] adds [sh * q] to the
    holdings when [sh] shares of it are held, and nothing when none is. *)
Lemma holdings_value_priced prices (d : Dict.t Qc) s q :
  Dict.ok d -> Dict.get prices s = None ->
  holdings_value d (Dict.set prices s q)
  = holdings_value d prices + Dict.get_default d s 0 * q.
Proof.
  unfold Dict.ok. rewrite Dict.dict_nodupb_NoDup.
  unfold holdings_value, Dict.get_default. intros Hnd Hs.
  induction d as [|[k v] d IH]; simpl.
  - rewrite sum_nil. ring.
  - inversion Hnd as [|? ? Hk Hd]; subst. rewrite !sum_cons, (IH Hd).
    unfold price_of, Dict.get_default.
    destruct (String.eqb s k) eqn:E.
    + apply String.eqb_eq in E. subst k.
      rewrite Dict.dict_get_set_same, Hs.
      assert (Dict.get d s = None) as -> by now apply Dict.dict_get_None.
      ring.
    + apply String.eqb_neq in E.
      rewrite Dict.dict_get_set_other by congruence. ring.
Qed.

Lemma charged_unpriced prices tc t :
  trade_well_formed prices tc t ->
  Dict.get prices (t_symbol t) = None ->
  charged t = 0.
Proof.
  intros [Hp [Hv _]] Hs. unfold charged.
  unfold Dict.get_default in Hp. rewrite Hs in Hp. rewrite Hv, Hp.
  replace (t_shares t * 0) with 0 by ring.
  replace (gtb 0 0) with false by reflexivity. ring.
Qed.

Lemma charged_filter_unpriced prices tc s trades :
  Dict.get prices s = None ->
  Forall (trade_well_formed prices tc) trades ->
  sum (map charged trades)
  = sum (map charged
           (filter (fun t => negb (String.eqb (t_symbol t) s)) trades)).
Proof.
  intros Hs. induction 1 as [|t trades Ht _ IH]; [reflexivity|].
  cbn [map filter]. rewrite sum_cons, IH.
  destruct (String.eqb (t_symbol t) s) eqn:E; cbn [negb map].
  - apply String.eqb_eq in E. rewrite (charged_unpriced prices tc t Ht).
    + ring.
    + now rewrite E.
  - now rewrite sum_cons.
Qed.

(** C9, as the code has it: a held symbol with more than [1e-6] shares (in
    absolute value) that has no price at the rebalance date is removed
    from the portfolio; its trade is logged at price 0, value 0 and cost
    0, so cash moves by the other symbols' trades alone; no error is
    raised; and marked to market, even at a reference price [q] for the
    symbol, the portfolio is worth [sh * q] less (and the fees of the
    trades). *)
Theorem unpriced_position_dropped :
  forall (p : portfolio) (target_weights prices : Dict.t Qc)
         (transaction_costs : Qc) (s : string) (sh : Qc),
    Dict.ok (positions p) ->
    Dict.get (positions p) s = Some sh ->
    tiny < Qcabs sh ->
    Dict.get prices s = None ->
    (forall s' pr, Dict.get prices s' = Some pr -> pr <> 0) ->
    exists p' trades,
      rebalance p target_weights prices transaction_costs = Ok (p', trades)
      /\ Dict.get (positions p') s = None
      /\ In (unpriced_trade s sh) trades
      /\ cash p' = cash p
           - sum (map charged
                    (filter (fun t => negb (String.eqb (t_symbol t) s)) trades))
      /\ forall q,
           current_value p' (Dict.set prices s q)
           = current_value p (Dict.set prices s q) - sh * q - sum (map fee trades).
Proof.
  intros p tw prices tc s sh Hok Hget Hsh Hs Hnz.
  destruct (target_positions_total (current_value p prices) prices Hnz tw [])
    as [target Ht].
  assert (Dict.get target s = None) as Hts.
  { eapply target_positions_unpriced; [exact Hs | exact Ht | reflexivity]. }
  set (b0 := {| b_cash := cash p; b_positions := positions p; b_trades := [] |}).
  set (b := rebalance_over (symbol_set (positions p) target) prices target tc b0).
  set (p' := {| initial_capital := initial_capital p; cash := b_cash b;
                positions := b_positions b; total_value := total_value p |}).
  assert (rebalance p tw prices tc = Ok (p', b_trades b)) as Hr.
  { unfold rebalance, bind, target_positions. now rewrite Ht. }
  exists p', (b_trades b).
  destruct (rebalance_over_unpriced prices target tc
              (symbol_set (positions p) target) b0 s sh
              (symbol_set_NoDup _ _) (symbol_set_held _ _ _ _ Hget)
              Hok Hs Hts Hget Hsh) as [Hgone Hlog].
  fold b in Hgone, Hlog.
  assert (Forall (trade_well_formed prices tc) (b_trades b)) as Hwf.
  { apply rebalance_over_trades_wf. constructor. }
  assert (Dict.ok (positions p')) as Hok'.
  { apply rebalance_over_ok. exact Hok. }
  split; [exact Hr|]. split; [exact Hgone|]. split; [exact Hlog|]. split.
  - rewrite <- (charged_filter_unpriced prices tc s _ Hs Hwf).
    now apply rebalance_cash with tw prices tc.
  - intro q. rewrite !current_value_holdings.
    rewrite (holdings_value_priced prices (positions p') s q Hok' Hs).
    rewrite (holdings_value_priced prices (positions p) s q Hok Hs).
    unfold Dict.get_default. rewrite Hget.
    replace (Dict.get (positions p') s) with (@None Qc) by (symmetry; exact Hgone).
    pose proof (rebalance_value p tw prices tc p' _ Hr) as V.
    rewrite !current_value_holdings in V.
    replace (cash p' + (holdings_value (positions p') prices + 0 * q))
      with (cash p' + holdings_value (positions p') prices) by ring.
    rewrite V. ring.
Qed.

(** A portfolio holding half a millionth of a share of A. *)
Definition dust_portfolio : portfolio :=
  {| initial_capital := dec 1000 1; cash := dec 1000 1;
     positions := [("A"%string, dec 5 10000000)]; total_value := dec 1000 1 |}.

(** C9 as stated fails: an unpriced holding of at most [1e-6] shares is
    not traded, so it stays in the portfolio. *)
Lemma dust_position_kept :
  ~ (forall (p : portfolio) (target_weights prices : Dict.t Qc)
            (transaction_costs : Qc) (s : string) (sh : Qc),
       Dict.ok (positions p) ->
       Dict.get (positions p) s = Some sh ->
       Dict.get prices s = None ->
       exists p' trades,
         rebalance p target_weights prices transaction_costs = Ok (p', trades)
         /\ Dict.get (positions p') s = None).
Proof.
  intro H.
  destruct (H dust_portfolio [] [] (dec 1 1000) "A"%string (dec 5 10000000)
              eq_refl eq_refl eq_refl) as [p' [trades [Hr Hgone]]].
  vm_compute in Hr. injection Hr as <- _.
  vm_compute in Hgone. discriminate Hgone.
Qed.

Definition two_positions : portfolio :=
  {| initial_capital := dec 1500 1; cash := 0;
     positions := [("A"%string, dec 10 1); ("B"%string, dec 5 1)];
     total_value := dec 1500 1 |}.

Lemma unpriced_position_dropped_witness :
  exists p' trades,
    rebalance two_positions [("B"%string, 1)] [("B"%string, dec 100 1)]
      (dec 1 1000) = Ok (p', trades)
    /\ Dict.get (positions p') "A" = None
    /\ In (unpriced_trade "A" (dec 10 1)) trades
    /\ cash p' = cash two_positions
         - sum (map charged
                  (filter (fun t => negb (String.eqb (t_symbol t) "A")) trades))
    /\ forall q,
         current_value p' (Dict.set [("B"%string, dec 100 1)] "A" q)
         = current_value two_positions (Dict.set [("B"%string, dec 100 1)] "A" q)
           - dec 10 1 * q - sum (map fee trades).
Proof.
  apply (unpriced_position_dropped two_positions [("B"%string, 1)]
           [("B"%string, dec 100 1)] (dec 1 1000) "A"%string (dec 10 1)).
  - reflexivity.
  - reflexivity.
  - apply ltb_lt. vm_compute. reflexivity.
  - reflexivity.
  - intros s' pr. simpl. destruct (String.eqb s' "B"); [|discriminate].
    intros [= <-] E. apply eqb_eq in E. vm_compute in E. discriminate E.
Defined.


(** *** More on [rebalance]: errors, fees, trades, targets *)

(** Only a target symbol priced at zero can stop a rebalance: when the
    target weights name none, it returns, whether or not the symbols held
    or targeted have a price at all. *)
Theorem rebalance_returns_without_zero_price :
  forall (p : portfolio) (target_weights prices : Dict.t Qc)
         (transaction_costs : Qc),
    (forall s w, In (s, w) target_weights -> Dict.get prices s <> Some 0) ->
    exists p' trades,
      rebalance p target_weights prices transaction_costs = Ok (p', trades).
Proof.
  intros p tw prices tc Hnz. unfold rebalance, target_positions.
  assert (forall items tp,
            (forall s w, In (s, w) items -> Dict.get prices s <> Some 0) ->
            exists target,
              target_positions_from (current_value p prices) prices items tp
              = Ok target) as T.
  { induction items as [|[symbol w] items IH]; intros tp H; simpl.
    - now exists tp.
    - destruct (Dict.get prices symbol) as [pr|] eqn:E.
      + destruct (eqb pr 0) eqn:Z.
        * apply eqb_eq in Z. subst pr. exfalso.
          exact (H symbol w (or_introl eq_refl) E).
        * apply IH. intros s' w' Hin. apply (H s' w'). now right.
      + apply IH. intros s' w' Hin. apply (H s' w'). now right. }
  destruct (T tw [] Hnz) as [target ->]. cbn [bind].
  eexists. eexists. reflexivity.
Qed.

Lemma rebalance_returns_without_zero_price_witness :
  exists p' trades,
    rebalance sale_portfolio [("A"%string, 1); ("B"%string, dec 1 2)]
      [("A"%string, dec 100 1)] (dec 1 1000) = Ok (p', trades).
Proof.
  apply (rebalance_returns_without_zero_price sale_portfolio
           [("A"%string, 1); ("B"%string, dec 1 2)]
           [("A"%string, dec 100 1)] (dec 1 1000)).
  intros s w [H|[H|[]]] G; injection H as <- <-; vm_compute in G;
    discriminate G.
Defined.

Lemma fee_nonneg tc t :
  0 <= tc -> t_cost t = Qcabs (t_value t) * tc -> 0 <= fee t.
Proof.
  intros Htc Hc. unfold fee. destruct (gtb (t_value t) 0); [|apply Qcle_refl].
  rewrite Hc. pose proof (Qcabs_nonneg (t_value t)). qc_nra.
Qed.

Lemma sum_nonneg l : Forall (fun x => 0 <= x) l -> 0 <= sum l.
Proof.
  induction 1 as [|x l Hx _ IH]; [rewrite sum_nil; apply Qcle_refl|].
  rewrite sum_cons. qc_lra.
Qed.

Lemma charged_split trades :
  sum (map charged trades) = sum (map t_value trades) + sum (map fee trades).
Proof.
  induction trades as [|t trades IH]; simpl; [rewrite !sum_nil; ring|].
  rewrite !sum_cons, IH. unfold charged, fee. ring.
Qed.

(** A rebalance takes out of cash the value of the trades and the fees of
    the buys, and leaves the portfolio, marked at the same prices, worth
    the fees of the buys less: with a non-negative cost rate it never
    adds value. *)
Theorem rebalance_costs_the_fees :
  forall (p p' : portfolio) (target_weights prices : Dict.t Qc)
         (transaction_costs : Qc) (trades : list trade),
    rebalance p target_weights prices transaction_costs = Ok (p', trades) ->
    cash p' = cash p - sum (map t_value trades) - sum (map fee trades)
    /\ total_value (update_value p' prices)
       = total_value (update_value p prices) - sum (map fee trades)
    /\ (0 <= transaction_costs ->
        total_value (update_value p' prices)
        <= total_value (update_value p prices)).
Proof.
  intros p p' tw prices tc trades H.
  pose proof (rebalance_cash _ _ _ _ _ _ H) as Hc.
  pose proof (rebalance_value _ _ _ _ _ _ H) as Hv.
  rewrite charged_split in Hc.
  split; [rewrite Hc; ring|]. split; [exact Hv|].
  intro Htc. cbn [update_value total_value]. rewrite Hv.
  assert (0 <= sum (map fee trades)) as Hf.
  { apply sum_nonneg. apply Forall_forall. intros x Hx.
    apply in_map_iff in Hx. destruct Hx as [t [<- Ht]].
    apply rebalance_ok_inv in H. destruct H as [target [_ H]].
    pose proof (rebalance_over_trades_wf prices target tc
                  (symbol_set (positions p) target)
                  {| b_cash := cash p; b_positions := positions p; b_trades := [] |}
                  (Forall_nil _)) as Hwf.
    rewrite H in Hwf. cbn [b_trades] in Hwf. rewrite Forall_forall in Hwf.
    destruct (Hwf t Ht) as [_ [_ Hcost]]. now apply (fee_nonneg tc). }
  qc_lra.
Qed.

Definition buy_portfolio : portfolio :=
  {| initial_capital := dec 1000 1; cash := dec 1000 1;
     positions := []; total_value := dec 1000 1 |}.

Definition buy_run : result (portfolio * list trade) :=
  rebalance buy_portfolio [("A"%string, 1)] [("A"%string, dec 100 1)] (dec 1 1000).

Definition buy_outcome : portfolio * list trade :=
  match buy_run with
  | Ok r => r
  | Raise _ => (buy_portfolio, [])
  end.

Lemma rebalance_costs_the_fees_witness :
  let p' := fst buy_outcome in
  let trades := snd buy_outcome in
  let prices := [("A"%string, dec 100 1)] in
  cash p' = cash buy_portfolio - sum (map t_value trades) - sum (map fee trades)
  /\ total_value (update_value p' prices)
     = total_value (update_value buy_portfolio prices) - sum (map fee trades)
  /\ (0 <= dec 1 1000 ->
      total_value (update_value p' prices)
      <= total_value (update_value buy_portfolio prices)).
Proof.
  apply (rebalance_costs_the_fees buy_portfolio (fst buy_outcome)
           [("A"%string, 1)] [("A"%string, dec 100 1)] (dec 1 1000)
           (snd buy_outcome)).
  vm_compute. reflexivity.
Defined.


(** *** Where a rebalance leaves the holdings, and what it logs *)

Lemma target_positions_get cv prices :
  forall items tp target,
    Dict.ok items ->
    target_positions_from cv prices items tp = Ok target ->
    forall s,
      Dict.get target s
      = match Dict.get items s, Dict.get prices s with
        | Some w, Some pr => Some (cv * w / pr)
        | _, _ => Dict.get tp s
        end.
Proof.
  induction items as [|[symbol w] items IH]; intros tp target Hok H s.
  - simpl in H. injection H as <-. reflexivity.
  - apply Dict.dict_nodupb_NoDup in Hok. cbn [Dict.keys map fst] in Hok.
    inversion Hok as [|? ? Hnin Hnd]; subst.
    assert (Dict.ok items) as Hok' by now apply Dict.dict_nodupb_NoDup.
    assert (Dict.get items symbol = None) as Hnone
      by now apply Dict.dict_get_None.
    simpl in H. cbn [Dict.get].
    destruct (String.eqb s symbol) eqn:E.
    + apply String.eqb_eq in E. subst s.
      destruct (Dict.get prices symbol) as [pr|] eqn:P.
      * destruct (eqb pr 0); [discriminate|].
        rewrite (IH _ _ Hok' H symbol), Hnone.
        apply Dict.dict_get_set_same.
      * rewrite (IH _ _ Hok' H symbol), Hnone. reflexivity.
    + apply String.eqb_neq in E.
      destruct (Dict.get prices symbol) as [pr|] eqn:P.
      * destruct (eqb pr 0); [discriminate|].
        rewrite (IH _ _ Hok' H s).
        rewrite Dict.dict_get_set_other by exact E. reflexivity.
      * apply (IH _ _ Hok' H s).
Qed.

Lemma abs_self_tiny x : Qcabs (x - x) <= tiny.
Proof.
  replace (x - x) with 0 by ring.
  rewrite (Qcabs_pos 0) by apply Qcle_refl. qc_eval.
Qed.

Lemma rebalance_symbol_reaches prices target tc b s :
  Dict.ok (b_positions b) ->
  Qcabs (Dict.get_default (b_positions (rebalance_symbol prices target tc b s)) s 0
         - Dict.get_default target s 0) <= tiny.
Proof.
  intro Hok. unfold rebalance_symbol.
  destruct (gtb (Qcabs _) tiny) eqn:G.
  - cbn [b_positions]. destruct (eqb _ 0) eqn:Z.
    + apply eqb_eq in Z. rewrite Z. unfold Dict.get_default at 1.
      rewrite Dict.dict_get_pop_same by exact Hok. apply abs_self_tiny.
    + unfold Dict.get_default at 1. rewrite Dict.dict_get_set_same.
      apply abs_self_tiny.
  - apply ltb_false_le in G. rewrite Qcabs_Qcminus. exact G.
Qed.

Lemma rebalance_over_reaches prices target tc s order :
  forall b,
    Dict.ok (b_positions b) ->
    In s order
    \/ Qcabs (Dict.get_default (b_positions b) s 0
              - Dict.get_default target s 0) <= tiny ->
    Qcabs (Dict.get_default
             (b_positions (rebalance_over order prices target tc b)) s 0
           - Dict.get_default target s 0) <= tiny.
Proof.
  unfold rebalance_over.
  induction order as [|s' order IH]; intros b Hok H; simpl.
  - destruct H as [[]|H]. exact H.
  - apply IH; [now apply rebalance_symbol_ok|].
    destruct (string_dec s s') as [->|N].
    + right. now apply rebalance_symbol_reaches.
    + destruct H as [[E|H]|H]; [congruence | now left | right].
      unfold Dict.get_default at 1.
      rewrite rebalance_symbol_other by exact N. exact H.
Qed.

Lemma symbol_set_In (positions target : Dict.t Qc) s :
  In s (symbol_set positions target)
  <-> In s (Dict.keys positions) \/ In s (Dict.keys target).
Proof.
  unfold symbol_set. rewrite <- in_rev, nodup_In, <- in_rev. apply in_app_iff.
Qed.

(** The shares [rebalance] aims at for a symbol: the portfolio value times
    the weight over the price, and nothing for a symbol without a target
    weight or without a price. *)
Definition desired_shares (cv : Qc) (target_weights prices : Dict.t Qc)
    (s : string) : Qc :=
  match Dict.get target_weights s, Dict.get prices s with
  | Some w, Some pr => cv * w / pr
  | _, _ => 0
  end.

(** After a rebalance every symbol, held before or not, is held within
    1e-6 shares of value times weight over price, and of zero when it has
    no target weight or no price. *)
Theorem rebalance_reaches_targets :
  forall (p p' : portfolio) (target_weights prices : Dict.t Qc)
         (transaction_costs : Qc) (trades : list trade),
    Dict.ok (positions p) ->
    Dict.ok target_weights ->
    rebalance p target_weights prices transaction_costs = Ok (p', trades) ->
    forall s,
      Qcabs (Dict.get_default (positions p') s 0
             - desired_shares (current_value p prices) target_weights prices s)
      <= tiny.
Proof.
  intros p p' tw prices tc trades Hok Htw H s.
  apply rebalance_ok_inv in H. destruct H as [target [Ht H]].
  assert (desired_shares (current_value p prices) tw prices s
          = Dict.get_default target s 0) as ->.
  { unfold desired_shares, Dict.get_default.
    rewrite (target_positions_get _ _ _ _ _ Htw Ht s). cbn [Dict.get].
    destruct (Dict.get tw s); [|reflexivity].
    destruct (Dict.get prices s); reflexivity. }
  pose proof (rebalance_over_reaches prices target tc s
                (symbol_set (positions p) target)
                {| b_cash := cash p; b_positions := positions p; b_trades := [] |}
                Hok) as A.
  rewrite H in A. cbn [b_positions] in A. apply A.
  destruct (in_dec string_dec s (symbol_set (positions p) target)) as [I|N];
    [now left | right].
  rewrite symbol_set_In in N.
  assert (Dict.get (positions p) s = None) as E1
    by (apply Dict.dict_get_None; tauto).
  assert (Dict.get target s = None) as E2
    by (apply Dict.dict_get_None; tauto).
  unfold Dict.get_default. rewrite E1, E2. apply abs_self_tiny.
Qed.

Lemma rebalance_reaches_targets_witness :
  Qcabs (Dict.get_default (positions (fst buy_outcome)) "A" 0
         - desired_shares (current_value buy_portfolio [("A"%string, dec 100 1)])
             [("A"%string, 1)] [("A"%string, dec 100 1)] "A")
  <= tiny.
Proof.
  apply (rebalance_reaches_targets buy_portfolio (fst buy_outcome)
           [("A"%string, 1)] [("A"%string, dec 100 1)] (dec 1 1000)
           (snd buy_outcome)).
  - reflexivity.
  - reflexivity.
  - vm_compute. reflexivity.
Defined.

Lemma rebalance_over_log prices target tc order :
  NoDup order ->
  forall b, exists new,
    b_trades (rebalance_over order prices target tc b) = b_trades b ++ new
    /\ NoDup (map t_symbol new)
    /\ incl (map t_symbol new) order
    /\ Forall (fun t => tiny < Qcabs (t_shares t)) new.
Proof.
  unfold rebalance_over.
  induction order as [|s order IH]; intros Hnd b.
  - exists []. simpl. rewrite app_nil_r.
    repeat split; [constructor | intros x [] | constructor].
  - inversion Hnd as [|? ? Hnin Hnd']; subst.
    simpl. destruct (IH Hnd' (rebalance_symbol prices target tc b s))
      as [new [E [Hn [Hi Hf]]]].
    unfold rebalance_symbol in E |- *.
    destruct (gtb (Qcabs _) tiny) eqn:G.
    + cbn [b_trades] in E. rewrite <- app_assoc in E.
      eexists. split; [exact E|]. cbn [app map t_symbol].
      split; [|split].
      * constructor; [|exact Hn]. intro I. apply Hnin. now apply Hi.
      * intros x [<-|I]; [now left | right; now apply Hi].
      * constructor; [|exact Hf]. cbn [t_shares]. now apply gtb_gt.
    + exists new. split; [exact E|]. split; [exact Hn|]. split; [|exact Hf].
      intros x I. right. now apply Hi.
Qed.

(** A rebalance logs at most one trade per symbol, only for symbols that
    were held or have a target, each of more than 1e-6 shares, valued at
    shares times the price found (0 when the symbol has none), with the
    cost |value| times the rate. *)
Theorem rebalance_trade_log :
  forall (p p' : portfolio) (target_weights prices : Dict.t Qc)
         (transaction_costs : Qc) (trades : list trade),
    rebalance p target_weights prices transaction_costs = Ok (p', trades) ->
    NoDup (map t_symbol trades)
    /\ Forall (fun t =>
         (In (t_symbol t) (Dict.keys (positions p))
          \/ (In (t_symbol t) (Dict.keys target_weights)
              /\ Dict.get prices (t_symbol t) <> None))
         /\ tiny < Qcabs (t_shares t)
         /\ t_price t = Dict.get_default prices (t_symbol t) 0
         /\ t_value t = t_shares t * t_price t
         /\ t_cost t = Qcabs (t_value t) * transaction_costs) trades.
Proof.
  intros p p' tw prices tc trades H.
  apply rebalance_ok_inv in H. destruct H as [target [Ht H]].
  set (b0 := {| b_cash := cash p; b_positions := positions p; b_trades := [] |}).
  fold b0 in H.
  destruct (rebalance_over_log prices target tc _
              (symbol_set_NoDup (positions p) target) b0)
    as [new [E [Hn [Hi Hf]]]].
  rewrite H in E. cbn [b_trades b0 app] in E. subst new.
  pose proof (rebalance_over_trades_wf prices target tc
                (symbol_set (positions p) target) b0 (Forall_nil _)) as Hwf.
  rewrite H in Hwf. cbn [b_trades] in Hwf.
  split; [exact Hn|].
  rewrite Forall_forall in *. intros t I.
  destruct (Hwf t I) as [W1 [W2 W3]].
  split; [|now repeat split; auto].
  assert (In (t_symbol t) (symbol_set (positions p) target)) as Hs
    by (apply Hi; now apply in_map).
  apply symbol_set_In in Hs. destruct Hs as [Hs|Hs]; [now left | right].
  destruct (Dict.get target (t_symbol t)) as [v|] eqn:G;
    [|apply Dict.dict_get_None in G; contradiction].
  clear - Ht G. unfold target_positions in Ht.
  assert (forall items tp,
            target_positions_from (current_value p prices) prices items tp
            = Ok target ->
            Dict.get tp (t_symbol t) = None ->
            In (t_symbol t) (Dict.keys items)
            /\ Dict.get prices (t_symbol t) <> None) as A.
  { induction items as [|[symbol w] items IH]; intros tp H Hn; simpl in H.
    - injection H as ->. congruence.
    - destruct (Dict.get prices symbol) as [pr|] eqn:P.
      + destruct (eqb pr 0); [discriminate|].
        destruct (string_dec (t_symbol t) symbol) as [->|N].
        * split; [now left | congruence].
        * destruct (IH _ H) as [I Hp].
          { rewrite Dict.dict_get_set_other by exact N. exact Hn. }
          split; [now right | exact Hp].
      + destruct (IH _ H Hn) as [I Hp]. split; [now right | exact Hp]. }
  now apply (A tw []).
Qed.

Lemma rebalance_trade_log_witness :
  NoDup (map t_symbol (snd buy_outcome))
  /\ Forall (fun t =>
       (In (t_symbol t) (Dict.keys (positions buy_portfolio))
        \/ (In (t_symbol t) (Dict.keys [("A"%string, 1)])
            /\ Dict.get [("A"%string, dec 100 1)] (t_symbol t) <> None))
       /\ tiny < Qcabs (t_shares t)
       /\ t_price t = Dict.get_default [("A"%string, dec 100 1)] (t_symbol t) 0
       /\ t_value t = t_shares t * t_price t
       /\ t_cost t = Qcabs (t_value t) * dec 1 1000) (snd buy_outcome).
Proof.
  apply (rebalance_trade_log buy_portfolio (fst buy_outcome)
           [("A"%string, 1)] [("A"%string, dec 100 1)] (dec 1 1000)
           (snd buy_outcome)).
  vm_compute. reflexivity.
Defined.


(** *** [BacktestEngine._apply_constraints] *)

(** [np.maximum], [np.minimum] and [np.clip a lo hi], which numpy defines
    as [minimum (maximum a lo) hi]. *)
Definition np_maximum (x y : Qc) : Qc := if ltb x y then y else x.
Definition np_minimum (x y : Qc) : Qc := if ltb y x then y else x.
Definition np_clip (lo hi x : Qc) : Qc := np_minimum (np_maximum x lo) hi.

(** A float divided by the sum: [None] stands for the [nan] or infinity
    that numpy gives when the sum is zero. *)
Definition np_divide (x s : Qc) : option Qc :=
  if eqb s 0 then None else Some (x / s).

Definition apply_constraints (weights : list Qc) (constraints : Dict.t Qc)
    : list (option Qc) :=
  let max_position := Dict.get_default constraints "max_position" (dec 5 100) in
  let weights1 := map (np_clip 0 max_position) weights in
  let total := sum weights1 in
  map (fun w => np_divide w total) weights1.

Lemma sum_div l s : sum (map (fun w => w / s) l) = sum l / s.
Proof.
  induction l as [|x l IH]; simpl.
  - rewrite sum_nil. unfold Qcdiv. ring.
  - rewrite !sum_cons, IH. unfold Qcdiv. ring.
Qed.

Lemma sum_nonpos l : Forall (fun x => x <= 0) l -> sum l <= 0.
Proof.
  induction 1 as [|x l Hx _ IH]; [rewrite sum_nil; apply Qcle_refl|].
  rewrite sum_cons. qc_lra.
Qed.

Lemma part_le_sum l w : Forall (fun x => 0 <= x) l -> In w l -> w <= sum l.
Proof.
  induction 1 as [|x l Hx Hl IH]; intros []; rewrite sum_cons.
  - subst. pose proof (sum_nonneg l Hl). qc_lra.
  - specialize (IH H). qc_lra.
Qed.

Lemma sum_le_part l w : Forall (fun x => x <= 0) l -> In w l -> sum l <= w.
Proof.
  induction 1 as [|x l Hx Hl IH]; intros []; rewrite sum_cons.
  - subst. pose proof (sum_nonpos l Hl). qc_lra.
  - specialize (IH H). qc_lra.
Qed.

Lemma np_clip_cases mp x :
  (0 <= mp -> 0 <= np_clip 0 mp x /\ np_clip 0 mp x <= mp)
  /\ (mp < 0 -> np_clip 0 mp x = mp).
Proof.
  unfold np_clip, np_minimum, np_maximum.
  destruct (ltb x 0) eqn:A.
  - destruct (ltb mp 0) eqn:B.
    + apply ltb_lt in B. split; [intro; qc_lra | reflexivity].
    + apply ltb_false_le in B. split; [intro; split; [apply Qcle_refl | exact B]|].
      intro. qc_lra.
  - apply ltb_false_le in A. destruct (ltb mp x) eqn:B.
    + split; [intro; split; [assumption | apply Qcle_refl] | reflexivity].
    + apply ltb_false_le in B. split; [intro; split; assumption|].
      intro. qc_lra.
Qed.

Lemma quotient_in_unit w s :
  s <> 0 -> (0 <= w /\ w <= s) \/ (s <= w /\ w <= 0) -> 0 <= w / s /\ w / s <= 1.
Proof.
  intros Hs H.
  assert (w / s * s = w) as E by (field; exact Hs).
  set (q := w / s) in *. clearbody q.
  destruct H as [[H1 H2]|[H1 H2]]; split; qc_nra.
Qed.

Lemma apply_constraints_shape (weights : list Qc) (constraints : Dict.t Qc) :
  let max_position := Dict.get_default constraints "max_position" (dec 5 100) in
  sum (map (np_clip 0 max_position) weights) <> 0 ->
  exists ws, apply_constraints weights constraints = map Some ws
             /\ sum ws = 1
             /\ List.length ws = List.length weights
             /\ Forall (fun w => 0 <= w /\ w <= 1) ws.
Proof.
  intros mp NZ. unfold apply_constraints. fold mp.
  set (total := sum (map (np_clip 0 mp) weights)) in *.
  assert (eqb total 0 = false) as E.
  { destruct (eqb total 0) eqn:E; [|reflexivity].
    apply eqb_eq in E. contradiction. }
  exists (map (fun w => w / total) (map (np_clip 0 mp) weights)).
  split; [|split; [|split]].
  - rewrite (map_map (fun w => w / total) Some). apply map_ext.
    intro w. unfold np_divide. now rewrite E.
  - rewrite sum_div. fold total. field. exact NZ.
  - now rewrite !length_map.
  - apply Forall_forall. intros q I.
    apply in_map_iff in I. destruct I as [w [<- I]].
    apply quotient_in_unit; [exact NZ|].
    destruct (Qclt_le_dec mp 0) as [Neg|Pos].
    + right. assert (Forall (fun x => x <= 0) (map (np_clip 0 mp) weights)) as F.
      { apply Forall_forall. intros x Ix. apply in_map_iff in Ix.
        destruct Ix as [y [<- _]].
        rewrite (proj2 (np_clip_cases mp y) Neg). qc_lra. }
      split; [now apply sum_le_part|].
      rewrite Forall_forall in F. now apply F.
    + left. assert (Forall (fun x => 0 <= x) (map (np_clip 0 mp) weights)) as F.
      { apply Forall_forall. intros x Ix. apply in_map_iff in Ix.
        destruct Ix as [y [<- _]].
        now apply (proj1 (np_clip_cases mp y)). }
      split; [|now apply part_le_sum].
      rewrite Forall_forall in F. now apply F.
Qed.

(** [_apply_constraints] returns as many weights as it gets.  When the
    clipped weights sum to zero every result is a quotient by zero;
    otherwise the results are numbers between 0 and 1 that sum to 1. *)
Theorem apply_constraints_normalizes :
  forall (weights : list Qc) (constraints : Dict.t Qc),
    let max_position := Dict.get_default constraints "max_position" (dec 5 100) in
    let total := sum (map (np_clip 0 max_position) weights) in
    let r := apply_constraints weights constraints in
    List.length r = List.length weights
    /\ (total = 0 -> Forall (fun x => x = None) r)
    /\ (total <> 0 ->
        exists ws, r = map Some ws /\ sum ws = 1
                   /\ Forall (fun w => 0 <= w /\ w <= 1) ws).
Proof.
  intros weights constraints mp total r.
  split; [unfold r, apply_constraints; now rewrite !length_map|]. split.
  - intro Z. unfold r, apply_constraints. fold mp. fold total.
    apply Forall_forall. intros x I.
    apply in_map_iff in I. destruct I as [w [<- _]].
    unfold np_divide. rewrite Z. reflexivity.
  - intro NZ.
    destruct (apply_constraints_shape weights constraints NZ)
      as [ws [E [S [_ F]]]].
    exists ws. now repeat split.
Qed.

Lemma sum_over_bound c l :
  of_nat (List.length l) * c < sum l -> exists w, In w l /\ c < w.
Proof.
  induction l as [|x l IH]; simpl List.length.
  - rewrite sum_nil. unfold of_nat. simpl. intro H. exfalso. to_Q.
    change (inject_Z 0) with 0%Q in H. lra.
  - rewrite sum_cons. intro H.
    destruct (Qclt_le_dec c x) as [L|L]; [exists x; split; [now left | exact L]|].
    destruct IH as [w [I Hw]].
    + unfold of_nat in *. rewrite Nat2Z.inj_succ in H. unfold Z.succ in H.
      to_Q. rewrite inject_Z_plus in H. change (inject_Z 1) with 1%Q in H. lra.
    + exists w. split; [now right | exact Hw].
Qed.

(** Normalising after the clip undoes the cap: when the number of weights
    times [max_position] is below 1, some returned weight exceeds
    [max_position]. *)
Theorem apply_constraints_exceeds_cap :
  forall (weights : list Qc) (constraints : Dict.t Qc),
    let max_position := Dict.get_default constraints "max_position" (dec 5 100) in
    sum (map (np_clip 0 max_position) weights) <> 0 ->
    of_nat (List.length weights) * max_position < 1 ->
    exists w, In (Some w) (apply_constraints weights constraints)
              /\ max_position < w.
Proof.
  intros weights constraints mp NZ Few.
  destruct (apply_constraints_shape weights constraints NZ)
    as [ws [E [S [L _]]]].
  rewrite E. destruct (sum_over_bound mp ws) as [w [I Hw]].
  - rewrite L, S. exact Few.
  - exists w. split; [now apply in_map | exact Hw].
Qed.

Lemma apply_constraints_exceeds_cap_witness :
  exists w, In (Some w) (apply_constraints [dec 1 2; dec 1 2] [])
            /\ Dict.get_default [] "max_position" (dec 5 100) < w.
Proof.
  apply (apply_constraints_exceeds_cap [dec 1 2; dec 1 2] []).
  - intro H. apply eqb_eq in H. vm_compute in H. discriminate H.
  - apply ltb_lt. vm_compute. reflexivity.
Defined.

End Backtester.

(** ** Order statistics

    [numpy.percentile] and [pandas.Series.quantile] with their default
    linear interpolation: the data are sorted, the position
    [q * (n - 1)] is split into its floor and its fractional part, and
    the two neighbouring order statistics are interpolated. *)

Module Stats.
Import Num.
Local Open Scope Qc_scope.
Local Open Scope list_scope.

Fixpoint insert (x : Qc) (l : list Qc) : list Qc :=
  match l with
  | [] => [x]
  | y :: l' => if leb x y then x :: l else y :: insert x l'
  end.

Definition sort (l : list Qc) : list Qc := fold_right insert [] l.

Definition floor_nat (x : Qc) : nat := Z.to_nat (Qfloor x).

(** Linear interpolation of the sorted array [a] at the virtual index
    [pos]. *)
Definition lerp_at (a : list Qc) (pos : Qc) : Qc :=
  let lo := floor_nat pos in
  let hi := Nat.min (lo + 1) (List.length a - 1) in
  let gamma := pos - of_nat lo in
  nth lo a 0 + (nth hi a 0 - nth lo a 0) * gamma.

(** The [q]-quantile, [0 <= q <= 1], of a non-empty list. *)
Definition quantile_linear (values : list Qc) (q : Qc) : Qc :=
  lerp_at (sort values) (q * of_nat (List.length values - 1)).

(** [mean] of a non-empty list. *)
Definition mean (l : list Qc) : Qc := sum l / of_nat (List.length l).

(** *** Sorting *)

Lemma insert_perm x l : Permutation (x :: l) (insert x l).
Proof.
  induction l as [|y l IH]; simpl; [reflexivity|].
  destruct (leb x y); [reflexivity|].
  rewrite perm_swap. now constructor.
Qed.

Lemma sort_perm l : Permutation l (sort l).
Proof.
  induction l as [|x l IH]; simpl; [constructor|].
  rewrite <- insert_perm. now constructor.
Qed.

Lemma sort_length l : List.length (sort l) = List.length l.
Proof. symmetry. apply Permutation_length, sort_perm. Qed.

Lemma insert_sorted x l :
  StronglySorted Qcle l -> StronglySorted Qcle (insert x l).
Proof.
  induction 1 as [|y l Hl IH Hy]; simpl; [repeat constructor|].
  destruct (leb x y) eqn:E.
  - apply leb_le in E. constructor; [now constructor|].
    constructor; [exact E|].
    eapply Forall_impl; [|exact Hy]. intros z Hz. now apply Qcle_trans with y.
  - apply leb_false_lt in E. constructor; [exact IH|].
    apply (Permutation_Forall (insert_perm x l)).
    constructor; [now apply Qclt_le_weak | exact Hy].
Qed.

Lemma sort_sorted l : StronglySorted Qcle (sort l).
Proof.
  induction l as [|x l IH]; simpl; [constructor | now apply insert_sorted].
Qed.

Lemma sorted_nth_le a :
  StronglySorted Qcle a ->
  forall i j, (i <= j)%nat -> (j < List.length a)%nat -> nth i a 0 <= nth j a 0.
Proof.
  induction 1 as [|x a Ha IH Hx]; intros i j Hij Hj; simpl in Hj; [lia|].
  destruct i as [|i], j as [|j]; simpl.
  - apply Qcle_refl.
  - rewrite Forall_forall in Hx. apply Hx, nth_In. lia.
  - lia.
  - apply IH; lia.
Qed.

(** A list has one sorted arrangement only. *)
Lemma sorted_unique l1 :
  forall l2, StronglySorted Qcle l1 -> StronglySorted Qcle l2 ->
             Permutation l1 l2 -> l1 = l2.
Proof.
  induction l1 as [|x l1 IH]; intros l2 H1 H2 P.
  - apply Permutation_nil in P. now subst.
  - destruct l2 as [|y l2].
    { apply Permutation_sym, Permutation_nil in P. discriminate. }
    inversion H1 as [|? ? S1 F1]; subst. inversion H2 as [|? ? S2 F2]; subst.
    rewrite Forall_forall in F1, F2.
    assert (x = y) as ->.
    { apply Qcle_antisym.
      - assert (In y (x :: l1)) as Hy
          by (apply (Permutation_in _ (Permutation_sym P)); now left).
        destruct Hy as [->|Hy]; [apply Qcle_refl | now apply F1].
      - assert (In x (y :: l2)) as Hx
          by (apply (Permutation_in _ P); now left).
        destruct Hx as [->|Hx]; [apply Qcle_refl | now apply F2]. }
    f_equal. apply IH; try assumption.
    now apply Permutation_cons_inv with y.
Qed.

Lemma map_sorted (f : Qc -> Qc) l :
  (forall x y, x <= y -> f x <= f y) ->
  StronglySorted Qcle l -> StronglySorted Qcle (map f l).
Proof.
  intros Hf. induction 1 as [|x l Hl IH Hx]; simpl; constructor; [exact IH|].
  rewrite Forall_forall in *. intros z Hz.
  apply in_map_iff in Hz. destruct Hz as [u [<- Hu]]. now apply Hf, Hx.
Qed.

(** Sorting commutes with a monotone map. *)
Lemma sort_map_monotone (f : Qc -> Qc) l :
  (forall x y, x <= y -> f x <= f y) ->
  sort (map f l) = map f (sort l).
Proof.
  intro Hf. apply sorted_unique.
  - apply sort_sorted.
  - apply map_sorted; [exact Hf | apply sort_sorted].
  - rewrite <- sort_perm. apply Permutation_map, sort_perm.
Qed.

(** *** Positions and interpolation *)

Lemma of_nat_nonneg n : 0 <= of_nat n.
Proof.
  unfold of_nat. to_Q. change 0%Q with (inject_Z 0).
  rewrite <- Zle_Qle. lia.
Qed.

Lemma of_nat_le n m : (n <= m)%nat -> of_nat n <= of_nat m.
Proof. intro H. unfold of_nat. to_Q. rewrite <- Zle_Qle. lia. Qed.

Lemma floor_nat_of_nat k : floor_nat (of_nat k) = k.
Proof.
  unfold floor_nat, of_nat.
  rewrite (Qfloor_comp _ _ (this_of_Z (Z.of_nat k))), Qfloor_Z.
  apply Nat2Z.id.
Qed.

Lemma floor_nat_spec pos n :
  0 <= pos -> pos <= of_nat n ->
  (floor_nat pos <= n)%nat /\ of_nat (floor_nat pos) <= pos.
Proof.
  intros H0 Hn. unfold floor_nat.
  assert (0 <= Qfloor pos)%Z as Hf.
  { change 0%Z with (Qfloor 0). apply Qfloor_resp_le. exact H0. }
  split.
  - assert (Qfloor pos <= Z.of_nat n)%Z.
    { rewrite <- (Qfloor_Z (Z.of_nat n)). apply Qfloor_resp_le.
      unfold of_nat in Hn. to_Q. exact Hn. }
    lia.
  - unfold of_nat. rewrite Z2Nat.id by exact Hf. to_Q. apply Qfloor_le.
Qed.

Lemma lerp_at_integral a k : lerp_at a (of_nat k) = nth k a 0.
Proof. unfold lerp_at. rewrite floor_nat_of_nat. ring. Qed.

Lemma lerp_at_lower a pos :
  StronglySorted Qcle a -> a <> [] ->
  0 <= pos -> pos <= of_nat (List.length a - 1) ->
  (floor_nat pos < List.length a)%nat
  /\ nth (floor_nat pos) a 0 <= lerp_at a pos.
Proof.
  intros Hs Hne H0 Hn.
  destruct (floor_nat_spec pos _ H0 Hn) as [Hlo Hg].
  assert (List.length a <> 0)%nat as Hlen by (destruct a; simpl; congruence).
  split; [lia|].
  unfold lerp_at.
  set (lo := floor_nat pos) in *.
  set (hi := Nat.min (lo + 1) (List.length a - 1)).
  assert (nth lo a 0 <= nth hi a 0) as Hle.
  { apply sorted_nth_le; [exact Hs | unfold hi; lia | unfold hi; lia]. }
  qc_nra.
Qed.

Lemma quantile_linear_lower values q :
  values <> [] -> 0 <= q -> q <= 1 ->
  exists x, In x values /\ x <= quantile_linear values q.
Proof.
  intros Hne H0 H1. unfold quantile_linear.
  assert (sort values <> []) as Hne'.
  { intro E. apply Hne. apply Permutation_nil.
    rewrite <- E. apply Permutation_sym, sort_perm. }
  pose proof (of_nat_nonneg (List.length values - 1)) as Hn.
  destruct (lerp_at_lower (sort values) (q * of_nat (List.length values - 1)))
    as [Hlt Hle].
  - apply sort_sorted.
  - exact Hne'.
  - qc_nra.
  - rewrite sort_length. qc_nra.
  - exists (nth (floor_nat (q * of_nat (List.length values - 1))) (sort values) 0).
    split; [|exact Hle].
    apply (Permutation_in _ (Permutation_sym (sort_perm values))).
    now apply nth_In.
Qed.

(** The mean of a non-empty list of values that are all at most [t] is at
    most [t]. *)
Lemma sum_le_bound t l :
  Forall (fun x => x <= t) l -> sum l <= of_nat (List.length l) * t.
Proof.
  induction 1 as [|x l Hx _ IH]; simpl List.length.
  - rewrite sum_nil. unfold of_nat. simpl. to_Q.
    change (inject_Z 0) with 0%Q. lra.
  - rewrite sum_cons. unfold of_nat in *.
    rewrite Nat2Z.inj_succ. unfold Z.succ. to_Q.
    rewrite inject_Z_plus. change (inject_Z 1) with 1%Q. lra.
Qed.

Lemma mean_le_bound t l :
  l <> [] -> Forall (fun x => x <= t) l -> mean l <= t.
Proof.
  intros Hne Hall. unfold mean.
  pose proof (sum_le_bound t l Hall) as Hs.
  assert (0 < of_nat (List.length l)) as Hpos.
  { destruct l as [|x l]; [congruence|]. simpl List.length.
    unfold of_nat. to_Q. change 0%Q with (inject_Z 0).
    rewrite <- Zlt_Qlt. lia. }
  apply Qcmult_lt_0_le_reg_r with (of_nat (List.length l)); [exact Hpos|].
  unfold Qcdiv. rewrite <- Qcmult_assoc, Qcmult_inv_l, Qcmult_1_r.
  - now rewrite Qcmult_comm.
  - intro E. rewrite E in Hpos. exact (Qclt_not_le _ _ Hpos (Qcle_refl 0)).
Qed.


(** *** Interpolation stays between its neighbours and grows with the index *)

Lemma floor_nat_upper pos : 0 <= pos -> pos < of_nat (floor_nat pos) + 1.
Proof.
  intro H0. unfold floor_nat, of_nat.
  assert (0 <= Qfloor pos)%Z as Hf.
  { change 0%Z with (Qfloor 0). apply Qfloor_resp_le. exact H0. }
  rewrite Z2Nat.id by exact Hf. to_Q.
  pose proof (Qlt_floor pos) as L. rewrite inject_Z_plus in L.
  change (inject_Z 1) with 1%Q in L. exact L.
Qed.

Lemma floor_nat_mono p1 p2 :
  0 <= p1 -> p1 <= p2 -> (floor_nat p1 <= floor_nat p2)%nat.
Proof.
  intros H0 H. unfold floor_nat. apply Z2Nat.inj_le.
  - change 0%Z with (Qfloor 0). apply Qfloor_resp_le. exact H0.
  - assert (0 <= p2) as H2 by (apply Qcle_trans with p1; assumption).
    change 0%Z with (Qfloor 0). apply Qfloor_resp_le. exact H2.
  - apply Qfloor_resp_le. exact H.
Qed.

Lemma lerp_at_between a pos :
  StronglySorted Qcle a -> a <> [] ->
  0 <= pos -> pos <= of_nat (List.length a - 1) ->
  let lo := floor_nat pos in
  let hi := Nat.min (lo + 1) (List.length a - 1) in
  (hi < List.length a)%nat
  /\ nth lo a 0 <= lerp_at a pos /\ lerp_at a pos <= nth hi a 0.
Proof.
  intros Hs Hne H0 Hn lo hi.
  destruct (floor_nat_spec pos _ H0 Hn) as [Hlo Hg].
  pose proof (floor_nat_upper pos H0) as Hu.
  assert (List.length a <> 0)%nat as Hlen by (destruct a; simpl; congruence).
  assert (hi < List.length a)%nat as Hhi by (unfold hi; lia).
  split; [exact Hhi|].
  unfold lerp_at. fold lo. fold hi. fold lo in Hg, Hu.
  assert (nth lo a 0 <= nth hi a 0) as Hle.
  { apply sorted_nth_le; [exact Hs | unfold hi; lia | exact Hhi]. }
  split; qc_nra.
Qed.

Lemma lerp_at_mono a p1 p2 :
  StronglySorted Qcle a -> a <> [] ->
  0 <= p1 -> p1 <= p2 -> p2 <= of_nat (List.length a - 1) ->
  lerp_at a p1 <= lerp_at a p2.
Proof.
  intros Hs Hne H0 H12 Hn.
  assert (0 <= p2) as H02 by (apply Qcle_trans with p1; assumption).
  assert (p1 <= of_nat (List.length a - 1)) as Hn1
    by (apply Qcle_trans with p2; assumption).
  pose proof (floor_nat_mono p1 p2 H0 H12) as Hf.
  destruct (lerp_at_between a p1 Hs Hne H0 Hn1) as [Hh1 [_ U1]].
  destruct (lerp_at_between a p2 Hs Hne H02 Hn) as [Hh2 [L2 _]].
  destruct (floor_nat_spec p2 _ H02 Hn) as [Hlo2 Hg2].
  destruct (Nat.eq_dec (floor_nat p1) (floor_nat p2)) as [E|N].
  - unfold lerp_at. rewrite <- E.
    set (lo := floor_nat p1) in *.
    set (hi := Nat.min (lo + 1) (List.length a - 1)) in *.
    assert (nth lo a 0 <= nth hi a 0) as Hle.
    { apply sorted_nth_le; [exact Hs | unfold hi; lia | exact Hh1]. }
    qc_nra.
  - apply Qcle_trans with (nth (Nat.min (floor_nat p1 + 1) (List.length a - 1)) a 0);
      [exact U1|].
    apply Qcle_trans with (nth (floor_nat p2) a 0); [|exact L2].
    apply sorted_nth_le; [exact Hs | lia | lia].
Qed.

Lemma sort_nonempty values : values <> [] -> sort values <> [].
Proof.
  intros Hne E. apply Hne. apply Permutation_nil.
  rewrite <- E. apply Permutation_sym, sort_perm.
Qed.

Lemma quantile_linear_upper values q :
  values <> [] -> 0 <= q -> q <= 1 ->
  exists x, In x values /\ quantile_linear values q <= x.
Proof.
  intros Hne H0 H1. unfold quantile_linear.
  pose proof (of_nat_nonneg (List.length values - 1)) as Hn.
  destruct (lerp_at_between (sort values) (q * of_nat (List.length values - 1)))
    as [Hlt [_ Hle]].
  - apply sort_sorted.
  - now apply sort_nonempty.
  - qc_nra.
  - rewrite sort_length. qc_nra.
  - eexists. split; [|exact Hle].
    apply (Permutation_in _ (Permutation_sym (sort_perm values))).
    now apply nth_In.
Qed.

Lemma quantile_linear_mono values q1 q2 :
  values <> [] -> 0 <= q1 -> q1 <= q2 -> q2 <= 1 ->
  quantile_linear values q1 <= quantile_linear values q2.
Proof.
  intros Hne H0 H12 H1. unfold quantile_linear.
  pose proof (of_nat_nonneg (List.length values - 1)) as Hn.
  apply lerp_at_mono.
  - apply sort_sorted.
  - now apply sort_nonempty.
  - qc_nra.
  - qc_nra.
  - rewrite sort_length. qc_nra.
Qed.

(** The mean of a non-empty list of values that are all at least [t] is at
    least [t]. *)
Lemma sum_ge_bound t l :
  Forall (fun x => t <= x) l -> of_nat (List.length l) * t <= sum l.
Proof.
  induction 1 as [|x l Hx _ IH]; simpl List.length.
  - rewrite sum_nil. unfold of_nat. simpl. to_Q.
    change (inject_Z 0) with 0%Q. lra.
  - rewrite sum_cons. unfold of_nat in *.
    rewrite Nat2Z.inj_succ. unfold Z.succ. to_Q.
    rewrite inject_Z_plus. change (inject_Z 1) with 1%Q. lra.
Qed.

Lemma mean_ge_bound t l :
  l <> [] -> Forall (fun x => t <= x) l -> t <= mean l.
Proof.
  intros Hne Hall. unfold mean.
  assert (0 < of_nat (List.length l)) as Hpos.
  { destruct l; [congruence|]. simpl List.length.
    unfold of_nat. to_Q. change 0%Q with (inject_Z 0).
    rewrite <- Zlt_Qlt. lia. }
  pose proof (sum_ge_bound t l Hall) as S.
  assert (sum l / of_nat (List.length l) * of_nat (List.length l) = sum l) as E.
  { field. intro Z. rewrite Z in Hpos.
    exact (Qclt_not_le _ _ Hpos (Qcle_refl 0)). }
  set (m := sum l / of_nat (List.length l)) in *. clearbody m.
  set (n := of_nat (List.length l)) in *. clearbody n.
  qc_nra.
Qed.

End Stats.

(** ** Risk engine ([risk_engine.py]): historical VaR and ES *)

Module Risk.
Import Num Py Stats.
Local Open Scope Qc_scope.
Local Open Scope list_scope.

Definition hundred : Qc := dec 100 1.

(** [np.percentile(a, q)] with [q] in percent. *)
Definition percentile (a : list Qc) (q : Qc) : result Qc :=
  if ltb q 0 || gtb q hundred
  then Raise (ValueError "Percentiles must be in the range [0, 100]")
  else match a with
       | [] => Raise IndexError
       | _ => Ok (quantile_linear a (q / hundred))
       end.

Definition calculate_var_historical (returns : list Qc) (confidence : Qc)
    : result Qc :=
  percentile returns ((1 - confidence) * hundred).

(** The mean of the tail is NaN ([None]) when the tail is empty. *)
Definition calculate_es_historical (returns : list Qc) (confidence : Qc)
    : result (option Qc) :=
  bind (percentile returns ((1 - confidence) * hundred)) (fun var_threshold =>
    let tail_returns := filter (fun r => leb r var_threshold) returns in
    Ok (match tail_returns with
        | [] => None
        | _ => Some (mean tail_returns)
        end)).

Lemma percentile_lower a q :
  a <> [] -> 0 <= q -> q <= hundred ->
  exists v x, percentile a q = Ok v /\ In x a /\ x <= v.
Proof.
  intros Hne H0 H1. unfold percentile.
  assert (ltb q 0 = false) as -> by now apply ltb_false_le.
  assert (gtb q hundred = false) as -> by now apply ltb_false_le.
  simpl.
  assert (q / hundred = q * dec 1 100) as E.
  { unfold Qcdiv. f_equal. }
  destruct (quantile_linear_lower a (q / hundred) Hne) as [x [Hx Hle]].
  - rewrite E. unfold hundred in H1. qc_lra.
  - rewrite E. unfold hundred in H1. qc_lra.
  - destruct a as [|y a]; [congruence|].
    exists (quantile_linear (y :: a) (q / hundred)), x. auto.
Qed.

(** For any confidence level in [0, 1] and any non-empty series, the
    historical ES is a number and is at most the historical VaR. *)
Lemma es_le_var returns confidence :
  returns <> [] -> 0 <= confidence -> confidence <= 1 ->
  exists v e,
    calculate_var_historical returns confidence = Ok v
    /\ calculate_es_historical returns confidence = Ok (Some e)
    /\ e <= v.
Proof.
  intros Hne H0 H1.
  destruct (percentile_lower returns ((1 - confidence) * hundred) Hne)
    as [v [x [Hv [Hx Hle]]]].
  - unfold hundred. qc_lra.
  - unfold hundred. qc_lra.
  - unfold calculate_var_historical, calculate_es_historical.
    rewrite Hv. simpl.
    set (tail := filter (fun r => leb r v) returns).
    assert (In x tail) as Hin.
    { apply filter_In. split; [exact Hx | now apply leb_le]. }
    assert (tail <> []) as Htail by (intro E; rewrite E in Hin; destruct Hin).
    exists v, (mean tail). split; [reflexivity|]. split.
    + destruct tail; [congruence | reflexivity].
    + apply mean_le_bound; [exact Htail|].
      apply Forall_forall. intros r Hr.
      apply filter_In in Hr. now apply leb_le.
Qed.

(** C4, as the code has it: on a return series with more than one
    distinct value, the historical ES at confidence 0.95 (the mean of the
    returns at or below the 5th percentile) is at most the historical VaR
    (that percentile): the inequality of the claim, reversed. *)
Theorem historical_es_le_var :
  forall returns : list Qc,
    (exists x y, In x returns /\ In y returns /\ x <> y) ->
    exists v e,
      calculate_var_historical returns (dec 95 100) = Ok v
      /\ calculate_es_historical returns (dec 95 100) = Ok (Some e)
      /\ e <= v.
Proof.
  intros returns [x [_ [Hx _]]].
  apply es_le_var.
  - intro E. rewrite E in Hx. destruct Hx.
  - apply leb_le. vm_compute. reflexivity.
  - apply leb_le. vm_compute. reflexivity.
Qed.

(** Two daily returns, -10% and +2%. *)
Definition two_returns : list Qc := [dec (-10) 100; dec 2 100].

Example two_returns_var :
  calculate_var_historical two_returns (dec 95 100) = Ok (dec (-94) 1000).
Proof. vm_compute. f_equal. apply Qc_is_canon. reflexivity. Qed.

Example two_returns_es :
  calculate_es_historical two_returns (dec 95 100) = Ok (Some (dec (-10) 100)).
Proof. vm_compute. do 2 f_equal. apply Qc_is_canon. reflexivity. Qed.

(** C4 as stated fails: on the two returns the VaR is -0.094 and the ES
    is -0.10, so VaR <= ES does not hold. *)
Lemma var_le_es_fails :
  ~ (forall returns : list Qc,
       (exists x y, In x returns /\ In y returns /\ x <> y) ->
       forall v e,
         calculate_var_historical returns (dec 95 100) = Ok v ->
         calculate_es_historical returns (dec 95 100) = Ok (Some e) ->
         v <= e).
Proof.
  intro H.
  assert (dec (-94) 1000 <= dec (-10) 100) as C.
  { apply (H two_returns).
    - exists (dec (-10) 100), (dec 2 100). repeat split.
      + now left.
      + right. now left.
      + intro E. apply eqb_eq in E. vm_compute in E. discriminate E.
    - exact two_returns_var.
    - exact two_returns_es. }
  apply leb_le in C. vm_compute in C. discriminate C.
Qed.

Lemma historical_es_le_var_witness :
  exists v e,
    calculate_var_historical two_returns (dec 95 100) = Ok v
    /\ calculate_es_historical two_returns (dec 95 100) = Ok (Some e)
    /\ e <= v.
Proof.
  apply (historical_es_le_var two_returns).
  exists (dec (-10) 100), (dec 2 100). repeat split.
  - now left.
  - right. now left.
  - intro E. apply eqb_eq in E. vm_compute in E. discriminate E.
Defined.


(** *** VaR and ES across confidence levels, and the statistics table *)

Lemma percentile_ok a q :
  a <> [] -> 0 <= q -> q <= hundred ->
  percentile a q = Ok (quantile_linear a (q / hundred)).
Proof.
  intros Hne H0 H1. unfold percentile.
  assert (ltb q 0 = false) as -> by now apply ltb_false_le.
  assert (gtb q hundred = false) as -> by now apply ltb_false_le.
  simpl. destruct a; [congruence | reflexivity].
Qed.

Lemma over_hundred q : q / hundred = q * dec 1 100.
Proof. unfold Qcdiv. f_equal. Qed.

(** The mean of the returns at or below a threshold that some return
    does not exceed. *)
Lemma tail_mean_bounds returns v m :
  (exists x, In x returns /\ x <= v) ->
  (forall x, In x returns -> m <= x) ->
  exists e,
    match filter (fun r => leb r v) returns with
    | [] => None
    | _ :: _ => Some (mean (filter (fun r => leb r v) returns))
    end = Some e
    /\ m <= e /\ e <= v.
Proof.
  intros [x [Hx Hle]] Hm.
  set (tail := filter (fun r => leb r v) returns).
  assert (In x tail) as Hin.
  { apply filter_In. split; [exact Hx | now apply leb_le]. }
  assert (tail <> []) as Htail by (intro E; rewrite E in Hin; destruct Hin).
  exists (mean tail). split; [destruct tail; [congruence | reflexivity]|].
  split.
  - apply mean_ge_bound; [exact Htail|].
    apply Forall_forall. intros r Hr. apply filter_In in Hr. now apply Hm.
  - apply mean_le_bound; [exact Htail|].
    apply Forall_forall. intros r Hr. apply filter_In in Hr. now apply leb_le.
Qed.

(** A higher confidence level never gives a higher historical VaR. *)
Theorem var_monotone_in_confidence :
  forall (returns : list Qc) (c1 c2 : Qc),
    returns <> [] -> 0 <= c1 -> c1 <= c2 -> c2 <= 1 ->
    exists v1 v2,
      calculate_var_historical returns c1 = Ok v1
      /\ calculate_var_historical returns c2 = Ok v2
      /\ v2 <= v1.
Proof.
  intros returns c1 c2 Hne H0 H12 H1.
  unfold calculate_var_historical.
  rewrite !percentile_ok by (try exact Hne; unfold hundred; qc_lra).
  do 2 eexists. split; [reflexivity|]. split; [reflexivity|].
  rewrite !over_hundred.
  apply quantile_linear_mono; [exact Hne | | | ]; unfold hundred; qc_lra.
Qed.

Lemma var_monotone_in_confidence_witness :
  exists v1 v2,
    calculate_var_historical two_returns (dec 95 100) = Ok v1
    /\ calculate_var_historical two_returns (dec 99 100) = Ok v2
    /\ v2 <= v1.
Proof.
  apply (var_monotone_in_confidence two_returns (dec 95 100) (dec 99 100)).
  - discriminate.
  - apply leb_le. vm_compute. reflexivity.
  - apply leb_le. vm_compute. reflexivity.
  - apply leb_le. vm_compute. reflexivity.
Defined.

(** At any confidence level in [0, 1] the historical VaR and ES of a
    non-empty series are numbers that lie within any bounds of the
    returns, the ES below the VaR. *)
Theorem var_es_within_bounds :
  forall (returns : list Qc) (confidence m M : Qc),
    returns <> [] -> 0 <= confidence -> confidence <= 1 ->
    (forall x, In x returns -> m <= x /\ x <= M) ->
    exists v e,
      calculate_var_historical returns confidence = Ok v
      /\ calculate_es_historical returns confidence = Ok (Some e)
      /\ m <= e /\ e <= v /\ v <= M.
Proof.
  intros returns c m M Hne H0 H1 Hb.
  unfold calculate_var_historical, calculate_es_historical.
  rewrite !percentile_ok by (try exact Hne; unfold hundred; qc_lra).
  rewrite over_hundred.
  set (v := quantile_linear returns ((1 - c) * hundred * dec 1 100)).
  destruct (quantile_linear_lower returns ((1 - c) * hundred * dec 1 100) Hne)
    as [x [Hx Hxl]]; [unfold hundred; qc_lra | unfold hundred; qc_lra |].
  destruct (quantile_linear_upper returns ((1 - c) * hundred * dec 1 100) Hne)
    as [y [Hy Hyl]]; [unfold hundred; qc_lra | unfold hundred; qc_lra |].
  fold v in Hxl, Hyl.
  destruct (tail_mean_bounds returns v m) as [e [He [Hme Hev]]].
  - now exists x.
  - intros z Hz. now apply Hb.
  - exists v, e. split; [reflexivity|]. split.
    + cbn [bind]. rewrite <- He.
      destruct (filter (fun r => leb r v) returns); reflexivity.
    + split; [exact Hme|]. split; [exact Hev|].
      apply Qcle_trans with y; [exact Hyl | now apply Hb].
Qed.

Lemma var_es_within_bounds_witness :
  exists v e,
    calculate_var_historical two_returns (dec 95 100) = Ok v
    /\ calculate_es_historical two_returns (dec 95 100) = Ok (Some e)
    /\ dec (-10) 100 <= e /\ e <= v /\ v <= dec 2 100.
Proof.
  apply (var_es_within_bounds two_returns (dec 95 100) (dec (-10) 100) (dec 2 100)).
  - discriminate.
  - apply leb_le. vm_compute. reflexivity.
  - apply leb_le. vm_compute. reflexivity.
  - intros x [<-|[<-|[]]]; split; apply leb_le; vm_compute; reflexivity.
Defined.


(** *** [calculate_portfolio_stats]: the order statistics of the table *)

(** [Series.min] and [Series.max]: NaN ([None]) on an empty series. *)
Definition series_min (l : list Qc) : option Qc :=
  match l with
  | [] => None
  | x :: l' => Some (fold_left (fun a y => if ltb y a then y else a) l' x)
  end.

Definition series_max (l : list Qc) : option Qc :=
  match l with
  | [] => None
  | x :: l' => Some (fold_left (fun a y => if ltb a y then y else a) l' x)
  end.

(** [returns[returns <= threshold].mean()] *)
Definition tail_mean (returns : list Qc) (threshold : Qc) : option Qc :=
  match filter (fun r => leb r threshold) returns with
  | [] => None
  | _ :: _ => Some (mean (filter (fun r => leb r threshold) returns))
  end.

(** The entries of the table that are order statistics; the moments
    (mean, volatility, skewness, kurtosis) are left out. *)
Record portfolio_stats := {
  min_return : option Qc;
  max_return : option Qc;
  var_95 : Qc;
  var_99 : Qc;
  es_95 : option Qc;
  es_99 : option Qc
}.

Definition calculate_portfolio_stats (returns : list Qc) : result portfolio_stats :=
  bind (percentile returns (dec 5 1)) (fun v95 =>
  bind (percentile returns (dec 1 1)) (fun v99 =>
  bind (percentile returns (dec 5 1)) (fun t95 =>
  bind (percentile returns (dec 1 1)) (fun t99 =>
    Ok {| min_return := series_min returns;
          max_return := series_max returns;
          var_95 := v95;
          var_99 := v99;
          es_95 := tail_mean returns t95;
          es_99 := tail_mean returns t99 |})))).

Lemma fold_min_spec l :
  forall a,
    let m := fold_left (fun a y => if ltb y a then y else a) l a in
    (m = a \/ In m l) /\ m <= a /\ forall x, In x l -> m <= x.
Proof.
  induction l as [|y l IH]; intro a; simpl.
  - split; [now left|]. split; [apply Qcle_refl | intros x []].
  - destruct (IH (if ltb y a then y else a)) as [Hin [Hle Hall]].
    destruct (ltb y a) eqn:E.
    + apply ltb_lt in E. split; [|split].
      * destruct Hin as [->|Hin]; right; [now left | now right].
      * qc_lra.
      * intros x [<-|Hx]; [exact Hle | now apply Hall].
    + apply ltb_false_le in E. split; [|split].
      * destruct Hin as [Hin|Hin]; [now left | right; now right].
      * exact Hle.
      * intros x [<-|Hx]; [qc_lra | now apply Hall].
Qed.

Lemma fold_max_spec l :
  forall a,
    let m := fold_left (fun a y => if ltb a y then y else a) l a in
    (m = a \/ In m l) /\ a <= m /\ forall x, In x l -> x <= m.
Proof.
  induction l as [|y l IH]; intro a; simpl.
  - split; [now left|]. split; [apply Qcle_refl | intros x []].
  - destruct (IH (if ltb a y then y else a)) as [Hin [Hle Hall]].
    destruct (ltb a y) eqn:E.
    + apply ltb_lt in E. split; [|split].
      * destruct Hin as [->|Hin]; right; [now left | now right].
      * qc_lra.
      * intros x [<-|Hx]; [exact Hle | now apply Hall].
    + apply ltb_false_le in E. split; [|split].
      * destruct Hin as [Hin|Hin]; [now left | right; now right].
      * exact Hle.
      * intros x [<-|Hx]; [qc_lra | now apply Hall].
Qed.

(** On a non-empty series the table is filled, and its entries are
    ordered: min <= ES 99 <= VaR 99 <= VaR 95 <= max, and
    min <= ES 95 <= VaR 95. *)
Theorem portfolio_stats_ordered :
  forall returns : list Qc,
    returns <> [] ->
    exists st mn mx e95 e99,
      calculate_portfolio_stats returns = Ok st
      /\ min_return st = Some mn /\ max_return st = Some mx
      /\ es_95 st = Some e95 /\ es_99 st = Some e99
      /\ mn <= e99 /\ e99 <= var_99 st /\ var_99 st <= var_95 st
      /\ var_95 st <= mx /\ mn <= e95 /\ e95 <= var_95 st.
Proof.
  intros returns Hne. unfold calculate_portfolio_stats.
  rewrite !percentile_ok by (try exact Hne; unfold hundred; qc_eval).
  cbn [bind]. rewrite !over_hundred.
  set (q5 := dec 5 1 * dec 1 100). set (q1 := dec 1 1 * dec 1 100).
  assert (0 <= q1) as A1 by qc_eval. assert (q1 <= q5) as A2 by qc_eval.
  assert (q5 <= 1) as A3 by qc_eval.
  assert (0 <= q5) as A4 by qc_eval. assert (q1 <= 1) as A5 by qc_eval.
  destruct returns as [|r0 rest] eqn:ER; [congruence|]. rewrite <- ER in *.
  assert (exists mn, series_min returns = Some mn
                     /\ forall x, In x returns -> mn <= x) as [mn [Emn Hmn]].
  { rewrite ER. eexists. split; [reflexivity|].
    destruct (fold_min_spec rest r0) as [_ [Hle Hall]].
    intros x [<-|Hx]; [exact Hle | now apply Hall]. }
  assert (exists mx, series_max returns = Some mx
                     /\ forall x, In x returns -> x <= mx) as [mx [Emx Hmx]].
  { rewrite ER. eexists. split; [reflexivity|].
    destruct (fold_max_spec rest r0) as [_ [Hle Hall]].
    intros x [<-|Hx]; [exact Hle | now apply Hall]. }
  destruct (quantile_linear_lower returns q5 Hne A4 A3) as [x5 [Hx5 Hl5]].
  destruct (quantile_linear_lower returns q1 Hne A1 A5) as [x1 [Hx1 Hl1]].
  destruct (quantile_linear_upper returns q5 Hne A4 A3) as [y5 [Hy5 Hu5]].
  destruct (tail_mean_bounds returns (quantile_linear returns q5) mn)
    as [e95 [E95 [B95 C95]]]; [now exists x5 | exact Hmn |].
  destruct (tail_mean_bounds returns (quantile_linear returns q1) mn)
    as [e99 [E99 [B99 C99]]]; [now exists x1 | exact Hmn |].
  eexists. exists mn, mx, e95, e99. split; [reflexivity|].
  cbn [min_return max_return es_95 es_99 var_95 var_99].
  repeat split; try assumption.
  - now apply quantile_linear_mono.
  - apply Qcle_trans with y5; [exact Hu5 | now apply Hmx].
Qed.

Lemma portfolio_stats_ordered_witness :
  exists st mn mx e95 e99,
    calculate_portfolio_stats two_returns = Ok st
    /\ min_return st = Some mn /\ max_return st = Some mx
    /\ es_95 st = Some e95 /\ es_99 st = Some e99
    /\ mn <= e99 /\ e99 <= var_99 st /\ var_99 st <= var_95 st
    /\ var_95 st <= mx /\ mn <= e95 /\ e95 <= var_95 st.
Proof.
  apply (portfolio_stats_ordered two_returns). discriminate.
Defined.


(** *** Factor exposures and stress scenarios *)

(** The columns of the market data that the risk functions read; the row
    of a symbol is the first one found, as [.iloc[0]] takes it. *)
Record asset := {
  market_beta : Qc;
  size_beta : Qc;
  value_beta : Qc;
  momentum_beta : Qc;
  sector : string
}.

Record factor_exposures := {
  fe_market_beta : Qc;
  fe_size_beta : Qc;
  fe_value_beta : Qc;
  fe_momentum_beta : Qc
}.

(** The inner loop of [calculate_factor_exposures] for one factor. *)
Definition factor_exposure (factor : asset -> Qc) (data : Dict.t asset)
    (weights : Dict.t Qc) : Qc :=
  fold_left (fun exposure '(symbol, weight) =>
               match Dict.get data symbol with
               | Some a => exposure + weight * factor a
               | None => exposure
               end) weights 0.

Definition sector_exposures (data : Dict.t asset) (weights : Dict.t Qc)
    : Dict.t Qc :=
  fold_left (fun se '(symbol, weight) =>
               match Dict.get data symbol with
               | Some a => Dict.set se (sector a)
                             (Dict.get_default se (sector a) 0 + weight)
               | None => se
               end) weights [].

Definition calculate_factor_exposures (data : Dict.t asset) (weights : Dict.t Qc)
    : factor_exposures * Dict.t Qc :=
  ({| fe_market_beta := factor_exposure market_beta data weights;
      fe_size_beta := factor_exposure size_beta data weights;
      fe_value_beta := factor_exposure value_beta data weights;
      fe_momentum_beta := factor_exposure momentum_beta data weights |},
   sector_exposures data weights).

Definition sector_impact (scenario_params : Dict.t Qc) (a : asset) : Qc :=
  if Dict.mem scenario_params "tech_shock"
     && String.eqb (sector a) "Technology"
  then Dict.get_default scenario_params "tech_shock" 0
  else if Dict.mem scenario_params "defensive_shock"
          && (String.eqb (sector a) "Healthcare"
              || String.eqb (sector a) "Utilities")
  then Dict.get_default scenario_params "defensive_shock" 0
  else if Dict.mem scenario_params "energy_impact"
          && String.eqb (sector a) "Energy"
  then Dict.get_default scenario_params "energy_impact" 0
  else 0.

Definition asset_impact (scenario_params : Dict.t Qc) (a : asset) : Qc :=
  let market_impact :=
    Dict.get_default scenario_params "market_shock" 0 * market_beta a in
  let size_impact :=
    Dict.get_default scenario_params "rates_shock" 0 * size_beta a * dec 5 10 in
  market_impact + sector_impact scenario_params a + size_impact.

Definition calculate_scenario_return (weights : Dict.t Qc) (data : Dict.t asset)
    (scenario_params : Dict.t Qc) : Qc :=
  fold_left (fun total_impact '(symbol, weight) =>
               match Dict.get data symbol with
               | None => total_impact
               | Some a => total_impact + weight * asset_impact scenario_params a
               end) weights 0.

Record stress_result := {
  scenario_return : Qc;
  scenario_loss : Qc;
  scenario_params : Dict.t Qc
}.

Definition default_scenarios : Dict.t (Dict.t Qc) :=
  [("market_crash"%string,
      [("market_shock"%string, dec (-20) 100); ("volatility_shock"%string, dec 2 1)]);
   ("rates_spike"%string,
      [("rates_shock"%string, dec 2 100); ("duration_impact"%string, dec (-15) 100)]);
   ("oil_shock"%string,
      [("oil_shock"%string, dec (-15) 100); ("energy_impact"%string, dec (-25) 100)]);
   ("fx_crisis"%string,
      [("fx_shock"%string, dec (-10) 100); ("international_impact"%string, dec (-20) 100)]);
   ("sector_rotation"%string,
      [("tech_shock"%string, dec (-15) 100); ("defensive_shock"%string, dec 10 100)])].

Definition run_stress_tests (weights : Dict.t Qc) (data : Dict.t asset)
    (scenarios : Dict.t (Dict.t Qc)) : Dict.t stress_result :=
  let scenarios :=
    match scenarios with [] => default_scenarios | _ => scenarios end in
  fold_left (fun stress_results '(scenario_name, params) =>
               let r := calculate_scenario_return weights data params in
               Dict.set stress_results scenario_name
                 {| scenario_return := r;
                    scenario_loss := if ltb r 0 then - r else 0;
                    scenario_params := params |})
            scenarios [].

(** What a position adds to a weighted sum over the known symbols. *)
Definition contribution (f : asset -> Qc) (data : Dict.t asset)
    (item : string * Qc) : Qc :=
  match Dict.get data (fst item) with
  | Some a => snd item * f a
  | None => 0
  end.

Lemma weighted_fold (f : asset -> Qc) data (weights : Dict.t Qc) :
  forall acc,
    fold_left (fun acc '(symbol, weight) =>
                 match Dict.get data symbol with
                 | Some a => acc + weight * f a
                 | None => acc
                 end) weights acc
    = acc + sum (map (contribution f data) weights).
Proof.
  induction weights as [|[s w] weights IH]; intro acc; simpl.
  - rewrite sum_nil. ring.
  - rewrite IH, sum_cons. unfold contribution at 2. simpl.
    destruct (Dict.get data s); ring.
Qed.

Lemma factor_exposure_sum f data weights :
  factor_exposure f data weights = sum (map (contribution f data) weights).
Proof. unfold factor_exposure. rewrite weighted_fold. ring. Qed.

Lemma scenario_return_sum weights data params :
  calculate_scenario_return weights data params
  = sum (map (contribution (asset_impact params) data) weights).
Proof.
  unfold calculate_scenario_return.
  assert (forall acc,
            fold_left (fun total_impact '(symbol, weight) =>
                         match Dict.get data symbol with
                         | None => total_impact
                         | Some a => total_impact + weight * asset_impact params a
                         end) weights acc
            = acc + sum (map (contribution (asset_impact params) data) weights))
    as H.
  { induction weights as [|[s w] weights IH]; intro acc; simpl.
    - rewrite sum_nil. ring.
    - rewrite IH, sum_cons. unfold contribution at 2. simpl.
      destruct (Dict.get data s); ring. }
  rewrite H. ring.
Qed.


Lemma sum_map_combination (f g : string * Qc -> Qc) k1 k2 l :
  sum (map (fun x => k1 * f x + k2 * g x) l)
  = k1 * sum (map f l) + k2 * sum (map g l).
Proof.
  induction l as [|x l IH]; simpl.
  - rewrite !sum_nil. ring.
  - rewrite !sum_cons, IH. ring.
Qed.

(** A scenario whose impact on every asset is a combination of its market
    and size betas moves the portfolio by that combination of the two
    exposures. *)
Lemma scenario_return_linear weights data params k1 k2 :
  (forall a, asset_impact params a = k1 * market_beta a + k2 * size_beta a) ->
  calculate_scenario_return weights data params
  = k1 * factor_exposure market_beta data weights
    + k2 * factor_exposure size_beta data weights.
Proof.
  intro H. rewrite scenario_return_sum, !factor_exposure_sum.
  rewrite <- sum_map_combination. f_equal. apply map_ext.
  intros [s w]. unfold contribution. simpl.
  destruct (Dict.get data s) as [a|]; [rewrite H|]; ring.
Qed.

(** Without a sector shock among its parameters, a scenario moves the
    portfolio by the market shock times the market-beta exposure plus half
    the rates shock times the size-beta exposure, the exposures being
    those of [calculate_factor_exposures]. *)
Theorem scenario_return_by_exposures :
  forall (weights : Dict.t Qc) (data : Dict.t asset) (params : Dict.t Qc),
    Dict.mem params "tech_shock" = false ->
    Dict.mem params "defensive_shock" = false ->
    Dict.mem params "energy_impact" = false ->
    let exposures := fst (calculate_factor_exposures data weights) in
    calculate_scenario_return weights data params
    = Dict.get_default params "market_shock" 0 * fe_market_beta exposures
      + Dict.get_default params "rates_shock" 0 * dec 5 10
        * fe_size_beta exposures.
Proof.
  intros weights data params H1 H2 H3 exposures.
  unfold exposures, calculate_factor_exposures.
  cbn [fst fe_market_beta fe_size_beta].
  apply scenario_return_linear. intro a.
  unfold asset_impact, sector_impact. rewrite H1, H2, H3. simpl. ring.
Qed.

Definition two_assets : Dict.t asset :=
  [("A"%string, {| market_beta := dec 12 10; size_beta := dec 5 10;
                   value_beta := 0; momentum_beta := 0;
                   sector := "Technology" |});
   ("B"%string, {| market_beta := dec 8 10; size_beta := dec (-2) 10;
                   value_beta := 0; momentum_beta := 0;
                   sector := "Energy" |})].

Lemma scenario_return_by_exposures_witness :
  let weights := [("A"%string, dec 6 10); ("B"%string, dec 4 10)] in
  let params := [("market_shock"%string, dec (-20) 100)] in
  let exposures := fst (calculate_factor_exposures two_assets weights) in
  calculate_scenario_return weights two_assets params
  = Dict.get_default params "market_shock" 0 * fe_market_beta exposures
    + Dict.get_default params "rates_shock" 0 * dec 5 10
      * fe_size_beta exposures.
Proof.
  apply (scenario_return_by_exposures
           [("A"%string, dec 6 10); ("B"%string, dec 4 10)] two_assets
           [("market_shock"%string, dec (-20) 100)]); reflexivity.
Defined.

(** The default stress tests, whatever the portfolio and the data: five
    scenarios in the order of the table; the FX crisis reports a return
    and a loss of zero, since nothing reads its parameters; the market
    crash reports -0.20 times the market-beta exposure and the rates
    spike 0.01 times the size-beta exposure. *)
Theorem default_stress_tests :
  forall (weights : Dict.t Qc) (data : Dict.t asset),
    let results := run_stress_tests weights data [] in
    Dict.keys results
    = ["market_crash"; "rates_spike"; "oil_shock"; "fx_crisis";
       "sector_rotation"]%string
    /\ (exists r, Dict.get results "fx_crisis" = Some r
                  /\ scenario_return r = 0 /\ scenario_loss r = 0)
    /\ (exists r, Dict.get results "market_crash" = Some r
                  /\ scenario_return r
                     = dec (-20) 100 * factor_exposure market_beta data weights)
    /\ (exists r, Dict.get results "rates_spike" = Some r
                  /\ scenario_return r
                     = dec 1 100 * factor_exposure size_beta data weights).
Proof.
  intros weights data results.
  unfold results, run_stress_tests, default_scenarios. cbn [fold_left].
  split; [reflexivity|]. split; [|split].
  - eexists. split; [reflexivity|]. cbn [scenario_return scenario_loss].
    assert (calculate_scenario_return weights data
              [("fx_shock"%string, dec (-10) 100);
               ("international_impact"%string, dec (-20) 100)] = 0) as ->.
    { rewrite (scenario_return_linear weights data _ 0 0); [ring|].
      intro a. unfold asset_impact, sector_impact, Dict.get_default, Dict.mem. simpl. ring. }
    split; reflexivity.
  - eexists. split; [reflexivity|]. cbn [scenario_return].
    rewrite (scenario_return_linear weights data _ (dec (-20) 100) 0).
    + generalize (dec (-20) 100). intro k. ring.
    + intro a. unfold asset_impact, sector_impact, Dict.get_default, Dict.mem.
      simpl. generalize (dec (-20) 100), (dec 5 10). intros k h. ring.
  - eexists. split; [reflexivity|]. cbn [scenario_return].
    replace (dec 1 100) with (dec 2 100 * dec 5 10) by qc_eval.
    rewrite (scenario_return_linear weights data _ 0 (dec 2 100 * dec 5 10)).
    + generalize (dec 2 100), (dec 5 10). intros k h. ring.
    + intro a. unfold asset_impact, sector_impact, Dict.get_default, Dict.mem.
      simpl. generalize (dec 2 100), (dec 5 10). intros k h. ring.
Qed.

End Risk.

(** ** Factor engine ([factor_engine.py]) *)

Module Factor.
Import Num Py Stats.
Local Open Scope Qc_scope.
Local Open Scope list_scope.

(** A [pandas.Series] of floats, by position; [None] is NaN. *)
Definition series := list (option Qc).

Definition dropna (s : series) : list Qc :=
  flat_map (fun o => match o with Some x => [x] | None => [] end) s.

(** [Series.quantile(q)]: NaN entries are skipped; the quantile of no
    value at all is NaN. *)
Definition quantile (s : series) (q : Qc) : result (option Qc) :=
  if ltb q 0 || gtb q 1
  then Raise (ValueError "percentiles should all be in the interval [0, 1]")
  else Ok (match dropna s with
           | [] => None
           | vals => Some (quantile_linear vals q)
           end).

(** Python's [min(a, b)] and [max(a, b)]. *)
Definition py_min (a b : Qc) : Qc := if ltb b a then b else a.
Definition py_max (a b : Qc) : Qc := if gtb b a then b else a.

(** One value through [clip]: the lower bound first, then the upper. *)
Definition clip_value (lower upper : option Qc) (x : Qc) : Qc :=
  let r := match lower with
           | Some lo => if geb x lo then x else lo
           | None => x
           end in
  match upper with
  | Some hi => if leb r hi then r else hi
  | None => r
  end.

(** [Series.clip(lower, upper)] with scalar bounds: a NaN bound is no
    bound, two bounds are put in order first, NaN entries stay NaN. *)
Definition clip (s : series) (lower upper : option Qc) : series :=
  let '(lo, hi) :=
    match lower, upper with
    | Some l, Some u => (Some (py_min l u), Some (py_max l u))
    | _, _ => (lower, upper)
    end in
  map (option_map (clip_value lo hi)) s.

Definition winsorize_series (s : series) (percentile : Qc) : result series :=
  bind (quantile s percentile) (fun lower =>
  bind (quantile s (1 - percentile)) (fun upper =>
  Ok (clip s lower upper))).

(** *** Clipping *)

Lemma py_min_max_le a b : py_min a b <= py_max a b.
Proof.
  unfold py_min, py_max, gtb. destruct (ltb b a) eqn:E.
  - apply ltb_lt in E.
    assert (ltb a b = false) as -> by (apply ltb_false_le; now apply Qclt_le_weak).
    now apply Qclt_le_weak.
  - apply ltb_false_le in E. destruct (ltb a b); [exact E | apply Qcle_refl].
Qed.

Lemma py_min_max_between a b x :
  x = a \/ x = b -> py_min a b <= x /\ x <= py_max a b.
Proof.
  unfold py_min, py_max, gtb. intros [-> | ->].
  - destruct (ltb b a) eqn:E1, (ltb a b) eqn:E2;
      try apply ltb_lt in E1; try apply ltb_lt in E2;
      try apply ltb_false_le in E1; try apply ltb_false_le in E2;
      split; try apply Qcle_refl; try assumption; now apply Qclt_le_weak.
  - destruct (ltb b a) eqn:E1, (ltb a b) eqn:E2;
      try apply ltb_lt in E1; try apply ltb_lt in E2;
      try apply ltb_false_le in E1; try apply ltb_false_le in E2;
      split; try apply Qcle_refl; try assumption; now apply Qclt_le_weak.
Qed.

Lemma clip_value_spec lo hi x :
  lo <= hi ->
  clip_value (Some lo) (Some hi) x
  = if ltb x lo then lo else if ltb hi x then hi else x.
Proof.
  intro H. unfold clip_value, geb.
  destruct (ltb x lo) eqn:E1.
  - assert (leb lo x = false) as -> by (apply leb_false_lt; now apply ltb_lt).
    assert (leb lo hi = true) as -> by now apply leb_le.
    reflexivity.
  - assert (leb lo x = true) as ->
      by (apply leb_le; now apply ltb_false_le).
    destruct (ltb hi x) eqn:E2.
    + assert (leb x hi = false) as -> by (apply leb_false_lt; now apply ltb_lt).
      reflexivity.
    + assert (leb x hi = true) as ->
        by (apply leb_le; now apply ltb_false_le).
      reflexivity.
Qed.

Lemma clip_value_inside lo hi x :
  lo <= x -> x <= hi -> clip_value (Some lo) (Some hi) x = x.
Proof.
  intros H1 H2. rewrite clip_value_spec by now apply Qcle_trans with x.
  assert (ltb x lo = false) as -> by now apply ltb_false_le.
  assert (ltb hi x = false) as -> by now apply ltb_false_le.
  reflexivity.
Qed.

Lemma clip_value_range lo hi x :
  lo <= hi ->
  lo <= clip_value (Some lo) (Some hi) x /\ clip_value (Some lo) (Some hi) x <= hi.
Proof.
  intro H. rewrite clip_value_spec by exact H.
  destruct (ltb x lo) eqn:E1; [split; [apply Qcle_refl | exact H]|].
  destruct (ltb hi x) eqn:E2; [split; [exact H | apply Qcle_refl]|].
  split; now apply ltb_false_le.
Qed.

Lemma clip_value_idem lo hi x :
  lo <= hi ->
  clip_value (Some lo) (Some hi) (clip_value (Some lo) (Some hi) x)
  = clip_value (Some lo) (Some hi) x.
Proof.
  intro H. destruct (clip_value_range lo hi x H). now apply clip_value_inside.
Qed.

Lemma clip_value_mono lo hi x y :
  lo <= hi -> x <= y ->
  clip_value (Some lo) (Some hi) x <= clip_value (Some lo) (Some hi) y.
Proof.
  intros H Hxy. rewrite !clip_value_spec by exact H.
  destruct (ltb x lo) eqn:X1, (ltb y lo) eqn:Y1;
    try apply ltb_lt in X1; try apply ltb_lt in Y1;
    try apply ltb_false_le in X1; try apply ltb_false_le in Y1.
  - apply Qcle_refl.
  - destruct (ltb hi y); [exact H | exact Y1].
  - exfalso. apply (Qclt_not_le _ _ Y1). now apply Qcle_trans with x.
  - destruct (ltb hi x) eqn:X2, (ltb hi y) eqn:Y2;
      try apply ltb_lt in X2; try apply ltb_lt in Y2;
      try apply ltb_false_le in X2; try apply ltb_false_le in Y2.
    + apply Qcle_refl.
    + exfalso. apply (Qclt_not_le _ _ X2). now apply Qcle_trans with y.
    + exact X2.
    + exact Hxy.
Qed.

Lemma dropna_map (f : Qc -> Qc) (s : series) :
  dropna (map (option_map f) s) = map f (dropna s).
Proof.
  induction s as [|[x|] s IH]; simpl; [reflexivity | now rewrite IH | exact IH].
Qed.

Lemma clip_no_bounds (s : series) : clip s None None = s.
Proof.
  unfold clip. induction s as [|[x|] s IH]; simpl; [reflexivity | |];
    now rewrite IH.
Qed.

Lemma of_nat_le_inv n m : of_nat n <= of_nat m -> (n <= m)%nat.
Proof.
  unfold of_nat. intro H. to_Q. rewrite <- Zle_Qle in H. lia.
Qed.

Lemma of_nat_sub n k : (k <= n)%nat -> of_nat (n - k) = of_nat n - of_nat k.
Proof.
  intro H. unfold of_nat. rewrite Nat2Z.inj_sub by exact H. to_Q.
  unfold Z.sub. rewrite inject_Z_plus, inject_Z_opp. lra.
Qed.

(** With the position a whole number [k], the quantile is the [k]-th
    order statistic. *)
Lemma quantile_linear_integral vals q k :
  q * of_nat (List.length vals - 1) = of_nat k ->
  quantile_linear vals q = nth k (sort vals) 0.
Proof. intro H. unfold quantile_linear. rewrite H. apply lerp_at_integral. Qed.

(** ... and it is unchanged by a monotone map that fixes it. *)
Lemma quantile_linear_map (f : Qc -> Qc) vals q k :
  (forall x y, x <= y -> f x <= f y) ->
  q * of_nat (List.length vals - 1) = of_nat k ->
  (k < List.length vals)%nat ->
  f (nth k (sort vals) 0) = nth k (sort vals) 0 ->
  quantile_linear (map f vals) q = quantile_linear vals q.
Proof.
  intros Hf Hk Hlt Hfix.
  rewrite (quantile_linear_integral vals q k Hk).
  rewrite (quantile_linear_integral (map f vals) q k)
    by (now rewrite length_map).
  rewrite sort_map_monotone by exact Hf.
  rewrite (nth_indep _ 0 (f 0)) by (now rewrite length_map, sort_length).
  rewrite map_nth. exact Hfix.
Qed.

Lemma quantile_in_range (s : series) q :
  0 <= q -> q <= 1 ->
  quantile s q = Ok (match dropna s with
                     | [] => None
                     | vals => Some (quantile_linear vals q)
                     end).
Proof.
  intros H0 H1. unfold quantile.
  assert (ltb q 0 = false) as -> by now apply ltb_false_le.
  assert (gtb q 1 = false) as -> by now apply ltb_false_le.
  reflexivity.
Qed.

Lemma quantile_out_of_range (s : series) q :
  ltb q 0 || gtb q 1 = true ->
  quantile s q
  = Raise (ValueError "percentiles should all be in the interval [0, 1]").
Proof. intro H. unfold quantile. now rewrite H. Qed.

(** Winsorizing with both bounds on order statistics of the series. *)
Lemma winsorize_on_order_statistics (s : series) p k :
  0 <= p -> p <= 1 ->
  dropna s <> [] ->
  p * of_nat (List.length (dropna s) - 1) = of_nat k ->
  let a := sort (dropna s) in
  let k' := (List.length (dropna s) - 1 - k)%nat in
  let lo := py_min (nth k a 0) (nth k' a 0) in
  let hi := py_max (nth k a 0) (nth k' a 0) in
  (k < List.length (dropna s))%nat /\ (k' < List.length (dropna s))%nat
  /\ (1 - p) * of_nat (List.length (dropna s) - 1) = of_nat k'
  /\ winsorize_series s p
     = Ok (map (option_map (clip_value (Some lo) (Some hi))) s).
Proof.
  intros H0 H1 Hne Hk a k' lo hi.
  set (n := List.length (dropna s)) in *.
  assert (n <> 0)%nat as Hn by (unfold n; destruct (dropna s); simpl; congruence).
  assert (k <= n - 1)%nat as Hkn.
  { apply of_nat_le_inv. rewrite <- Hk.
    pose proof (of_nat_nonneg (n - 1)). qc_nra. }
  assert ((1 - p) * of_nat (n - 1) = of_nat k') as Hk'.
  { unfold k'. rewrite (of_nat_sub (n - 1) k Hkn), <- Hk. ring. }
  split; [lia|]. split; [unfold k'; lia|]. split; [exact Hk'|].
  unfold winsorize_series.
  rewrite (quantile_in_range s p H0 H1).
  rewrite (quantile_in_range s (1 - p)) by qc_lra.
  destruct (dropna s) as [|v vals] eqn:E; [congruence|].
  cbn [bind]. unfold clip.
  rewrite (quantile_linear_integral (v :: vals) p k Hk).
  rewrite (quantile_linear_integral (v :: vals) (1 - p) k' Hk').
  reflexivity.
Qed.

Lemma nth_sort_clipped lo hi vals k :
  lo <= hi ->
  (k < List.length vals)%nat ->
  lo <= nth k (sort vals) 0 -> nth k (sort vals) 0 <= hi ->
  nth k (sort (map (clip_value (Some lo) (Some hi)) vals)) 0
  = nth k (sort vals) 0.
Proof.
  intros Hlh Hk H1 H2.
  rewrite sort_map_monotone by (intros; now apply clip_value_mono).
  rewrite (nth_indep _ 0 (clip_value (Some lo) (Some hi) 0))
    by (now rewrite length_map, sort_length).
  rewrite map_nth. now apply clip_value_inside.
Qed.

(** C5, as the code has it: winsorization is idempotent when the quantile
    position [p * (n - 1)], [n] the number of non-NaN values, is a whole
    number, so that both clipping bounds are values of the series; an
    out-of-range percentile raises the same error both times. *)
Theorem winsorize_idempotent_on_order_statistics :
  forall (s : series) (p : Qc) (k : nat),
    p * of_nat (List.length (dropna s) - 1) = of_nat k ->
    bind (winsorize_series s p) (fun w => winsorize_series w p)
    = winsorize_series s p.
Proof.
  intros s p k Hk.
  destruct (ltb p 0 || gtb p 1) eqn:R.
  { unfold winsorize_series. rewrite (quantile_out_of_range s p R). reflexivity. }
  apply orb_false_iff in R. destruct R as [R0 R1].
  apply ltb_false_le in R0. apply ltb_false_le in R1.
  destruct (dropna s) as [|v vals] eqn:E.
  { assert (winsorize_series s p = Ok s) as W.
    { unfold winsorize_series.
      rewrite (quantile_in_range s p R0 R1).
      rewrite (quantile_in_range s (1 - p)) by qc_lra.
      rewrite E. cbn [bind]. now rewrite clip_no_bounds. }
    rewrite W. cbn [bind]. exact W. }
  assert (dropna s <> []) as Hne by (rewrite E; discriminate).
  rewrite <- E in Hk.
  destruct (winsorize_on_order_statistics s p k R0 R1 Hne Hk)
    as [Hlt [Hlt' [Hk' W]]].
  set (a := sort (dropna s)) in *.
  set (k' := (List.length (dropna s) - 1 - k)%nat) in *.
  set (lo := py_min (nth k a 0) (nth k' a 0)) in *.
  set (hi := py_max (nth k a 0) (nth k' a 0)) in *.
  set (c := clip_value (Some lo) (Some hi)) in *.
  assert (lo <= hi) as Hlh by apply py_min_max_le.
  destruct (py_min_max_between (nth k a 0) (nth k' a 0) (nth k a 0)
              (or_introl eq_refl)) as [Ak1 Ak2].
  destruct (py_min_max_between (nth k a 0) (nth k' a 0) (nth k' a 0)
              (or_intror eq_refl)) as [Ak1' Ak2'].
  fold lo in Ak1, Ak1'. fold hi in Ak2, Ak2'.
  rewrite W. cbn [bind].
  set (w := map (option_map c) s).
  assert (dropna w = map c (dropna s)) as Dw by apply dropna_map.
  assert (List.length (dropna w) = List.length (dropna s)) as Lw
    by (rewrite Dw; apply length_map).
  assert (dropna w <> []) as Hnew.
  { intro Z. apply Hne. apply length_zero_iff_nil.
    rewrite <- Lw, Z. reflexivity. }
  assert (p * of_nat (List.length (dropna w) - 1) = of_nat k) as Hkw
    by (now rewrite Lw).
  destruct (winsorize_on_order_statistics w p k R0 R1 Hnew Hkw)
    as [_ [_ [_ W2]]].
  rewrite W2. rewrite Lw, Dw. fold k'.
  unfold c at 1 2 3 4.
  rewrite !nth_sort_clipped by assumption.
  fold a lo hi c. f_equal. unfold w. rewrite map_map.
  apply map_ext. intros [x|]; simpl; [|reflexivity].
  f_equal. now apply clip_value_idem.
Qed.

(** The series 0, 1, 2, 3, 4. *)
Definition zero_to_four : series :=
  [Some 0; Some 1; Some (dec 2 1); Some (dec 3 1); Some (dec 4 1)].

Definition series_eqb (s1 s2 : series) : bool :=
  (List.length s1 =? List.length s2)%nat
  && forallb (fun '(a, b) =>
       match a, b with
       | Some x, Some y => eqb x y
       | None, None => true
       | _, _ => false
       end) (combine s1 s2).

(** At the default 5%, the bounds 0.2 and 3.8 are interpolated, and a
    second pass moves them to 0.36 and 3.64. *)
Example winsorize_once :
  match winsorize_series zero_to_four (dec 5 100) with
  | Ok w => series_eqb w
              [Some (dec 2 10); Some 1; Some (dec 2 1); Some (dec 3 1);
               Some (dec 38 10)]
  | Raise _ => false
  end = true.
Proof. vm_compute. reflexivity. Qed.

Example winsorize_twice :
  match bind (winsorize_series zero_to_four (dec 5 100))
             (fun w => winsorize_series w (dec 5 100)) with
  | Ok w => series_eqb w
              [Some (dec 36 100); Some 1; Some (dec 2 1); Some (dec 3 1);
               Some (dec 364 100)]
  | Raise _ => false
  end = true.
Proof. vm_compute. reflexivity. Qed.

(** C5 as stated fails: on 0, 1, 2, 3, 4 at 5% the second winsorization
    changes the series again. *)
Lemma winsorize_not_idempotent :
  ~ (forall (s : series) (p : Qc),
       bind (winsorize_series s p) (fun w => winsorize_series w p)
       = winsorize_series s p).
Proof.
  intro H. specialize (H zero_to_four (dec 5 100)).
  vm_compute in H. discriminate H.
Qed.

Lemma winsorize_idempotent_on_order_statistics_witness :
  bind (winsorize_series zero_to_four (dec 25 100))
       (fun w => winsorize_series w (dec 25 100))
  = winsorize_series zero_to_four (dec 25 100).
Proof.
  apply (winsorize_idempotent_on_order_statistics zero_to_four (dec 25 100) 1).
  apply eqb_eq. vm_compute. reflexivity.
Defined.

(** *** Factor dispatch and [compute_signals] *)

Definition supported_factors : list string :=
  ["momentum"; "value"; "quality"; "growth"; "low_vol"; "size"; "esg"]%string.

(** [str(e)] *)
Definition str (e : exn) : string :=
  match e with
  | ZeroDivisionError => "division by zero"
  | IndexError => "index out of bounds"
  | ValueError msg => msg
  | SolverError msg => msg
  end.

(** What a task leaves behind: the FAILURE state it recorded, if any, with
    its ['error'] text, and its return value or the exception it raised. *)
Record task_outcome (A : Type) := {
  failure_state : option string;
  outcome : result A
}.
Arguments failure_state {A} _.
Arguments outcome {A} _.

Section Signals.

(** The loaded panel and a factor's configuration are opaque here; each
    named factor is a function of both that may raise. *)
Variable panel : Type.
Variable config : Type.
Variables compute_momentum_factor compute_value_factor
          compute_quality_factor compute_growth_factor
          compute_low_vol_factor compute_size_factor
          compute_esg_factor : panel -> config -> result series.

(** The rest of [compute_signals]: pipeline, combination, diagnostics. *)
Variable signals : Type.
Variable process_signals : Dict.t series -> result signals.

Definition compute_factor (data : panel) (factor_name : string) (cfg : config)
    : result series :=
  if String.eqb factor_name "momentum" then compute_momentum_factor data cfg
  else if String.eqb factor_name "value" then compute_value_factor data cfg
  else if String.eqb factor_name "quality" then compute_quality_factor data cfg
  else if String.eqb factor_name "growth" then compute_growth_factor data cfg
  else if String.eqb factor_name "low_vol" then compute_low_vol_factor data cfg
  else if String.eqb factor_name "size" then compute_size_factor data cfg
  else if String.eqb factor_name "esg" then compute_esg_factor data cfg
  else Raise (ValueError ("Unknown factor: " ++ factor_name)).

(** The loop over [recipe['factors'].items()]. *)
Fixpoint compute_factors (data : panel) (factors : Dict.t config)
    (factor_signals : Dict.t series) : result (Dict.t series) :=
  match factors with
  | [] => Ok factor_signals
  | (factor_name, factor_config) :: rest =>
      bind (compute_factor data factor_name factor_config) (fun sg =>
        compute_factors data rest (Dict.set factor_signals factor_name sg))
  end.

(** [compute_signals]: any exception is logged, recorded as the task's
    FAILURE state and raised again. *)
Definition compute_signals (data : panel) (factors : Dict.t config)
    : task_outcome signals :=
  match bind (compute_factors data factors []) process_signals with
  | Ok r => {| failure_state := None; outcome := Ok r |}
  | Raise e => {| failure_state := Some (str e); outcome := Raise e |}
  end.

Lemma compute_factor_unknown data factor_name cfg :
  ~ In factor_name supported_factors ->
  compute_factor data factor_name cfg
  = Raise (ValueError ("Unknown factor: " ++ factor_name)).
Proof.
  intro H. unfold compute_factor.
  repeat match goal with
  | |- context [String.eqb factor_name ?s] =>
      let E := fresh in
      destruct (String.eqb factor_name s) eqn:E;
      [apply String.eqb_eq in E; exfalso; apply H; subst factor_name;
       simpl; tauto|]
  end.
  reflexivity.
Qed.

Lemma compute_factors_unknown data factor_name cfg factors :
  ~ In factor_name supported_factors ->
  In (factor_name, cfg) factors ->
  forall acc,
    (exists e, compute_factors data factors acc = Raise e)
    /\ ((forall n c, In (n, c) factors -> n <> factor_name ->
                     exists sg, compute_factor data n c = Ok sg) ->
        compute_factors data factors acc
        = Raise (ValueError ("Unknown factor: " ++ factor_name))).
Proof.
  intros Hun. induction factors as [|[n c] factors IH]; intros Hin acc;
    [destruct Hin|].
  simpl. destruct Hin as [Hin|Hin].
  - injection Hin as -> ->.
    rewrite (compute_factor_unknown data factor_name cfg Hun). simpl.
    split; [eexists; reflexivity | reflexivity].
  - destruct (compute_factor data n c) as [sg|e] eqn:E; simpl.
    + destruct (IH Hin (Dict.set acc n sg)) as [H1 H2].
      split; [exact H1|]. intro Hothers. apply H2.
      intros n' c' Hin' Hn'. apply Hothers; [now right | exact Hn'].
    + split; [eexists; reflexivity|]. intro Hothers.
      destruct (String.eqb n factor_name) eqn:N.
      * apply String.eqb_eq in N. subst n.
        rewrite (compute_factor_unknown data factor_name c Hun) in E.
        simpl in E. congruence.
      * apply String.eqb_neq in N.
        destruct (Hothers n c (or_introl eq_refl) N) as [sg Hsg]. congruence.
Qed.

(** C10: a factor name outside the supported set makes [compute_factor]
    raise [ValueError("Unknown factor: <name>")]; [compute_signals] on a
    recipe that lists it never returns a result: it records the failure
    and raises, and when the recipe's other factors compute, the
    exception raised is that very error. *)
Theorem unknown_factor_surfaces :
  forall (data : panel) (factor_name : string) (cfg : config),
    ~ In factor_name supported_factors ->
    compute_factor data factor_name cfg
    = Raise (ValueError ("Unknown factor: " ++ factor_name))
    /\ forall factors : Dict.t config,
         In (factor_name, cfg) factors ->
         (exists e,
            compute_signals data factors
            = {| failure_state := Some (str e); outcome := Raise e |})
         /\ ((forall n c, In (n, c) factors -> n <> factor_name ->
                          exists sg, compute_factor data n c = Ok sg) ->
             compute_signals data factors
             = {| failure_state := Some ("Unknown factor: " ++ factor_name)%string;
                  outcome := Raise (ValueError
                                      ("Unknown factor: " ++ factor_name)) |}).
Proof.
  intros data factor_name cfg Hun.
  split; [now apply compute_factor_unknown|].
  intros factors Hin.
  destruct (compute_factors_unknown data factor_name cfg factors Hun Hin [])
    as [[e He] Hothers].
  unfold compute_signals. split.
  - exists e. now rewrite He.
  - intro H. now rewrite (Hothers H).
Qed.

End Signals.

(** A recipe asking for momentum and for an unsupported "sentiment"
    factor, over factor functions that return an empty series. *)
Definition no_series : unit -> unit -> result series := fun _ _ => Ok [].

Lemma unknown_factor_surfaces_witness :
  compute_factor unit unit no_series no_series no_series no_series no_series
    no_series no_series tt "sentiment" tt
  = Raise (ValueError "Unknown factor: sentiment")
  /\ compute_signals unit unit no_series no_series no_series no_series
       no_series no_series no_series unit (fun _ => Ok tt) tt
       [("momentum"%string, tt); ("sentiment"%string, tt)]
     = {| failure_state := Some "Unknown factor: sentiment"%string;
          outcome := Raise (ValueError "Unknown factor: sentiment") |}.
Proof.
  destruct (unknown_factor_surfaces unit unit no_series no_series no_series
              no_series no_series no_series no_series unit (fun _ => Ok tt)
              tt "sentiment"%string tt) as [H1 H2].
  - simpl. intros [H|[H|[H|[H|[H|[H|[H|[]]]]]]]]; discriminate H.
  - split; [exact H1|].
    destruct (H2 [("momentum"%string, tt); ("sentiment"%string, tt)]) as [_ H3].
    + right. now left.
    + apply H3. intros n c [H|[H|[]]] Hn.
      * injection H as <- <-. now exists [].
      * injection H as <- <-. congruence.
Defined.


(** *** What winsorizing does to the values *)

Lemma py_min_max_cases a b :
  (py_min a b = a \/ py_min a b = b) /\ (py_max a b = a \/ py_max a b = b).
Proof.
  unfold py_min, py_max, gtb.
  split; [destruct (ltb b a) | destruct (ltb a b)]; auto.
Qed.

Lemma map_option_id (s : series) : map (option_map (fun x => x)) s = s.
Proof. induction s as [|[x|] s IH]; simpl; congruence. Qed.

(** For a percentile in [0, 1], winsorizing applies one non-decreasing,
    idempotent map to every number of the series and leaves each NaN in
    its place: the order of the values is kept, and no value leaves any
    range that held all the numbers of the series. *)
Theorem winsorize_monotone_within_range :
  forall (s : series) (p : Qc),
    0 <= p -> p <= 1 ->
    exists f : Qc -> Qc,
      winsorize_series s p = Ok (map (option_map f) s)
      /\ (forall x y, x <= y -> f x <= f y)
      /\ (forall x, f (f x) = f x)
      /\ (forall m M,
            (forall x, In x (dropna s) -> m <= x /\ x <= M) ->
            forall x, In x (dropna s) -> m <= f x /\ f x <= M).
Proof.
  intros s p H0 H1. unfold winsorize_series.
  rewrite (quantile_in_range s p H0 H1).
  rewrite (quantile_in_range s (1 - p)) by qc_lra.
  destruct (dropna s) as [|v vals] eqn:E.
  - exists (fun x => x). cbn [bind]. rewrite clip_no_bounds.
    split; [|split; [|split]].
    + f_equal. symmetry. apply map_option_id.
    + auto.
    + reflexivity.
    + intros m M _ x [].
  - cbn [bind]. unfold clip.
    set (ql := quantile_linear (v :: vals) p).
    set (qu := quantile_linear (v :: vals) (1 - p)).
    set (lo := py_min ql qu). set (hi := py_max ql qu).
    assert (lo <= hi) as Hlh by apply py_min_max_le.
    exists (clip_value (Some lo) (Some hi)).
    split; [reflexivity|]. split; [|split].
    + intros x y Hxy. now apply clip_value_mono.
    + intro x. now apply clip_value_idem.
    + intros m M Hb x Hx.
      assert (v :: vals <> []) as Hne by discriminate.
      assert (m <= ql /\ ql <= M) as [L1 U1].
      { destruct (quantile_linear_lower (v :: vals) p Hne H0 H1) as [a [Ha La]].
        destruct (quantile_linear_upper (v :: vals) p Hne H0 H1) as [b [Hb' Ub]].
        split.
        - apply Qcle_trans with a; [now apply Hb | exact La].
        - apply Qcle_trans with b; [exact Ub | now apply Hb]. }
      assert (m <= qu /\ qu <= M) as [L2 U2].
      { destruct (quantile_linear_lower (v :: vals) (1 - p) Hne) as [a [Ha La]];
          [qc_lra | qc_lra |].
        destruct (quantile_linear_upper (v :: vals) (1 - p) Hne) as [b [Hb' Ub]];
          [qc_lra | qc_lra |].
        split.
        - apply Qcle_trans with a; [now apply Hb | exact La].
        - apply Qcle_trans with b; [exact Ub | now apply Hb]. }
      destruct (py_min_max_cases ql qu) as [Cl Ch]. fold lo in Cl. fold hi in Ch.
      destruct (clip_value_range lo hi x Hlh) as [R1 R2].
      split.
      * apply Qcle_trans with lo; [|exact R1]. destruct Cl as [->| ->]; assumption.
      * apply Qcle_trans with hi; [exact R2|]. destruct Ch as [->| ->]; assumption.
Qed.

Lemma winsorize_monotone_within_range_witness :
  exists f : Qc -> Qc,
    winsorize_series zero_to_four (dec 5 100) = Ok (map (option_map f) zero_to_four)
    /\ (forall x y, x <= y -> f x <= f y)
    /\ (forall x, f (f x) = f x)
    /\ (forall m M,
          (forall x, In x (dropna zero_to_four) -> m <= x /\ x <= M) ->
          forall x, In x (dropna zero_to_four) -> m <= f x /\ f x <= M).
Proof.
  apply (winsorize_monotone_within_range zero_to_four (dec 5 100)).
  - apply leb_le. vm_compute. reflexivity.
  - apply leb_le. vm_compute. reflexivity.
Defined.


(** *** Neutralizing a signal by group *)

Lemma of_nat_S n : of_nat (S n) = of_nat n + 1.
Proof.
  unfold of_nat. rewrite Nat2Z.inj_succ. unfold Z.succ. to_Q.
  rewrite inject_Z_plus. change (inject_Z 1) with 1%Q. lra.
Qed.

Lemma of_nat_pos n : (0 < n)%nat -> 0 < of_nat n.
Proof.
  intro H. unfold of_nat. to_Q. change 0%Q with (inject_Z 0).
  rewrite <- Zlt_Qlt. lia.
Qed.

Lemma sum_map_sub c l :
  sum (map (fun x => x - c) l) = sum l - of_nat (List.length l) * c.
Proof.
  induction l as [|x l IH]; simpl List.length; simpl map.
  - rewrite sum_nil. change (of_nat 0) with 0. ring.
  - rewrite !sum_cons, IH, of_nat_S. ring.
Qed.

Lemma sum_centered l : l <> [] -> sum (map (fun x => x - mean l) l) = 0.
Proof.
  intro Hne. rewrite sum_map_sub. unfold mean.
  assert (0 < of_nat (List.length l)) as Hpos.
  { apply of_nat_pos. destruct l; [congruence | simpl; lia]. }
  field. intro Z. rewrite Z in Hpos. exact (Qclt_not_le _ _ Hpos (Qcle_refl 0)).
Qed.

Lemma combine_map_self {A B : Type} (f : A -> B) (l : list A) :
  combine l (map f l) = map (fun r => (r, f r)) l.
Proof. induction l as [|x l IH]; simpl; [reflexivity | now rewrite IH]. Qed.

Lemma map_fst_combine {A B : Type} (l1 : list A) :
  forall l2 : list B, List.length l1 = List.length l2 ->
    map fst (combine l1 l2) = l1.
Proof.
  induction l1 as [|x l1 IH]; intros [|y l2] H; simpl in *; try congruence.
  f_equal. apply IH. congruence.
Qed.

Lemma map_snd_combine {A B : Type} (l1 : list A) :
  forall l2 : list B, List.length l1 = List.length l2 ->
    map snd (combine l1 l2) = l2.
Proof.
  induction l1 as [|x l1 IH]; intros [|y l2] H; simpl in *; try congruence.
  f_equal. apply IH. congruence.
Qed.

(** [a - b] on floats that may be NaN. *)
Definition osub (x m : option Qc) : option Qc :=
  match x, m with
  | Some a, Some b => Some (a - b)
  | _, _ => None
  end.

Section Groups.

(** The group labels: sector names, or size quintiles. *)
Variable L : Type.
Variable label_eqb : L -> L -> bool.
Hypothesis label_eqb_spec : forall a b, label_eqb a b = true <-> a = b.

(** The numbers of the signal that carry the label [g]. *)
Definition group_values (rows : list (L * option Qc)) (g : L) : list Qc :=
  flat_map (fun '(l, o) =>
              if label_eqb l g
              then match o with Some x => [x] | None => [] end
              else []) rows.

(** [signal.groupby(labels).mean()] at [g]: NaN entries are skipped. *)
Definition group_mean (rows : list (L * option Qc)) (g : L) : option Qc :=
  match group_values rows g with
  | [] => None
  | _ :: _ => Some (mean (group_values rows g))
  end.

(** [neutralized[mask] = signal[mask] - means[g]] with [mask = labels == g]. *)
Definition assign_group (rows : list (L * option Qc)) (neutralized : series)
    (g : L) : series :=
  map (fun '((l, x), n) =>
         if label_eqb l g then osub x (group_mean rows g) else n)
      (combine rows neutralized).

(** The loop over the group keys [index], starting from a copy of the
    signal. *)
Definition neutralize_by_groups (index labels : list L) (signal : series)
    : series :=
  let rows := combine labels signal in
  fold_left (assign_group rows) index signal.

(** The entry of a row once the groups [done] have been assigned. *)
Definition assigned (rows : list (L * option Qc)) (done : list L)
    (r : L * option Qc) : option Qc :=
  if existsb (label_eqb (fst r)) done
  then osub (snd r) (group_mean rows (fst r))
  else snd r.

Lemma assign_group_assigned rows done g :
  assign_group rows (map (assigned rows done) rows) g
  = map (assigned rows (g :: done)) rows.
Proof.
  unfold assign_group. rewrite combine_map_self, map_map.
  apply map_ext. intros [l x]. unfold assigned. cbn [fst snd existsb].
  destruct (label_eqb l g) eqn:E; [|reflexivity].
  apply label_eqb_spec in E. subst l. reflexivity.
Qed.

Lemma fold_assign_group rows index :
  forall done,
    fold_left (assign_group rows) index (map (assigned rows done) rows)
    = map (assigned rows (rev index ++ done)) rows.
Proof.
  induction index as [|g index IH]; intro done; simpl; [reflexivity|].
  rewrite assign_group_assigned, IH, <- app_assoc. reflexivity.
Qed.

Lemma neutralize_by_groups_rows index labels signal :
  List.length labels = List.length signal ->
  (forall l, In l labels -> In l index) ->
  neutralize_by_groups index labels signal
  = map (fun r => osub (snd r) (group_mean (combine labels signal) (fst r)))
        (combine labels signal).
Proof.
  intros Hlen Hcov. unfold neutralize_by_groups.
  set (rows := combine labels signal).
  assert (signal = map (assigned rows []) rows) as E.
  { transitivity (map snd rows).
    - symmetry. now apply map_snd_combine.
    - apply map_ext. reflexivity. }
  rewrite E at 1. rewrite fold_assign_group.
  apply map_ext_in. intros [l x] Hin. unfold assigned. cbn [fst snd].
  assert (existsb (label_eqb l) (rev index ++ []) = true) as ->; [|reflexivity].
  apply existsb_exists. exists l. split; [|now apply label_eqb_spec].
  rewrite app_nil_r, <- in_rev. apply Hcov.
  unfold rows in Hin. now apply in_combine_l in Hin.
Qed.

Lemma group_values_shifted (M : L -> option Qc) rs g :
  group_values (map (fun r => (fst r, osub (snd r) (M (fst r)))) rs) g
  = match M g with
    | Some m => map (fun x => x - m) (group_values rs g)
    | None => []
    end.
Proof.
  unfold group_values.
  induction rs as [|[l o] rs IH]; simpl.
  - now destruct (M g).
  - rewrite IH. destruct (label_eqb l g) eqn:E.
    + apply label_eqb_spec in E. subst l.
      destruct (M g) as [m|], o as [x|]; reflexivity.
    + now destruct (M g).
Qed.

(** Whatever the labels, the result has the length of the signal and the
    numbers left in each group sum to zero. *)
Lemma neutralize_by_groups_zero index labels signal :
  List.length labels = List.length signal ->
  (forall l, In l labels -> In l index) ->
  let out := neutralize_by_groups index labels signal in
  List.length out = List.length signal
  /\ forall g, sum (group_values (combine labels out) g) = 0.
Proof.
  intros Hlen Hcov out. unfold out.
  rewrite (neutralize_by_groups_rows index labels signal Hlen Hcov).
  set (rows := combine labels signal).
  split.
  - rewrite length_map. unfold rows. rewrite length_combine. lia.
  - intro g.
    assert (labels = map fst rows) as El
      by (unfold rows; now rewrite (map_fst_combine labels signal Hlen)).
    rewrite El at 1.
    assert (forall (f : L * option Qc -> option Qc) (l : list (L * option Qc)),
              combine (map fst l) (map f l) = map (fun r => (fst r, f r)) l) as C.
    { intros f l. induction l as [|r l IH]; simpl; [reflexivity | now rewrite IH]. }
    rewrite C, (group_values_shifted (group_mean rows) rows g).
    unfold group_mean. destruct (group_values rows g) as [|v vs] eqn:E.
    + apply sum_nil.
    + apply sum_centered. discriminate.
Qed.

End Groups.

(** [neutralize_by_sector], given the sector it draws at random for each
    position of the signal.  pandas lists the group keys sorted; each key
    is visited once and the masks are disjoint, so the order is
    immaterial. *)
Definition neutralize_by_sector (sectors : list string) (signal : series)
    : series :=
  neutralize_by_groups string String.eqb (nodup string_dec sectors) sectors signal.

(** [neutralize_by_size], given the size quintile that [pd.qcut] makes of
    its random draws for each position.  On fewer than two positions the
    five bin edges coincide and [pd.qcut] raises (its message goes on to
    list the edges). *)
Definition neutralize_by_size (size_quintiles : list nat) (signal : series)
    : result series :=
  if (List.length signal <? 2)%nat
  then Raise (ValueError "Bin edges must be unique")
  else Ok (neutralize_by_groups nat Nat.eqb (nodup Nat.eq_dec size_quintiles)
             size_quintiles signal).

(** Whichever sectors and size quintiles are drawn, the signal neutralized
    by sector is as long as the signal and its numbers sum to zero within
    every sector; on a signal of two positions or more the same holds of
    the signal neutralized by size, within every quintile. *)
Theorem neutralized_groups_sum_to_zero :
  forall (signal : series) (sectors : list string) (size_quintiles : list nat),
    List.length sectors = List.length signal ->
    List.length size_quintiles = List.length signal ->
    (List.length (neutralize_by_sector sectors signal) = List.length signal
     /\ forall g,
          sum (group_values string String.eqb
                 (combine sectors (neutralize_by_sector sectors signal)) g) = 0)
    /\ ((2 <= List.length signal)%nat ->
        exists out,
          neutralize_by_size size_quintiles signal = Ok out
          /\ List.length out = List.length signal
          /\ forall q,
               sum (group_values nat Nat.eqb (combine size_quintiles out) q) = 0).
Proof.
  intros signal sectors quintiles H1 H2. split.
  - apply (neutralize_by_groups_zero string String.eqb String.eqb_eq); [exact H1|].
    intros l Hl. now apply nodup_In.
  - intro Hlen. unfold neutralize_by_size.
    assert ((List.length signal <? 2)%nat = false) as ->
      by (apply Nat.ltb_ge; exact Hlen).
    eexists. split; [reflexivity|].
    apply (neutralize_by_groups_zero nat Nat.eqb Nat.eqb_eq); [exact H2|].
    intros l Hl. now apply nodup_In.
Qed.

Lemma neutralized_groups_sum_to_zero_witness :
  let signal := [Some 1; Some (dec 3 1); None; Some (dec 5 1)] in
  let sectors := ["Technology"; "Finance"; "Finance"; "Technology"]%string in
  let size_quintiles := [0; 4; 2; 0]%nat in
  (List.length (neutralize_by_sector sectors signal) = List.length signal
   /\ forall g,
        sum (group_values string String.eqb
               (combine sectors (neutralize_by_sector sectors signal)) g) = 0)
  /\ exists out,
       neutralize_by_size size_quintiles signal = Ok out
       /\ List.length out = List.length signal
       /\ forall q,
            sum (group_values nat Nat.eqb (combine size_quintiles out) q) = 0.
Proof.
  destruct (neutralized_groups_sum_to_zero
              [Some 1; Some (dec 3 1); None; Some (dec 5 1)]
              ["Technology"; "Finance"; "Finance"; "Technology"]%string
              [0; 4; 2; 0]%nat eq_refl eq_refl) as [A B].
  split; [exact A|]. apply B. simpl. lia.
Defined.

(** *** Signal concentration *)

(** [calculate_concentration]: the NaN entries drop out of both sums; a
    signal whose absolute values sum to zero gives only NaN weights,
    whose sum is 0. *)
Definition calculate_concentration (signal : series) : Qc :=
  let magnitudes := map Qcabs (dropna signal) in
  let total := sum magnitudes in
  if eqb total 0 then 0
  else sum (map (fun a => (a / total) * (a / total)) magnitudes).

Lemma sum_squares_le_sum l :
  Forall (fun w => 0 <= w /\ w <= 1) l -> sum (map (fun w => w * w) l) <= sum l.
Proof.
  induction 1 as [|w l [H0 H1] _ IH]; simpl.
  - apply Qcle_refl.
  - rewrite !sum_cons. qc_nra.
Qed.

Lemma sum_squares_centered c l :
  sum (map (fun w => (w - c) * (w - c)) l)
  = sum (map (fun w => w * w) l) - (1 + 1) * c * sum l
    + of_nat (List.length l) * c * c.
Proof.
  induction l as [|w l IH]; simpl List.length; simpl map.
  - rewrite !sum_nil. change (of_nat 0) with 0. ring.
  - rewrite !sum_cons, IH, of_nat_S. ring.
Qed.

Lemma sum_squares_nonneg (f : Qc -> Qc) l : 0 <= sum (map (fun w => f w * f w) l).
Proof.
  induction l as [|w l IH]; simpl.
  - apply Qcle_refl.
  - rewrite sum_cons. set (a := f w) in *. clearbody a. qc_nra.
Qed.

Lemma abs_part_le_sum l a :
  In a (map Qcabs l) -> 0 <= a /\ a <= sum (map Qcabs l).
Proof.
  induction l as [|x l IH]; intros []; simpl map; rewrite sum_cons.
  - subst a. pose proof (Qcabs_nonneg x).
    assert (0 <= sum (map Qcabs l)).
    { clear. induction l as [|y l IH]; simpl; [apply Qcle_refl|].
      rewrite sum_cons. pose proof (Qcabs_nonneg y). qc_lra. }
    split; [assumption | qc_lra].
  - destruct (IH H) as [H0 H1]. pose proof (Qcabs_nonneg x).
    split; [assumption | qc_lra].
Qed.

(** The concentration of a signal with [n] numbers, not all zero, lies
    between [1 / n] and 1. *)
Theorem concentration_bounds :
  forall signal : series,
    sum (map Qcabs (dropna signal)) <> 0 ->
    let n := of_nat (List.length (dropna signal)) in
    1 <= n * calculate_concentration signal
    /\ calculate_concentration signal <= 1.
Proof.
  intros signal NZ n. unfold calculate_concentration.
  set (mags := map Qcabs (dropna signal)) in *.
  set (total := sum mags) in *.
  assert (eqb total 0 = false) as ->.
  { destruct (eqb total 0) eqn:E; [|reflexivity].
    apply eqb_eq in E. contradiction. }
  set (ws := map (fun a => a / total) mags).
  assert (map (fun a => a / total * (a / total)) mags
          = map (fun w => w * w) ws) as -> by (unfold ws; now rewrite map_map).
  assert (sum ws = 1) as S.
  { unfold ws. clear -NZ. 
    assert (forall l, sum (map (fun a => a / total) l) = sum l / total) as D.
    { induction l as [|x l IH]; simpl.
      - rewrite sum_nil. unfold Qcdiv. ring.
      - rewrite !sum_cons, IH. unfold Qcdiv. ring. }
    rewrite D. fold total. field. exact NZ. }
  assert (List.length ws = List.length (dropna signal)) as Lw
    by (unfold ws, mags; now rewrite !length_map).
  assert (0 < total) as Tpos.
  { assert (0 <= total) as T0.
    { unfold total, mags. clear. induction (dropna signal) as [|y l IH]; simpl;
        [apply Qcle_refl|].
      rewrite sum_cons. pose proof (Qcabs_nonneg y). qc_lra. }
    destruct (Qcle_lt_or_eq _ _ T0) as [H|H]; [exact H | now symmetry in H]. }
  split.
  - assert (0 < n) as Npos.
    { unfold n. rewrite <- Lw. apply of_nat_pos.
      destruct ws; [|simpl; lia]. rewrite sum_nil in S.
      apply eqb_eq in S. vm_compute in S. discriminate S. }
    assert (n * / n = 1) as E.
    { field. intro Z. rewrite Z in Npos.
      exact (Qclt_not_le _ _ Npos (Qcle_refl 0)). }
    pose proof (sum_squares_centered (/ n) ws) as C.
    pose proof (sum_squares_nonneg (fun w => w - / n) ws) as P.
    cbv beta in P. rewrite C, S, Lw in P. fold n in P.
    set (h := sum (map (fun w => w * w) ws)) in *. clearbody h.
    set (c := / n) in *. clearbody c. clearbody n.
    assert (n * c * c = c) as E2 by (rewrite E; ring).
    rewrite E2 in P. qc_nra.
  - rewrite <- S. apply sum_squares_le_sum.
    apply Forall_forall. intros w Hw. unfold ws in Hw.
    apply in_map_iff in Hw. destruct Hw as [a [<- Ha]].
    destruct (abs_part_le_sum (dropna signal) a Ha) as [A0 A1].
    fold mags in A1. fold total in A1.
    assert (a / total * total = a) as E by (field; exact NZ).
    set (q := a / total) in *. clearbody q. split; qc_nra.
Qed.

Lemma concentration_bounds_witness :
  let n := of_nat (List.length (dropna [Some 1; None; Some (dec (-3) 1)])) in
  1 <= n * calculate_concentration [Some 1; None; Some (dec (-3) 1)]
  /\ calculate_concentration [Some 1; None; Some (dec (-3) 1)] <= 1.
Proof.
  apply (concentration_bounds [Some 1; None; Some (dec (-3) 1)]).
  intro H. apply eqb_eq in H. vm_compute in H. discriminate H.
Defined.

End Factor.

(** ** Order slicing ([order_engine.py]) *)

Module OrderEngine.
Import Num Py.
Local Open Scope Qc_scope.
Local Open Scope list_scope.

(** A [datetime] and a [timedelta] are counts of microseconds. *)
Definition datetime := Z.
Definition timedelta := Z.

Definition us_per_hour : positive := 3600000000.
Definition timedelta_hours (h : Z) : timedelta := (h * Z.pos us_per_hour)%Z.
Definition timedelta_minutes (m : Z) : timedelta := (m * 60000000)%Z.

(** [td.total_seconds() / 3600] *)
Definition hours (td : timedelta) : Qc := Q2Qc (td # us_per_hour).

(** [order_params]: each entry may be absent. *)
Record order_params := {
  start_time : option datetime;
  end_time : option datetime;
  slice_duration : option timedelta
}.

Record slice := {
  slice_number : nat;            (* the [i + 1] of ['slice_<i+1>'] *)
  slice_start : datetime;
  slice_end : datetime;
  volume_multiplier : Qc;
  trades : Dict.t Qc
}.

Definition calculate_volume_multiplier (slice_time start_time end_time : datetime)
    : Qc :=
  let total_duration := hours (end_time - start_time)%Z in
  let elapsed_hours := hours (slice_time - start_time)%Z in
  if ltb elapsed_hours 1 || gtb elapsed_hours (total_duration - 1)
  then dec 15 10
  else dec 7 10.

(** The window after the defaults are filled in. *)
Definition window (now : datetime) (p : order_params)
    : datetime * datetime * timedelta :=
  let start := match start_time p with Some t => t | None => now end in
  let stop := match end_time p with
              | Some t => t
              | None => (start + timedelta_hours 6)%Z
              end in
  let step := match slice_duration p with
              | Some d => d
              | None => timedelta_minutes 30
              end in
  (start, stop, step).

(** [int(total_duration / slice_duration)]; dividing by a zero duration
    raises. *)
Definition num_slices (now : datetime) (p : order_params) : result Z :=
  let '(start, stop, step) := window now p in
  if (step =? 0)%Z then Raise ZeroDivisionError
  else Ok (Z.quot (stop - start)%Z step).

(** The minimum slice size. *)
Definition min_slice : Qc := dec 100 1.

(** The inner loop: the part of each required trade that goes in a slice
    of the given multiplier. *)
Definition slice_trades (required_trades : Dict.t Qc) (multiplier : Qc) (n : Z)
    : Dict.t Qc :=
  fold_left (fun acc '(symbol, trade_value) =>
               let slice_trade_value := trade_value * multiplier / of_Z n in
               if gtb (Qcabs slice_trade_value) min_slice
               then Dict.set acc symbol slice_trade_value
               else acc)
            required_trades [].

Definition vwap_slice (required_trades : Dict.t Qc)
    (start stop : datetime) (step : timedelta) (n : Z) (i : nat) : slice :=
  let slice_start := (start + Z.of_nat i * step)%Z in
  let m := calculate_volume_multiplier slice_start start stop in
  {| slice_number := i + 1;
     slice_start := slice_start;
     slice_end := (slice_start + step)%Z;
     volume_multiplier := m;
     trades := slice_trades required_trades m n |}.

Definition generate_vwap_slices (now : datetime)
    (required_trades : Dict.t Qc) (p : order_params) : result (list slice) :=
  let '(start, stop, step) := window now p in
  bind (num_slices now p) (fun n =>
    Ok (map (vwap_slice required_trades start stop step n)
            (seq 0 (Z.to_nat n)))).

Definition twap_slice (required_trades : Dict.t Qc)
    (start : datetime) (step : timedelta) (n : Z) (i : nat) : slice :=
  let slice_start := (start + Z.of_nat i * step)%Z in
  {| slice_number := i + 1;
     slice_start := slice_start;
     slice_end := (slice_start + step)%Z;
     volume_multiplier := 1;
     trades :=
       fold_left (fun acc '(symbol, trade_value) =>
                    let slice_trade_value := trade_value / of_Z n in
                    if gtb (Qcabs slice_trade_value) min_slice
                    then Dict.set acc symbol slice_trade_value
                    else acc)
                 required_trades [] |}.

Definition generate_twap_slices (now : datetime)
    (required_trades : Dict.t Qc) (p : order_params) : result (list slice) :=
  let '(start, stop, step) := window now p in
  bind (num_slices now p) (fun n =>
    Ok (map (twap_slice required_trades start step n) (seq 0 (Z.to_nat n)))).

(** The values generated for one symbol, slice after slice. *)
Definition symbol_values (symbol : string) (slices : list slice) : list Qc :=
  flat_map (fun sl => match Dict.get (trades sl) symbol with
                      | Some v => [v]
                      | None => []
                      end) slices.

(** The slices that carry a value for the symbol. *)
Definition slices_of (symbol : string) (slices : list slice) : list slice :=
  filter (fun sl => Dict.mem (trades sl) symbol) slices.

(** *** What a VWAP slice holds for a symbol *)

Definition vwap_value (v multiplier : Qc) (n : Z) : Qc := v * multiplier / of_Z n.

Lemma slice_trades_fold (items : Dict.t Qc) m n :
  Dict.ok items ->
  forall (acc : Dict.t Qc) s,
    Dict.get
      (fold_left (fun acc '(symbol, trade_value) =>
                    let slice_trade_value := trade_value * m / of_Z n in
                    if gtb (Qcabs slice_trade_value) min_slice
                    then Dict.set acc symbol slice_trade_value
                    else acc) items acc) s
    = match Dict.get items s with
      | Some v => if gtb (Qcabs (vwap_value v m n)) min_slice
                  then Some (vwap_value v m n) else Dict.get acc s
      | None => Dict.get acc s
      end.
Proof.
  unfold Dict.ok. rewrite Dict.dict_nodupb_NoDup.
  induction items as [|[k v] items IH]; intros Hnd acc s; simpl; [reflexivity|].
  inversion Hnd as [|? ? Hk Hrest]; subst.
  rewrite (IH Hrest). fold (vwap_value v m n).
  destruct (String.eqb s k) eqn:E.
  - apply String.eqb_eq in E. subst s.
    assert (Dict.get items k = None) as -> by now apply Dict.dict_get_None.
    destruct (gtb _ min_slice); [apply Dict.dict_get_set_same | reflexivity].
  - apply String.eqb_neq in E.
    assert (Dict.get (if gtb (Qcabs (vwap_value v m n)) min_slice
                      then Dict.set acc k (vwap_value v m n) else acc) s
            = Dict.get acc s) as ->.
    { destruct (gtb _ min_slice); [now apply Dict.dict_get_set_other | reflexivity]. }
    reflexivity.
Qed.

Lemma slice_trades_get required m n symbol v :
  Dict.ok required -> Dict.get required symbol = Some v ->
  Dict.get (slice_trades required m n) symbol
  = if gtb (Qcabs (vwap_value v m n)) min_slice
    then Some (vwap_value v m n) else None.
Proof.
  intros Hok Hget. unfold slice_trades.
  rewrite (slice_trades_fold required m n Hok). now rewrite Hget.
Qed.

Lemma symbol_values_sum symbol v n slices :
  Forall (fun sl =>
            Dict.get (trades sl) symbol
            = if gtb (Qcabs (vwap_value v (volume_multiplier sl) n)) min_slice
              then Some (vwap_value v (volume_multiplier sl) n) else None)
         slices ->
  sum (symbol_values symbol slices)
  = v * sum (map volume_multiplier (slices_of symbol slices)) / of_Z n.
Proof.
  induction 1 as [|sl slices Hsl _ IH]; simpl.
  - rewrite sum_nil. unfold Qcdiv. ring.
  - rewrite sum_app, IH. unfold Dict.mem. rewrite Hsl.
    destruct (gtb _ min_slice); simpl.
    + rewrite !sum_cons, sum_nil. unfold vwap_value, Qcdiv. ring.
    + rewrite sum_nil. ring.
Qed.

(** A VWAP slice holds, for a symbol, the trade value times the slice's
    volume multiplier over the number of slices, or nothing when that is
    at most 100 in absolute value; the values for the symbol sum to the
    trade value times the sum of the kept slices' multipliers over the
    number of slices. *)
Lemma vwap_slices_sum :
  forall (now : datetime) (required_trades : Dict.t Qc) (p : order_params)
         (symbol : string) (v : Qc) (n : Z) (slices : list slice),
    Dict.ok required_trades ->
    Dict.get required_trades symbol = Some v ->
    num_slices now p = Ok n ->
    generate_vwap_slices now required_trades p = Ok slices ->
    (forall sl, In sl slices ->
       Dict.get (trades sl) symbol
       = if gtb (Qcabs (v * volume_multiplier sl / of_Z n)) min_slice
         then Some (v * volume_multiplier sl / of_Z n) else None)
    /\ sum (symbol_values symbol slices)
       = v * sum (map volume_multiplier (slices_of symbol slices)) / of_Z n.
Proof.
  intros now required p symbol v n slices Hok Hget Hn Hgen.
  unfold generate_vwap_slices in Hgen.
  destruct (window now p) as [[start stop] step].
  rewrite Hn in Hgen. simpl in Hgen. injection Hgen as <-.
  assert (forall sl,
            In sl (map (vwap_slice required start stop step n) (seq 0 (Z.to_nat n))) ->
            Dict.get (trades sl) symbol
            = if gtb (Qcabs (vwap_value v (volume_multiplier sl) n)) min_slice
              then Some (vwap_value v (volume_multiplier sl) n) else None) as H.
  { intros sl Hin. apply in_map_iff in Hin. destruct Hin as [i [<- _]].
    simpl. now apply slice_trades_get. }
  split; [exact H|].
  apply symbol_values_sum. now apply Forall_forall.
Qed.

(** A 100,000 buy of A over four one-hour slices. *)
Definition one_trade : Dict.t Qc := [("A"%string, dec 100000 1)].

Definition four_hours : order_params :=
  {| start_time := Some 0%Z;
     end_time := Some (timedelta_hours 4);
     slice_duration := Some (timedelta_hours 1) |}.

Definition values_eqb (l1 l2 : list Qc) : bool :=
  (List.length l1 =? List.length l2)%nat
  && forallb (fun '(a, b) => eqb a b) (combine l1 l2).

Example vwap_four_hours :
  match generate_vwap_slices 0%Z one_trade four_hours with
  | Ok slices =>
      values_eqb (symbol_values "A" slices)
        [dec 37500 1; dec 17500 1; dec 17500 1; dec 17500 1]
  | Raise _ => false
  end = true.
Proof. vm_compute. reflexivity. Qed.

(** [calculate_total_notional]: the notional the order is created with. *)
Definition calculate_total_notional (required_trades : Dict.t Qc) : Qc :=
  sum (map Qcabs (Dict.values required_trades)).

(** C6, on the 100,000 trade over four one-hour slices: the order is
    created with a total notional of 100,000 and TWAP schedules 100,000 in
    its four slices, but the four VWAP slices, each above the minimum
    slice size, add up to 90,000: the multipliers 1.5, 0.7, 0.7, 0.7 are
    applied and never normalized. *)
Theorem vwap_slices_fall_short :
  calculate_total_notional one_trade = dec 100000 1
  /\ match generate_twap_slices 0%Z one_trade four_hours,
           generate_vwap_slices 0%Z one_trade four_hours with
     | Ok twap, Ok vwap =>
         eqb (sum (symbol_values "A" twap)) (dec 100000 1)
         && eqb (sum (symbol_values "A" vwap)) (dec 90000 1)
         && (List.length (symbol_values "A" vwap) =? 4)%nat
         && forallb (fun v => gtb (Qcabs v) min_slice) (symbol_values "A" vwap)
     | _, _ => false
     end = true.
Proof. split; [apply eqb_eq|]; vm_compute; reflexivity. Qed.

(** *** The volume curve on four slices *)

Lemma hours_lt a b : hours a < hours b <-> (a < b)%Z.
Proof.
  unfold hours. to_Q. unfold Qlt, us_per_hour. simpl. lia.
Qed.

Lemma hours_one : hours (Z.pos us_per_hour) = 1.
Proof. apply eqb_eq. vm_compute. reflexivity. Qed.

Lemma hours_minus_one t : hours t - 1 = hours (t - Z.pos us_per_hour)%Z.
Proof.
  unfold hours. to_Q. unfold Qeq, Qminus, Qplus, Qopp, us_per_hour. simpl. lia.
Qed.

(** The test of [calculate_volume_multiplier] on microsecond counts. *)
Definition outer_slice (elapsed total : timedelta) : bool :=
  (elapsed <? Z.pos us_per_hour)%Z || (total - Z.pos us_per_hour <? elapsed)%Z.

Lemma volume_multiplier_cases slice_time start stop :
  calculate_volume_multiplier slice_time start stop
  = if outer_slice (slice_time - start)%Z (stop - start)%Z
    then dec 15 10 else dec 7 10.
Proof.
  unfold calculate_volume_multiplier, outer_slice, gtb.
  rewrite hours_minus_one, <- hours_one.
  set (e := (slice_time - start)%Z). set (t := (stop - start)%Z).
  assert (ltb (hours e) (hours (Z.pos us_per_hour)) = (e <? Z.pos us_per_hour)%Z) as ->.
  { destruct (e <? Z.pos us_per_hour)%Z eqn:E.
    - apply ltb_lt, hours_lt. now apply Z.ltb_lt.
    - apply ltb_false_le. apply Z.ltb_ge in E.
      apply Qcnot_lt_le. intro L. apply (proj1 (hours_lt _ _)) in L. lia. }
  assert (ltb (hours (t - Z.pos us_per_hour)%Z) (hours e)
          = (t - Z.pos us_per_hour <? e)%Z) as ->.
  { destruct (t - Z.pos us_per_hour <? e)%Z eqn:E.
    - apply ltb_lt, hours_lt. now apply Z.ltb_lt.
    - apply ltb_false_le. apply Z.ltb_ge in E.
      apply Qcnot_lt_le. intro L. apply (proj1 (hours_lt _ _)) in L. lia. }
  reflexivity.
Qed.

Lemma multiplier_lt_cases e1 t1 e2 t2 :
  (if outer_slice e1 t1 then dec 15 10 else dec 7 10)
  < (if outer_slice e2 t2 then dec 15 10 else dec 7 10) ->
  outer_slice e1 t1 = false /\ outer_slice e2 t2 = true.
Proof.
  destruct (outer_slice e1 t1), (outer_slice e2 t2); intro H;
    try (split; reflexivity);
    apply ltb_lt in H; vm_compute in H; discriminate H.
Qed.

(** Whatever the window, when it is cut in four slices the first and the
    last slice are never both above the two middle ones: a last slice in
    the high band puts the slices before it there too, or needs a window
    longer than four slices. *)
Lemma four_slices_never_u_shaped (start stop : datetime) (step : timedelta) :
  step <> 0%Z ->
  Z.quot (stop - start)%Z step = 4%Z ->
  let m i :=
    calculate_volume_multiplier (start + Z.of_nat i * step)%Z start stop in
  ~ (m 1%nat < m 0%nat /\ m 2%nat < m 0%nat /\ m 1%nat < m 3%nat /\ m 2%nat < m 3%nat).
Proof.
  intros Hstep Hq m [_ [_ [H13 H23]]]. unfold m in *.
  rewrite !volume_multiplier_cases in H13, H23.
  apply multiplier_lt_cases in H13. apply multiplier_lt_cases in H23.
  destruct H13 as [O1 O3]. destruct H23 as [O2 _].
  unfold outer_slice, us_per_hour in *.
  apply orb_false_iff in O1. destruct O1 as [A1 B1].
  apply orb_false_iff in O2. destruct O2 as [A2 B2].
  apply Z.ltb_ge in A1, B1, A2, B2.
  pose proof (Z.quot_rem' (stop - start)%Z step) as QR.
  pose proof (Z.rem_bound_pos_pos (stop - start)%Z step) as RB.
  rewrite Hq in QR.
  apply orb_true_iff in O3.
  destruct O3 as [O3|O3]; apply Z.ltb_lt in O3; lia.
Qed.

(** C7, on the 100,000 trade over four one-hour slices: TWAP gives four
    slices of 25,000; VWAP gives 37,500 then 17,500 three times, the
    multipliers being 1.5, 0.7, 0.7, 0.7: the last slice, which covers the
    last hour, is in the low band and is not larger than the middle
    ones. *)
Theorem four_hour_slices :
  match generate_twap_slices 0%Z one_trade four_hours,
        generate_vwap_slices 0%Z one_trade four_hours with
  | Ok twap, Ok vwap =>
      values_eqb (symbol_values "A" twap)
        [dec 25000 1; dec 25000 1; dec 25000 1; dec 25000 1]
      && values_eqb (symbol_values "A" vwap)
           [dec 37500 1; dec 17500 1; dec 17500 1; dec 17500 1]
      && values_eqb (map volume_multiplier vwap)
           [dec 15 10; dec 7 10; dec 7 10; dec 7 10]
  | _, _ => false
  end = true.
Proof. vm_compute. reflexivity. Qed.


(** *** TWAP slices, and how the slices cover the window *)

Lemma twap_trades_fold (items : Dict.t Qc) n :
  Dict.ok items ->
  forall (acc : Dict.t Qc) s,
    Dict.get
      (fold_left (fun acc '(symbol, trade_value) =>
                    let slice_trade_value := trade_value / of_Z n in
                    if gtb (Qcabs slice_trade_value) min_slice
                    then Dict.set acc symbol slice_trade_value
                    else acc) items acc) s
    = match Dict.get items s with
      | Some v => if gtb (Qcabs (v / of_Z n)) min_slice
                  then Some (v / of_Z n) else Dict.get acc s
      | None => Dict.get acc s
      end.
Proof.
  unfold Dict.ok. rewrite Dict.dict_nodupb_NoDup.
  induction items as [|[k v] items IH]; intros Hnd acc s; simpl; [reflexivity|].
  inversion Hnd as [|? ? Hk Hrest]; subst.
  rewrite (IH Hrest).
  destruct (String.eqb s k) eqn:E.
  - apply String.eqb_eq in E. subst s.
    assert (Dict.get items k = None) as -> by now apply Dict.dict_get_None.
    destruct (gtb _ min_slice); [apply Dict.dict_get_set_same | reflexivity].
  - apply String.eqb_neq in E.
    assert (Dict.get (if gtb (Qcabs (v / of_Z n)) min_slice
                      then Dict.set acc k (v / of_Z n) else acc) s
            = Dict.get acc s) as ->.
    { destruct (gtb _ min_slice); [now apply Dict.dict_get_set_other | reflexivity]. }
    reflexivity.
Qed.

Lemma twap_slice_get required start step n i symbol v :
  Dict.ok required -> Dict.get required symbol = Some v ->
  Dict.get (trades (twap_slice required start step n i)) symbol
  = if gtb (Qcabs (v / of_Z n)) min_slice then Some (v / of_Z n) else None.
Proof.
  intros Hok Hget. unfold twap_slice. cbn [trades].
  rewrite (twap_trades_fold required n Hok). now rewrite Hget.
Qed.

Lemma of_nat_to_nat n : (0 <= n)%Z -> of_nat (Z.to_nat n) = of_Z n.
Proof. intro H. unfold of_nat. now rewrite Z2Nat.id. Qed.

Lemma of_Z_pos n : (0 < n)%Z -> 0 < of_Z n.
Proof.
  intro H. unfold of_Z. to_Q. change 0%Q with (inject_Z 0).
  now rewrite <- Zlt_Qlt.
Qed.

Lemma of_nat_succ n : of_nat (S n) = of_nat n + 1.
Proof.
  unfold of_nat. rewrite Nat2Z.inj_succ. unfold Z.succ. to_Q.
  rewrite inject_Z_plus. change (inject_Z 1) with 1%Q. lra.
Qed.

(** TWAP is all or nothing for a symbol: when the trade value over the
    number of slices exceeds the minimum slice size of 100 in absolute
    value, every slice carries that amount and the slices sum to the
    trade value; otherwise no slice carries the symbol at all. *)
Theorem twap_slices_all_or_nothing :
  forall (now : datetime) (required_trades : Dict.t Qc) (p : order_params)
         (symbol : string) (v : Qc) (n : Z) (slices : list slice),
    Dict.ok required_trades ->
    Dict.get required_trades symbol = Some v ->
    num_slices now p = Ok n ->
    (0 < n)%Z ->
    generate_twap_slices now required_trades p = Ok slices ->
    List.length slices = Z.to_nat n
    /\ (min_slice < Qcabs (v / of_Z n) ->
        Forall (fun sl => Dict.get (trades sl) symbol = Some (v / of_Z n)) slices
        /\ sum (symbol_values symbol slices) = v)
    /\ (Qcabs (v / of_Z n) <= min_slice -> symbol_values symbol slices = []).
Proof.
  intros now required p symbol v n slices Hok Hget Hn Hpos Hgen.
  unfold generate_twap_slices in Hgen.
  destruct (window now p) as [[start stop] step].
  rewrite Hn in Hgen. simpl in Hgen. injection Hgen as <-.
  split; [now rewrite length_map, length_seq|].
  set (l := seq 0 (Z.to_nat n)).
  assert (List.length l = Z.to_nat n) as Hl by apply length_seq.
  clearbody l. split.
  - intro Big. apply gtb_gt in Big. split.
    + apply Forall_forall. intros sl Hin.
      apply in_map_iff in Hin. destruct Hin as [i [<- _]].
      rewrite (twap_slice_get required start step n i symbol v Hok Hget).
      now rewrite Big.
    + assert (sum (symbol_values symbol (map (twap_slice required start step n) l))
              = of_nat (List.length l) * (v / of_Z n)) as ->.
      { clear Hl. unfold symbol_values.
        induction l as [|i l IH]; cbn [List.length map flat_map].
        - rewrite sum_nil. change (of_nat 0) with 0. ring.
        - rewrite (twap_slice_get required start step n i symbol v Hok Hget), Big.
          rewrite sum_app, sum_cons, sum_nil, IH, of_nat_succ. ring. }
      rewrite Hl, of_nat_to_nat by lia.
      pose proof (of_Z_pos n Hpos) as P. field.
      intro Z. rewrite Z in P. exact (Qclt_not_le _ _ P (Qcle_refl 0)).
  - intro Small. apply ltb_false_le in Small. fold (gtb (Qcabs (v / of_Z n)) min_slice) in Small.
    clear Hl. unfold symbol_values.
    induction l as [|i l IH]; cbn [map flat_map]; [reflexivity|].
    rewrite (twap_slice_get required start step n i symbol v Hok Hget), Small.
    exact IH.
Qed.

Lemma twap_slices_all_or_nothing_witness :
  let slices :=
    match generate_twap_slices 0%Z one_trade four_hours with
    | Ok slices => slices
    | Raise _ => []
    end in
  List.length slices = Z.to_nat 4
  /\ (min_slice < Qcabs (dec 100000 1 / of_Z 4) ->
      Forall (fun sl => Dict.get (trades sl) "A" = Some (dec 100000 1 / of_Z 4))
        slices
      /\ sum (symbol_values "A" slices) = dec 100000 1)
  /\ (Qcabs (dec 100000 1 / of_Z 4) <= min_slice -> symbol_values "A" slices = []).
Proof.
  apply (twap_slices_all_or_nothing 0%Z one_trade four_hours "A"%string
           (dec 100000 1) 4%Z).
  - reflexivity.
  - reflexivity.
  - reflexivity.
  - reflexivity.
  - vm_compute. reflexivity.
Defined.

(** The slices of either algorithm are numbered from 1, start at the
    start of the window, follow one another without gap or overlap, and,
    when the slice duration is positive and the window does not end
    before it starts, none runs past the end of the window. *)
Theorem slices_tile_window :
  forall (now : datetime) (required_trades : Dict.t Qc) (p : order_params)
         (start stop : datetime) (step : timedelta) (n : Z)
         (slices : list slice),
    window now p = (start, stop, step) ->
    num_slices now p = Ok n ->
    generate_vwap_slices now required_trades p = Ok slices
    \/ generate_twap_slices now required_trades p = Ok slices ->
    List.length slices = Z.to_nat n
    /\ forall i sl,
         nth_error slices i = Some sl ->
         slice_number sl = (i + 1)%nat
         /\ slice_start sl = (start + Z.of_nat i * step)%Z
         /\ slice_end sl = (start + Z.of_nat (i + 1) * step)%Z
         /\ ((0 < step)%Z -> (start <= stop)%Z -> (slice_end sl <= stop)%Z).
Proof.
  intros now required p start stop step n slices Hw Hn Hgen.
  assert (n = Z.quot (stop - start) step) as Hq.
  { unfold num_slices in Hn. rewrite Hw in Hn.
    destruct (step =? 0)%Z; [discriminate | now injection Hn]. }
  assert (exists f,
            slices = map f (seq 0 (Z.to_nat n))
            /\ forall i, slice_number (f i) = (i + 1)%nat
                         /\ slice_start (f i) = (start + Z.of_nat i * step)%Z
                         /\ slice_end (f i)
                            = (start + Z.of_nat i * step + step)%Z)
    as [f [-> Hf]].
  { destruct Hgen as [Hgen|Hgen];
      [unfold generate_vwap_slices in Hgen | unfold generate_twap_slices in Hgen];
      rewrite Hw, Hn in Hgen; simpl in Hgen; injection Hgen as <-;
      eexists; (split; [reflexivity|]); intro i; repeat split. }
  split; [now rewrite length_map, length_seq|].
  intros i sl Hi.
  rewrite nth_error_map in Hi.
  destruct (nth_error (seq 0 (Z.to_nat n)) i) as [j|] eqn:E; [|discriminate].
  injection Hi as <-.
  assert (i < Z.to_nat n)%nat as Hlt.
  { assert (i < List.length (seq 0 (Z.to_nat n)))%nat as H
      by (apply nth_error_Some; congruence).
    now rewrite length_seq in H. }
  assert (j = i) as ->.
  { apply nth_error_nth with (d := 0%nat) in E. rewrite seq_nth in E by exact Hlt.
    lia. }
  destruct (Hf i) as [F1 [F2 F3]].
  split; [exact F1|]. split; [exact F2|]. split; [rewrite F3; lia|].
  intros Hstep Hwin. rewrite F3.
  pose proof (Z.quot_rem' (stop - start)%Z step) as QR.
  pose proof (Z.rem_bound_pos_pos (stop - start)%Z step) as RB.
  rewrite <- Hq in QR. nia.
Qed.

Lemma slices_tile_window_witness :
  let slices :=
    match generate_vwap_slices 0%Z one_trade four_hours with
    | Ok slices => slices
    | Raise _ => []
    end in
  List.length slices = Z.to_nat 4
  /\ forall i sl,
       nth_error slices i = Some sl ->
       slice_number sl = (i + 1)%nat
       /\ slice_start sl = (0 + Z.of_nat i * timedelta_hours 1)%Z
       /\ slice_end sl = (0 + Z.of_nat (i + 1) * timedelta_hours 1)%Z
       /\ ((0 < timedelta_hours 1)%Z -> (0 <= timedelta_hours 4)%Z ->
           (slice_end sl <= timedelta_hours 4)%Z).
Proof.
  apply (slices_tile_window 0%Z one_trade four_hours 0%Z (timedelta_hours 4)
           (timedelta_hours 1) 4%Z).
  - reflexivity.
  - reflexivity.
  - left. vm_compute. reflexivity.
Defined.


(** *** VWAP with the default window *)

Lemma multiplier_by_elapsed (start : datetime) (e t : timedelta) :
  calculate_volume_multiplier (start + e)%Z start (start + t)%Z
  = if outer_slice e t then dec 15 10 else dec 7 10.
Proof. rewrite volume_multiplier_cases, !Z.add_simpl_l. reflexivity. Qed.

Lemma vwap_symbol_values required start stop step n symbol v :
  Dict.ok required -> Dict.get required symbol = Some v ->
  forall l,
    symbol_values symbol (map (vwap_slice required start stop step n) l)
    = flat_map (fun i =>
        let m := calculate_volume_multiplier
                   (start + Z.of_nat i * step)%Z start stop in
        if gtb (Qcabs (vwap_value v m n)) min_slice
        then [vwap_value v m n] else []) l.
Proof.
  intros Hok Hget. unfold symbol_values.
  induction l as [|i l IH]; cbn [map flat_map]; [reflexivity|].
  rewrite IH. f_equal. unfold vwap_slice. cbn [trades].
  rewrite (slice_trades_get required _ n symbol v Hok Hget).
  now destruct (gtb _ min_slice).
Qed.

(** The parameters of an order that sets none: six hours from now, in
    slices of thirty minutes. *)
Definition default_params : order_params :=
  {| start_time := None; end_time := None; slice_duration := None |}.

Lemma outer_value v :
  vwap_value v (dec 15 10) 12 = v * dec 1 8.
Proof.
  unfold vwap_value, Qcdiv. rewrite <- Qcmult_assoc. f_equal; try qc_eval.
Qed.

Lemma inner_value v :
  vwap_value v (dec 7 10) 12 = v * dec 7 120.
Proof.
  unfold vwap_value, Qcdiv. rewrite <- Qcmult_assoc. f_equal; try qc_eval.
Qed.

(** With the default window, VWAP cuts the order in twelve slices, and a
    trade large enough for its smallest slice to pass the minimum size is
    executed at nine tenths of its value: the multipliers 1.5 (three
    slices) and 0.7 (nine slices) average 0.9, not 1. *)
Theorem default_vwap_executes_nine_tenths :
  forall (now : datetime) (required_trades : Dict.t Qc)
         (symbol : string) (v : Qc),
    Dict.ok required_trades ->
    Dict.get required_trades symbol = Some v ->
    min_slice < Qcabs (v * dec 7 10 / of_Z 12) ->
    exists slices,
      generate_vwap_slices now required_trades default_params = Ok slices
      /\ List.length slices = 12%nat
      /\ map volume_multiplier slices
         = [dec 15 10; dec 15 10; dec 7 10; dec 7 10; dec 7 10; dec 7 10;
            dec 7 10; dec 7 10; dec 7 10; dec 7 10; dec 7 10; dec 15 10]
      /\ sum (symbol_values symbol slices) = dec 9 10 * v.
Proof.
  intros now required symbol v Hok Hget Hbig.
  assert (num_slices now default_params = Ok 12%Z) as Hn.
  { unfold num_slices, window, default_params. cbn [start_time end_time slice_duration].
    rewrite Z.add_simpl_l. reflexivity. }
  unfold generate_vwap_slices.
  rewrite Hn. unfold window, default_params.
  cbn [start_time end_time slice_duration bind].
  eexists. split; [reflexivity|].
  change (Z.to_nat 12) with 12%nat.
  split; [reflexivity|].
  fold (vwap_value v (dec 7 10) 12) in Hbig. rewrite inner_value in Hbig.
  assert (min_slice < Qcabs (v * dec 1 8)) as Hbig'.
  { rewrite Qcabs_Qcmult in Hbig |- *.
    rewrite (Qcabs_pos (dec 7 120)) in Hbig by qc_eval.
    rewrite (Qcabs_pos (dec 1 8)) by qc_eval.
    pose proof (Qcabs_nonneg v) as A. unfold min_slice in *.
    set (a := Qcabs v) in *. clearbody a. qc_lra. }
  apply gtb_gt in Hbig, Hbig'.
  split.
  - cbn [seq map volume_multiplier vwap_slice].
    rewrite !multiplier_by_elapsed. reflexivity.
  - rewrite (vwap_symbol_values required _ _ _ 12 symbol v Hok Hget).
    cbn [seq flat_map]. cbv zeta.
    rewrite !multiplier_by_elapsed.
    repeat match goal with
    | |- context [outer_slice ?a ?b] =>
        let r := eval vm_compute in (outer_slice a b) in
        change (outer_slice a b) with r
    end.
    cbv iota. rewrite !outer_value, !inner_value, Hbig, Hbig'.
    cbn [app]. rewrite !sum_cons, sum_nil. qc_lra.
Qed.

Lemma default_vwap_executes_nine_tenths_witness :
  exists slices,
    generate_vwap_slices 0%Z one_trade default_params = Ok slices
    /\ List.length slices = 12%nat
    /\ map volume_multiplier slices
       = [dec 15 10; dec 15 10; dec 7 10; dec 7 10; dec 7 10; dec 7 10;
          dec 7 10; dec 7 10; dec 7 10; dec 7 10; dec 7 10; dec 15 10]
    /\ sum (symbol_values "A" slices) = dec 9 10 * dec 100000 1.
Proof.
  apply (default_vwap_executes_nine_tenths 0%Z one_trade "A"%string (dec 100000 1)).
  - reflexivity.
  - reflexivity.
  - apply ltb_lt. vm_compute. reflexivity.
Defined.


(** *** [calculate_required_trades] *)

(** The current portfolio: each position is a dictionary that may hold a
    ['market_value']. *)
Record current_portfolio := {
  cp_total_value : Qc;
  cp_positions : Dict.t (Dict.t Qc)
}.

(** The minimum trade size. *)
Definition min_trade : Qc := dec 1000 1.

Definition market_value_of (cp : current_portfolio) (symbol : string) : Qc :=
  Dict.get_default (Dict.get_default (cp_positions cp) symbol []) "market_value" 0.

(** The loop over [target_weights.items()], from the trades found so far. *)
Definition required_trades_from (cp : current_portfolio)
    (items : Dict.t Qc) (found : Dict.t Qc) : Dict.t Qc :=
  fold_left (fun found '(symbol, target_weight) =>
               let current_value := market_value_of cp symbol in
               let target_value := cp_total_value cp * target_weight in
               let trade_value := target_value - current_value in
               if gtb (Qcabs trade_value) min_trade
               then Dict.set found symbol trade_value
               else found)
            items found.

Definition calculate_required_trades (cp : current_portfolio)
    (target_weights : Dict.t Qc) : Dict.t Qc :=
  required_trades_from cp target_weights [].

Lemma required_trades_fold cp (items : Dict.t Qc) :
  Dict.ok items ->
  forall (acc : Dict.t Qc) s,
    Dict.get (required_trades_from cp items acc) s
    = match Dict.get items s with
      | Some w =>
          if gtb (Qcabs (cp_total_value cp * w - market_value_of cp s)) min_trade
          then Some (cp_total_value cp * w - market_value_of cp s)
          else Dict.get acc s
      | None => Dict.get acc s
      end.
Proof.
  unfold Dict.ok. rewrite Dict.dict_nodupb_NoDup.
  unfold required_trades_from.
  induction items as [|[k w] items IH]; intros Hnd acc s; simpl; [reflexivity|].
  inversion Hnd as [|? ? Hk Hrest]; subst.
  rewrite (IH Hrest).
  destruct (String.eqb s k) eqn:E.
  - apply String.eqb_eq in E. subst s.
    assert (Dict.get items k = None) as -> by now apply Dict.dict_get_None.
    destruct (gtb _ min_trade); [apply Dict.dict_get_set_same | reflexivity].
  - apply String.eqb_neq in E.
    destruct (gtb (Qcabs (cp_total_value cp * w - market_value_of cp k)) min_trade);
      [rewrite Dict.dict_get_set_other by exact E|]; reflexivity.
Qed.

(** A symbol is traded exactly when it has a target weight and the
    target value differs from the market value held by more than 1000;
    the trade is that difference.  So no trade is of 1000 or less, and a
    position without a target weight is never traded, however large. *)
Theorem required_trades_cases :
  forall (cp : current_portfolio) (target_weights : Dict.t Qc),
    Dict.ok target_weights ->
    forall s t,
      Dict.get (calculate_required_trades cp target_weights) s = Some t
      <-> exists w,
            Dict.get target_weights s = Some w
            /\ t = cp_total_value cp * w - market_value_of cp s
            /\ min_trade < Qcabs t.
Proof.
  intros cp tw Hok s t. unfold calculate_required_trades.
  rewrite (required_trades_fold cp tw Hok [] s). cbn [Dict.get].
  destruct (Dict.get tw s) as [w|].
  - destruct (gtb _ min_trade) eqn:G.
    + split.
      * intros [= <-]. exists w. repeat split. now apply gtb_gt.
      * intros [w' [[= <-] [-> _]]]. reflexivity.
    + split; [discriminate|].
      intros [w' [[= <-] [-> H]]]. apply gtb_gt in H. congruence.
  - split; [discriminate | intros [w' [H _]]; discriminate].
Qed.

Definition held_portfolio : current_portfolio :=
  {| cp_total_value := dec 1000000 1;
     cp_positions :=
       [("A"%string, [("weight"%string, dec 1 10);
                      ("market_value"%string, dec 100000 1)]);
        ("B"%string, [("weight"%string, dec 9 10);
                      ("market_value"%string, dec 900000 1)])] |}.

Lemma required_trades_cases_witness :
  Dict.get (calculate_required_trades held_portfolio [("A"%string, dec 5 10)]) "A"
  = Some (dec 400000 1)
  <-> exists w,
        Dict.get [("A"%string, dec 5 10)] "A" = Some w
        /\ dec 400000 1 = cp_total_value held_portfolio * w
                          - market_value_of held_portfolio "A"
        /\ min_trade < Qcabs (dec 400000 1).
Proof.
  apply (required_trades_cases held_portfolio [("A"%string, dec 5 10)]).
  reflexivity.
Defined.


(** *** Simulated execution and the order summary *)

Record execution := {
  quantity : Qc;
  avg_price : Qc;
  commission : Qc
}.

(** The totals of the loop: quantity, value, commission. *)
Definition totals := (Qc * Qc * Qc)%type.

Fixpoint execute_trades (items : Dict.t Qc) (prices : Dict.t Qc) (acc : totals)
    : result totals :=
  match items with
  | [] => Ok acc
  | (symbol, trade_value) :: rest =>
      match Dict.get prices symbol with
      | Some price =>
          if eqb price 0 then Raise ZeroDivisionError
          else
            let '(total_quantity, total_value, total_commission) := acc in
            let quantity := trade_value / price in
            let commission := Qcabs trade_value * dec 1 1000 in
            execute_trades rest prices
              (total_quantity + Qcabs quantity,
               total_value + Qcabs trade_value,
               total_commission + commission)
      | None => execute_trades rest prices acc
      end
  end.

Definition simulate_execution (slice_trades : Dict.t Qc) (prices : Dict.t Qc)
    : result execution :=
  bind (execute_trades slice_trades prices (0, 0, 0))
       (fun '(total_quantity, total_value, total_commission) =>
          Ok {| quantity := total_quantity;
                avg_price := if gtb total_quantity 0
                             then total_value / total_quantity else 0;
                commission := total_commission |}).

Lemma abs_quotient_times v p : 0 < p -> Qcabs (v / p) * p = Qcabs v.
Proof.
  intro Hp. rewrite <- (Qcabs_pos p) at 2 by now apply Qclt_le_weak.
  rewrite <- Qcabs_Qcmult. f_equal. field.
  intro Z. rewrite Z in Hp. exact (Qclt_not_le _ _ Hp (Qcle_refl 0)).
Qed.

Lemma execute_trades_bounds prices m M items :
  0 < m ->
  (forall s v p, In (s, v) items -> Dict.get prices s = Some p ->
                 m <= p /\ p <= M) ->
  forall q val com,
    0 <= q -> m * q <= val -> val <= M * q -> com = val * dec 1 1000 ->
    exists q' val' com',
      execute_trades items prices (q, val, com) = Ok (q', val', com')
      /\ 0 <= q' /\ m * q' <= val' /\ val' <= M * q'
      /\ com' = val' * dec 1 1000.
Proof.
  intro Hm. induction items as [|[s v] items IH]; intros Hb q val com Hq H1 H2 Hc.
  - exists q, val, com. simpl. auto.
  - simpl. destruct (Dict.get prices s) as [p|] eqn:E.
    + destruct (Hb s v p (or_introl eq_refl) E) as [Pm PM].
      assert (0 < p) as Pp by (apply Qclt_le_trans with m; assumption).
      assert (eqb p 0 = false) as ->.
      { destruct (eqb p 0) eqn:Z; [|reflexivity]. apply eqb_eq in Z.
        rewrite Z in Pp. exfalso. exact (Qclt_not_le _ _ Pp (Qcle_refl 0)). }
      pose proof (abs_quotient_times v p Pp) as A.
      pose proof (Qcabs_nonneg (v / p)) as N.
      set (a := Qcabs (v / p)) in *. clearbody a.
      apply IH.
      * intros s' v' p' Hin G. apply (Hb s' v' p'); [now right | exact G].
      * qc_lra.
      * rewrite <- A. qc_nra.
      * rewrite <- A. qc_nra.
      * rewrite Hc. ring.
    + apply IH; try assumption.
      intros s' v' p' Hin G. apply (Hb s' v' p'); [now right | exact G].
Qed.

(** When the prices of the traded symbols are positive, the simulated
    execution succeeds; its commission is one thousandth of average price
    times quantity, and its average price lies within any bounds on
    those prices, unless nothing was executed. *)
Theorem execution_price_within_bounds :
  forall (slice_trades prices : Dict.t Qc) (m M : Qc),
    0 < m ->
    (forall s v p, In (s, v) slice_trades -> Dict.get prices s = Some p ->
                   m <= p /\ p <= M) ->
    exists r,
      simulate_execution slice_trades prices = Ok r
      /\ 0 <= quantity r
      /\ commission r = avg_price r * quantity r * dec 1 1000
      /\ (0 < quantity r -> m <= avg_price r /\ avg_price r <= M).
Proof.
  intros items prices m M Hm Hb.
  destruct (execute_trades_bounds prices m M items Hm Hb 0 0 0)
    as [q [val [com [E [Hq [H1 [H2 Hc]]]]]]];
    [apply Qcle_refl | qc_lra | qc_lra | ring |].
  unfold simulate_execution. rewrite E. cbn [bind].
  eexists. split; [reflexivity|]. cbn [quantity avg_price commission].
  split; [exact Hq|].
  destruct (gtb q 0) eqn:G.
  - apply gtb_gt in G.
    assert (val / q * q = val) as D.
    { field. intro Z. rewrite Z in G. exact (Qclt_not_le _ _ G (Qcle_refl 0)). }
    split; [rewrite D; exact Hc|].
    intros _. set (a := val / q) in *. clearbody a. split; qc_nra.
  - apply ltb_false_le in G.
    assert (q = 0) as -> by qc_lra.
    assert (val = 0) as -> by qc_lra.
    split; [rewrite Hc; ring|].
    intro H. exfalso. exact (Qclt_not_le _ _ H (Qcle_refl 0)).
Qed.

Lemma execution_price_within_bounds_witness :
  exists r,
    simulate_execution [("A"%string, dec 25000 1); ("B"%string, dec (-5000) 1)]
      [("A"%string, dec 100 1); ("B"%string, dec 50 1)] = Ok r
    /\ 0 <= quantity r
    /\ commission r = avg_price r * quantity r * dec 1 1000
    /\ (0 < quantity r -> dec 50 1 <= avg_price r /\ avg_price r <= dec 100 1).
Proof.
  apply (execution_price_within_bounds
           [("A"%string, dec 25000 1); ("B"%string, dec (-5000) 1)]
           [("A"%string, dec 100 1); ("B"%string, dec 50 1)]
           (dec 50 1) (dec 100 1)).
  - apply ltb_lt. vm_compute. reflexivity.
  - intros s v p [H|[H|[]]] G; injection H as <- <-;
      vm_compute in G; injection G as <-;
      split; apply leb_le; vm_compute; reflexivity.
Defined.

(** The ['execution_summary'] of an order. *)
Record summary := {
  executed_slices : Z;
  total_executed : Qc;
  total_commission : Qc;
  avg_execution_price : Qc
}.

(** The summary of a newly created order. *)
Definition new_summary : summary :=
  {| executed_slices := 0; total_executed := 0; total_commission := 0;
     avg_execution_price := 0 |}.

Definition update_order_summary (s : summary) (r : execution) : summary :=
  let n := (executed_slices s + 1)%Z in
  let executed := total_executed s + quantity r in
  {| executed_slices := n;
     total_executed := executed;
     total_commission := total_commission s + commission r;
     avg_execution_price :=
       if gtb executed 0
       then (avg_execution_price s * of_Z (n - 1) + avg_price r) / of_Z n
       else avg_execution_price s |}.

Lemma of_Z_succ n : of_Z (n + 1) = of_Z n + 1.
Proof.
  unfold of_Z. to_Q. rewrite inject_Z_plus. change (inject_Z 1) with 1%Q. lra.
Qed.

Lemma update_order_summary_fold results :
  Forall (fun r => 0 < quantity r) results ->
  forall s,
    (0 <= executed_slices s)%Z -> 0 <= total_executed s ->
    let s' := fold_left update_order_summary results s in
    executed_slices s' = (executed_slices s + Z.of_nat (List.length results))%Z
    /\ total_executed s' = total_executed s + sum (map quantity results)
    /\ total_commission s' = total_commission s + sum (map commission results)
    /\ avg_execution_price s' * of_Z (executed_slices s')
       = avg_execution_price s * of_Z (executed_slices s)
         + sum (map avg_price results).
Proof.
  induction 1 as [|r results Hr _ IH]; intros s Hn Ht.
  - simpl. rewrite !sum_nil, Z.add_0_r. repeat split; ring.
  - cbn [fold_left]. set (s1 := update_order_summary s r).
    assert (0 < total_executed s1) as Ht1.
    { unfold s1, update_order_summary. cbn [total_executed]. qc_lra. }
    destruct (IH s1) as [I1 [I2 [I3 I4]]].
    + unfold s1. cbn [executed_slices update_order_summary]. lia.
    + now apply Qclt_le_weak.
    + assert (avg_execution_price s1 * of_Z (executed_slices s1)
              = avg_execution_price s * of_Z (executed_slices s) + avg_price r) as A.
      { unfold s1, update_order_summary.
        cbn [avg_execution_price executed_slices total_executed].
        apply gtb_gt in Ht1. unfold s1, update_order_summary in Ht1.
        cbn [total_executed] in Ht1. rewrite Ht1.
        replace (executed_slices s + 1 - 1)%Z with (executed_slices s) by lia.
        assert (0 < of_Z (executed_slices s + 1)) as P by (apply of_Z_pos; lia).
        field. intro Z. rewrite Z in P. exact (Qclt_not_le _ _ P (Qcle_refl 0)). }
      cbv zeta. cbn [List.length map]. rewrite !sum_cons.
      split; [|split; [|split]].
      * rewrite I1. unfold s1. cbn [update_order_summary executed_slices]. lia.
      * rewrite I2. unfold s1. cbn [update_order_summary total_executed]. ring.
      * rewrite I3. unfold s1. cbn [update_order_summary total_commission]. ring.
      * rewrite I4, A. ring.
Qed.

(** After any number of executions of positive quantity, the summary of
    an order counts them, adds up their quantities and commissions, and
    holds as average execution price the plain mean of the slices'
    average prices, whatever their quantities. *)
Theorem order_summary_plain_mean :
  forall results : list execution,
    results <> [] ->
    Forall (fun r => 0 < quantity r) results ->
    let s := fold_left update_order_summary results new_summary in
    executed_slices s = Z.of_nat (List.length results)
    /\ total_executed s = sum (map quantity results)
    /\ total_commission s = sum (map commission results)
    /\ avg_execution_price s
       = sum (map avg_price results) / of_nat (List.length results).
Proof.
  intros results Hne Hq s.
  destruct (update_order_summary_fold results Hq new_summary)
    as [I1 [I2 [I3 I4]]]; [cbn; lia | apply Qcle_refl |].
  fold s in I1, I2, I3, I4. cbn [new_summary executed_slices total_executed
    total_commission avg_execution_price] in I1, I2, I3, I4.
  rewrite Z.add_0_l in I1.
  split; [exact I1|]. split; [rewrite I2; ring|]. split; [rewrite I3; ring|].
  rewrite I1 in I4. fold (of_nat (List.length results)) in I4.
  assert (0 < of_nat (List.length results)) as P.
  { unfold of_nat. apply of_Z_pos. destruct results; [congruence | simpl; lia]. }
  assert (sum (map avg_price results)
          = avg_execution_price s * of_nat (List.length results)) as ->
    by (rewrite I4; ring).
  field. intro Z. rewrite Z in P. exact (Qclt_not_le _ _ P (Qcle_refl 0)).
Qed.

Lemma order_summary_plain_mean_witness :
  let results :=
    [ {| quantity := dec 10 1; avg_price := dec 100 1; commission := 1 |};
      {| quantity := dec 1000 1; avg_price := dec 50 1; commission := dec 50 1 |} ] in
  let s := fold_left update_order_summary results new_summary in
  executed_slices s = Z.of_nat (List.length results)
  /\ total_executed s = sum (map quantity results)
  /\ total_commission s = sum (map commission results)
  /\ avg_execution_price s
     = sum (map avg_price results) / of_nat (List.length results).
Proof.
  apply (order_summary_plain_mean
           [ {| quantity := dec 10 1; avg_price := dec 100 1; commission := 1 |};
             {| quantity := dec 1000 1; avg_price := dec 50 1;
                commission := dec 50 1 |} ]).
  - discriminate.
  - repeat constructor; apply ltb_lt; vm_compute; reflexivity.
Defined.

End OrderEngine.

(** ** Portfolio optimizer ([portfolio_optimizer.py])

    The convex solver ([cvxpy]) is outside the repository: a problem is
    handed to it as data and its answer, a status and a value for the
    variable, is taken as it comes.  The three methods build their
    problem from pandas objects and a cvxpy variable; where pandas is
    asked for the product of a series and the variable it raises, and
    this happens before any problem reaches the solver. *)

Module Optimizer.
Import Num Py.
Local Open Scope Qc_scope.
Local Open Scope list_scope.

Definition matrix := list (list Qc).

(** The [constraints] dict; an absent key is [None]. *)
Record constraints := {
  max_position : option Qc;
  sector_caps : option (Dict.t Qc);
  max_beta : option Qc;
  shrinkage : option bool
}.

Inductive objective :=
| MaximizeSharpe (expected_returns : list Qc) (covariance : matrix)
| EqualRiskContributions (covariance : matrix).

(** The constraints the code builds on the variable [weights]. *)
Inductive constraint :=
| SumEq (c : Qc)                              (* cp.sum(weights) == c *)
| AllGe (c : Qc)                              (* weights >= c *)
| AllLe (c : Qc)                              (* weights <= c *)
| SubsetSumLe (indices : list nat) (cap : Qc) (* cp.sum(weights[indices]) <= cap *)
| DotLe (coeffs : list Qc) (bound : Qc).      (* coeffs @ weights <= bound *)

Record problem := {
  n_vars : nat;
  goal : objective;
  constraints_list : list constraint
}.

(** [problem.status] and [weights.value] after [problem.solve()]. *)
Record solution := {
  status : string;
  value : list Qc
}.

(** A cvxpy expression; no path of the code gets to use one. *)
Definition expression := unit.

(** [cp.Variable(n)]: cvxpy refuses a dimension that is not positive. *)
Definition cp_Variable (n : nat) : result expression :=
  match n with
  | O => Raise (ValueError "Invalid dimensions (0,).")
  | S _ => Ok tt
  end.

(** [series @ weights] with a pandas Series on the left and the cvxpy
    variable on the right: [Series.__matmul__] is [Series.dot], which
    takes [np.asarray] of the variable, an array of no dimension, and
    reads the first entry of its empty shape.  It raises [IndexError]
    whatever the series holds. *)
Definition series_matmul_variable (series : list Qc) (weights : expression)
    : result expression :=
  Raise IndexError.

(** [sub in s] on strings. *)
Definition contains (sub s : string) : bool :=
  match String.index 0 sub s with Some _ => true | None => false end.

(** [list(symbols).index(s)] *)
Fixpoint index_of (s : string) (symbols : list string) : nat :=
  match symbols with
  | [] => 0
  | x :: rest => if String.eqb s x then 0 else S (index_of s rest)
  end.

Definition default_max_position : Qc := dec 5 100.

Definition get_max_position (c : constraints) : Qc :=
  match max_position c with Some m => m | None => default_max_position end.

Definition sector_constraints (symbols : list string) (c : constraints)
    : list constraint :=
  match sector_caps c with
  | None => []
  | Some caps =>
      flat_map (fun '(sector, cap) =>
                  let sector_symbols := filter (contains sector) symbols in
                  match sector_symbols with
                  | [] => []
                  | _ => [SubsetSumLe
                            (map (fun s => index_of s symbols) sector_symbols) cap]
                  end) caps
  end.

Definition beta_constraints (market_betas : list Qc) (c : constraints)
    : list constraint :=
  match max_beta c with
  | None => []
  | Some b => [DotLe market_betas b]
  end.

(** [{symbol: float(weights.value[i]) for i, symbol in enumerate(symbols)}];
    an index past the value raises. *)
Fixpoint weights_dict (symbols : list string) (i : nat) (value : list Qc)
    (acc : Dict.t Qc) : result (Dict.t Qc) :=
  match symbols with
  | [] => Ok acc
  | symbol :: rest =>
      match nth_error value i with
      | Some w => weights_dict rest (S i) value (Dict.set acc symbol w)
      | None => Raise IndexError
      end
  end.

Definition solved (solve : problem -> solution) (pb : problem)
    (symbols : list string) : result (Dict.t Qc) :=
  let sol := solve pb in
  if String.eqb (status sol) "optimal"
  then weights_dict symbols 0 (value sol) []
  else Raise (ValueError ("Optimization failed: " ++ status sol)).

Section Solver.

Variable solve : problem -> solution.

(** [cp.quad_form(weights, covariance_matrix.values)]: cvxpy refuses a
    matrix that is not symmetric; whether it does is left open. *)
Variable quad_form : expression -> matrix -> result expression.

(** [market_betas] are the draws of [np.random.normal] the beta
    constraint uses.  The product that gives [portfolio_return] comes
    first and raises, so nothing after it is reached. *)
Definition mean_variance_optimization (expected_returns : Dict.t Qc)
    (covariance_matrix : matrix) (c : constraints) (market_betas : list Qc)
    : result (Dict.t Qc) :=
  let n_assets := List.length expected_returns in
  let symbols := Dict.keys expected_returns in
  bind (cp_Variable n_assets) (fun weights =>
  bind (series_matmul_variable (Dict.values expected_returns) weights)
       (fun portfolio_return =>
  bind (quad_form weights covariance_matrix) (fun portfolio_variance =>
    let cl := [SumEq 1; AllGe 0; AllLe (get_max_position c)]
              ++ sector_constraints symbols c
              ++ beta_constraints market_betas c in
    solved solve
      {| n_vars := n_assets;
         goal := MaximizeSharpe (Dict.values expected_returns) covariance_matrix;
         constraints_list := cl |}
      symbols))).

(** The loop over [range(n_assets)] that collects the risk
    contributions: each turn multiplies a row of the matrix, a pandas
    Series, by the variable. *)
Fixpoint risk_contributions (rows : matrix) (weights : expression)
    (found : list expression) : result (list expression) :=
  match rows with
  | [] => Ok found
  | row :: rest =>
      bind (series_matmul_variable row weights) (fun asset_covariance =>
        risk_contributions rest weights (found ++ [asset_covariance]))
  end.

(** [covariance_matrix] with its index: the symbols and the rows. *)
Definition risk_parity_optimization (symbols : list string)
    (covariance_matrix : matrix) (c : constraints) : result (Dict.t Qc) :=
  let n_assets := List.length covariance_matrix in
  bind (cp_Variable n_assets) (fun weights =>
  bind (quad_form weights covariance_matrix) (fun portfolio_variance =>
  bind (risk_contributions covariance_matrix weights []) (fun contributions =>
    solved solve
      {| n_vars := n_assets;
         goal := EqualRiskContributions covariance_matrix;
         constraints_list := [SumEq 1; AllGe 0; AllLe (get_max_position c)] |}
      symbols))).

(** The Black-Litterman posterior mean and covariance, when some symbol
    carries a view; its linear algebra is left to the caller.  The
    posterior mean is put back on the symbols of [expected_returns], which
    raises when the lengths differ. *)
Variable black_litterman_posterior :
  Dict.t Qc -> matrix -> option (list Qc * matrix).

Definition black_litterman_optimization (expected_returns : Dict.t Qc)
    (covariance_matrix : matrix) (c : constraints) (market_betas : list Qc)
    : result (Dict.t Qc) :=
  match black_litterman_posterior expected_returns covariance_matrix with
  | Some (mu_bl, sigma_bl) =>
      if (List.length mu_bl =? List.length expected_returns)%nat
      then mean_variance_optimization
             (combine (Dict.keys expected_returns) mu_bl) sigma_bl c market_betas
      else Raise (ValueError "Length of values does not match length of index")
  | None =>
      mean_variance_optimization expected_returns covariance_matrix c market_betas
  end.

(** The advisory check of the returned weights. *)
Record checks := {
  budget : bool;
  long_only : bool;
  max_position_ok : bool;
  sector_caps_ok : option bool
}.

Definition budget_tolerance : Qc := dec 1 1000000.

Definition sector_of (symbol : string) : string :=
  if contains "Technology" symbol then "Technology"
  else if contains "Healthcare" symbol then "Healthcare"
  else if contains "Finance" symbol then "Finance"
  else "Consumer".

Definition check_constraints (weights : Dict.t Qc) (c : constraints) : checks :=
  let weight_values := Dict.values weights in
  {| budget := ltb (Qcabs (sum weight_values - 1)) budget_tolerance;
     long_only := forallb (fun w => geb w 0) weight_values;
     max_position_ok := forallb (fun w => leb w (get_max_position c)) weight_values;
     sector_caps_ok :=
       match sector_caps c with
       | None => None
       | Some caps =>
           let sector_exposures :=
             fold_left (fun acc '(symbol, w) =>
                          Dict.set acc (sector_of symbol)
                            (Dict.get_default acc (sector_of symbol) 0 + w))
                       weights [] in
           Some (forallb (fun '(sector, exposure) =>
                            leb exposure (Dict.get_default caps sector 1))
                         sector_exposures)
       end |}.

Record optimized := {
  weights : Dict.t Qc;
  constraints_satisfied : checks
}.

(** [optimize_portfolio] from the expected returns and the covariance
    matrix on (the latter with its index [cov_symbols], and shrunk already
    when the constraints ask for it); the portfolio metrics, which do not
    touch the weights, are left out.  An exception is logged, recorded
    and raised again. *)
Definition optimize_portfolio (expected_returns : Dict.t Qc)
    (cov_symbols : list string) (covariance_matrix : matrix)
    (c : constraints) (market_betas : list Qc) (method : string)
    : result optimized :=
  bind
    (if String.eqb method "mean_variance"
     then mean_variance_optimization expected_returns covariance_matrix c
            market_betas
     else if String.eqb method "black_litterman"
     then black_litterman_optimization expected_returns covariance_matrix c
            market_betas
     else if String.eqb method "risk_parity"
     then risk_parity_optimization cov_symbols covariance_matrix c
     else Raise (ValueError ("Unknown optimization method: " ++ method)))
    (fun w => Ok {| weights := w;
                    constraints_satisfied := check_constraints w c |}).

End Solver.

(** *** No method gets as far as the solver *)

Definition methods : list string :=
  ["mean_variance"; "black_litterman"; "risk_parity"]%string.

Lemma mean_variance_raises solve quad_form expected_returns cov c betas :
  exists e,
    mean_variance_optimization solve quad_form expected_returns cov c betas
    = Raise e
    /\ (expected_returns <> [] -> e = IndexError).
Proof.
  unfold mean_variance_optimization.
  destruct expected_returns as [|x rest]; simpl.
  - eexists. split; [reflexivity|]. congruence.
  - exists IndexError. split; reflexivity.
Qed.

Lemma risk_parity_raises solve quad_form symbols cov c :
  exists e, risk_parity_optimization solve quad_form symbols cov c = Raise e.
Proof.
  unfold risk_parity_optimization.
  destruct cov as [|row rest]; simpl; [eexists; reflexivity|].
  destruct (quad_form tt (row :: rest)) as [v|e]; simpl; eexists; reflexivity.
Qed.

Lemma black_litterman_raises solve quad_form posterior expected_returns cov c betas :
  exists e,
    black_litterman_optimization solve quad_form posterior expected_returns cov
      c betas = Raise e.
Proof.
  unfold black_litterman_optimization.
  destruct (posterior expected_returns cov) as [[mu sigma]|].
  - destruct (List.length mu =? List.length expected_returns)%nat.
    + destruct (mean_variance_raises solve quad_form
                  (combine (Dict.keys expected_returns) mu) sigma c betas)
        as [e [E _]].
      now exists e.
    + eexists. reflexivity.
  - destruct (mean_variance_raises solve quad_form expected_returns cov c betas)
      as [e [E _]].
    now exists e.
Qed.

(** The scenario of the specification: two assets, expected returns 0.10
    and 0.05, variances 0.04 and 0.01, no cap below 1. *)
Definition two_asset_returns : Dict.t Qc :=
  [("A"%string, dec 10 100); ("B"%string, dec 5 100)].

Definition two_asset_covariance : matrix :=
  [[dec 4 100; 0]; [0; dec 1 100]].

Definition uncapped : constraints :=
  {| max_position := Some 1; sector_caps := None; max_beta := None;
     shrinkage := Some false |}.



End Optimizer.

(** ** Covariance shrinkage ([portfolio_optimizer.apply_shrinkage])

    The shrinkage takes square roots of the variances, so it is modelled
    over the real numbers; a matrix is the list of its rows. *)

From Stdlib Require Import Reals Lra.

Module Shrinkage.
Local Open Scope R_scope.
Local Open Scope list_scope.

Definition matrix := list (list R).

Definition entry (m : matrix) (i j : nat) : R := nth j (nth i m []) 0.

(** An [n] by [n] matrix. *)
Definition square (n : nat) (m : matrix) : Prop :=
  List.length m = n /\ Forall (fun row => List.length row = n) m.

(** [np.diag(m)] *)
Definition diag (m : matrix) : list R :=
  map (fun i => entry m i i) (seq 0 (List.length m)).

(** [np.outer(u, v)] *)
Definition outer (u v : list R) : matrix :=
  map (fun x => map (fun y => x * y) v) u.

(** An operation entry by entry. *)
Definition ewise (f : R -> R -> R) (a b : matrix) : matrix :=
  map (fun '(ra, rb) => map (fun '(x, y) => f x y) (combine ra rb)) (combine a b).

Definition scale (k : R) (m : matrix) : matrix := map (map (Rmult k)) m.

(** [m.values[np.triu_indices(n, k=1)]]: the entries above the diagonal,
    row by row. *)
Definition triu_values (n : nat) (m : matrix) : list R :=
  flat_map (fun i => map (fun j => entry m i j) (seq (S i) (n - S i))) (seq 0 n).

Definition total (l : list R) : R := fold_right Rplus 0 l.

(** [np.mean] *)
Definition mean (l : list R) : R := total l / INR (List.length l).

(** [np.full((n, n), off)] with the diagonal filled with [d]. *)
Definition full_with_diagonal (n : nat) (off d : R) : matrix :=
  map (fun i => map (fun j => if (i =? j)%nat then d else off) (seq 0 n)) (seq 0 n).

Definition std_devs (cov : matrix) : list R := map sqrt (diag cov).

Definition correlation_matrix (cov : matrix) : matrix :=
  ewise Rdiv cov (outer (std_devs cov) (std_devs cov)).

Definition target_correlation (cov : matrix) : R :=
  mean (triu_values (List.length cov) (correlation_matrix cov)).

Definition target_covariance (cov : matrix) : matrix :=
  ewise Rmult
    (full_with_diagonal (List.length cov) (target_correlation cov) 1)
    (outer (std_devs cov) (std_devs cov)).

Definition shrinkage_param : R := 3 / 10.

Definition apply_shrinkage (cov : matrix) (shrinkage_target : string) : matrix :=
  if String.eqb shrinkage_target "constant_correlation" then
    ewise Rplus (scale (1 - shrinkage_param) cov)
                (scale shrinkage_param (target_covariance cov))
  else cov.

(** The target as the claim words it: the variance on the diagonal, and
    off the diagonal the average sample correlation of the pairs [i < j],
    times the two standard deviations. *)
Definition average_correlation (n : nat) (cov : matrix) : R :=
  mean (flat_map
          (fun i => map (fun j => entry cov i j
                                  / (sqrt (entry cov i i) * sqrt (entry cov j j)))
                        (seq (S i) (n - S i)))
          (seq 0 n)).

Definition target_entry (n : nat) (cov : matrix) (i j : nat) : R :=
  if (i =? j)%nat then entry cov i i
  else average_correlation n cov * (sqrt (entry cov i i) * sqrt (entry cov j j)).

(** *** Entries of the matrices built *)

Lemma nth_map_seq {A} (f : nat -> A) n i d :
  (i < n)%nat -> nth i (map f (seq 0 n)) d = f i.
Proof.
  intro H. rewrite (nth_indep _ d (f 0%nat)) by (now rewrite length_map, length_seq).
  rewrite map_nth, seq_nth by exact H. reflexivity.
Qed.

Lemma square_row n m i :
  square n m -> (i < n)%nat -> List.length (nth i m []) = n.
Proof.
  intros [Hl Hr] Hi. rewrite Forall_forall in Hr. apply Hr, nth_In. lia.
Qed.

Lemma nth_map_combine {A B C} (f : A * B -> C) (a : list A) (b : list B)
      i da db dc :
  List.length a = List.length b -> (i < List.length a)%nat ->
  nth i (map f (combine a b)) dc = f (nth i a da, nth i b db).
Proof.
  intros Hl Hi.
  rewrite (nth_indep _ dc (f (da, db)))
    by (rewrite length_map, length_combine; lia).
  rewrite map_nth, combine_nth by exact Hl. reflexivity.
Qed.

Lemma entry_ewise f n a b i j :
  square n a -> square n b -> (i < n)%nat -> (j < n)%nat ->
  entry (ewise f a b) i j = f (entry a i j) (entry b i j).
Proof.
  intros Ha Hb Hi Hj. unfold entry, ewise.
  destruct Ha as [La Ra], Hb as [Lb Rb].
  rewrite (nth_map_combine _ a b i [] [] []) by lia.
  pose proof (square_row n a i (conj La Ra) Hi) as Hra.
  pose proof (square_row n b i (conj Lb Rb) Hi) as Hrb.
  rewrite (nth_map_combine _ _ _ j 0 0 0) by lia.
  reflexivity.
Qed.

Lemma square_ewise f n a b : square n a -> square n b -> square n (ewise f a b).
Proof.
  intros [La Ra] [Lb Rb]. unfold ewise. split.
  - rewrite length_map, length_combine. lia.
  - rewrite Forall_forall in *. intros row Hin.
    apply in_map_iff in Hin. destruct Hin as [[ra rb] [<- Hin]].
    rewrite length_map, length_combine.
    pose proof (in_combine_l _ _ _ _ Hin). pose proof (in_combine_r _ _ _ _ Hin).
    rewrite (Ra ra), (Rb rb) by assumption. lia.
Qed.

Lemma entry_scale k n m i j :
  square n m -> (i < n)%nat -> (j < n)%nat ->
  entry (scale k m) i j = k * entry m i j.
Proof.
  intros Hm Hi Hj. unfold entry, scale. destruct Hm as [Lm Rm].
  rewrite (nth_indep _ [] (map (Rmult k) [])) by (rewrite length_map; lia).
  rewrite map_nth.
  pose proof (square_row n m i (conj Lm Rm) Hi) as Hr.
  rewrite (nth_indep _ 0 (k * 0)) by (rewrite length_map; lia).
  now rewrite map_nth.
Qed.

Lemma square_scale k n m : square n m -> square n (scale k m).
Proof.
  intros [Lm Rm]. unfold scale. split; [now rewrite length_map|].
  rewrite Forall_forall in *. intros row Hin.
  apply in_map_iff in Hin. destruct Hin as [r [<- Hin]].
  rewrite length_map. now apply Rm.
Qed.

Lemma entry_outer u v i j :
  (i < List.length u)%nat -> (j < List.length v)%nat ->
  entry (outer u v) i j = nth i u 0 * nth j v 0.
Proof.
  intros Hi Hj. unfold entry, outer.
  rewrite (nth_indep _ [] (map (fun y => 0 * y) v)) by (now rewrite length_map).
  rewrite (map_nth (fun x => map (fun y => x * y) v)).
  rewrite (nth_indep _ 0 (nth i u 0 * 0)) by (now rewrite length_map).
  now rewrite (map_nth (fun y => nth i u 0 * y)).
Qed.

Lemma square_outer u v n :
  List.length u = n -> List.length v = n -> square n (outer u v).
Proof.
  intros Hu Hv. unfold outer. split; [now rewrite length_map|].
  rewrite Forall_forall. intros row Hin.
  apply in_map_iff in Hin. destruct Hin as [x [<- _]]. now rewrite length_map.
Qed.

Lemma entry_full n off d i j :
  (i < n)%nat -> (j < n)%nat ->
  entry (full_with_diagonal n off d) i j = if (i =? j)%nat then d else off.
Proof.
  intros Hi Hj. unfold entry, full_with_diagonal.
  rewrite (nth_map_seq _ n i []) by exact Hi.
  now rewrite (nth_map_seq _ n j 0) by exact Hj.
Qed.

Lemma square_full n off d : square n (full_with_diagonal n off d).
Proof.
  unfold full_with_diagonal. split; [now rewrite length_map, length_seq|].
  rewrite Forall_forall. intros row Hin.
  apply in_map_iff in Hin. destruct Hin as [x [<- _]].
  now rewrite length_map, length_seq.
Qed.

Lemma std_devs_length cov : List.length (std_devs cov) = List.length cov.
Proof. unfold std_devs, diag. now rewrite !length_map, length_seq. Qed.

Lemma std_devs_nth cov i :
  (i < List.length cov)%nat -> nth i (std_devs cov) 0 = sqrt (entry cov i i).
Proof.
  intro Hi. unfold std_devs, diag. rewrite map_map.
  now rewrite (nth_map_seq _ _ i 0) by exact Hi.
Qed.

Lemma square_std_outer n cov :
  square n cov -> square n (outer (std_devs cov) (std_devs cov)).
Proof.
  intros [L _]. apply square_outer; now rewrite std_devs_length.
Qed.

Lemma std_outer_entry n cov i j :
  square n cov -> (i < n)%nat -> (j < n)%nat ->
  entry (outer (std_devs cov) (std_devs cov)) i j
  = sqrt (entry cov i i) * sqrt (entry cov j j).
Proof.
  intros [L R] Hi Hj.
  rewrite entry_outer by (rewrite std_devs_length; lia).
  rewrite !std_devs_nth by lia. reflexivity.
Qed.

Lemma correlation_entry n cov i j :
  square n cov -> (i < n)%nat -> (j < n)%nat ->
  entry (correlation_matrix cov) i j
  = entry cov i j / (sqrt (entry cov i i) * sqrt (entry cov j j)).
Proof.
  intros Hs Hi Hj. unfold correlation_matrix.
  rewrite (entry_ewise Rdiv n) by (try assumption; now apply square_std_outer).
  now rewrite (std_outer_entry n).
Qed.

(** The code's target correlation is the average sample correlation. *)
Lemma target_correlation_average n cov :
  square n cov -> target_correlation cov = average_correlation n cov.
Proof.
  intros Hs. unfold target_correlation, average_correlation, triu_values.
  destruct Hs as [L R]. rewrite L.
  f_equal. rewrite !flat_map_concat_map. f_equal.
  apply map_ext_in. intros i Hi. apply in_seq in Hi.
  apply map_ext_in. intros j Hj. apply in_seq in Hj.
  apply (correlation_entry n); [now split | lia | lia].
Qed.

Lemma target_covariance_entry n cov i j :
  square n cov ->
  (forall k, (k < n)%nat -> 0 < entry cov k k) ->
  (i < n)%nat -> (j < n)%nat ->
  entry (target_covariance cov) i j = target_entry n cov i j.
Proof.
  intros Hs Hpos Hi Hj. unfold target_covariance, target_entry.
  pose proof Hs as [L _].
  rewrite (entry_ewise Rmult n);
    [| rewrite L; apply square_full | now apply square_std_outer | exact Hi | exact Hj].
  rewrite L, entry_full by assumption.
  rewrite (std_outer_entry n) by assumption.
  rewrite (target_correlation_average n cov Hs).
  destruct (i =? j)%nat eqn:E; [|reflexivity].
  apply Nat.eqb_eq in E. subst j.
  rewrite Rmult_1_l. apply sqrt_sqrt. left. now apply Hpos.
Qed.

Lemma square_target_covariance n cov :
  square n cov -> square n (target_covariance cov).
Proof.
  intros Hs. pose proof Hs as [L _]. unfold target_covariance.
  apply square_ewise; [rewrite L; apply square_full | now apply square_std_outer].
Qed.

Lemma target_entry_symmetric n cov i j :
  target_entry n cov i j = target_entry n cov j i.
Proof.
  unfold target_entry. rewrite (Nat.eqb_sym j i).
  destruct (i =? j)%nat eqn:E.
  - apply Nat.eqb_eq in E. now subst.
  - ring.
Qed.

(** C8: on a symmetric covariance matrix with a strictly positive
    diagonal, the shrinkage returns, entry by entry,
    [(1 - 0.3) * sample + 0.3 * target], the target holding the variances
    on the diagonal and the average off-diagonal correlation times the two
    standard deviations elsewhere; and the matrix returned is symmetric
    (and of the same size). *)
Theorem shrinkage_blend_symmetric :
  forall (n : nat) (cov : matrix),
    square n cov ->
    (forall i j, (i < n)%nat -> (j < n)%nat -> entry cov i j = entry cov j i) ->
    (forall i, (i < n)%nat -> 0 < entry cov i i) ->
    let shrunk := apply_shrinkage cov "constant_correlation" in
    square n shrunk
    /\ (forall i j, (i < n)%nat -> (j < n)%nat ->
          entry shrunk i j
          = (1 - 3 / 10) * entry cov i j + 3 / 10 * target_entry n cov i j)
    /\ (forall i j, (i < n)%nat -> (j < n)%nat ->
          entry shrunk i j = entry shrunk j i).
Proof.
  intros n cov Hs Hsym Hpos shrunk.
  assert (square n (scale (1 - shrinkage_param) cov)) as S1
    by now apply square_scale.
  assert (square n (scale shrinkage_param (target_covariance cov))) as S2
    by now apply square_scale, square_target_covariance.
  assert (forall i j, (i < n)%nat -> (j < n)%nat ->
            entry shrunk i j
            = (1 - 3 / 10) * entry cov i j + 3 / 10 * target_entry n cov i j) as He.
  { intros i j Hi Hj. unfold shrunk, apply_shrinkage. simpl.
    rewrite (entry_ewise Rplus n) by assumption.
    rewrite !(entry_scale _ n)
      by (try assumption; now apply square_target_covariance).
    rewrite (target_covariance_entry n) by assumption.
    reflexivity. }
  split; [|split].
  - unfold shrunk, apply_shrinkage. simpl. now apply square_ewise.
  - exact He.
  - intros i j Hi Hj. rewrite !He by assumption.
    rewrite (Hsym i j Hi Hj), (target_entry_symmetric n cov i j). reflexivity.
Qed.

(** Two assets with variances 4 and 9 and covariance 1. *)
Definition two_by_two : matrix := [[4; 1]; [1; 9]].

Lemma shrinkage_blend_symmetric_witness :
  let shrunk := apply_shrinkage two_by_two "constant_correlation" in
  square 2 shrunk
  /\ (forall i j, (i < 2)%nat -> (j < 2)%nat ->
        entry shrunk i j
        = (1 - 3 / 10) * entry two_by_two i j
          + 3 / 10 * target_entry 2 two_by_two i j)
  /\ (forall i j, (i < 2)%nat -> (j < 2)%nat ->
        entry shrunk i j = entry shrunk j i).
Proof.
  apply (shrinkage_blend_symmetric 2 two_by_two).
  - split; [reflexivity | repeat constructor].
  - intros [|[|i]] [|[|j]] Hi Hj; try lia; reflexivity.
  - intros [|[|i]] Hi; try lia; unfold entry; simpl; lra.
Defined.


(** *** What shrinkage keeps and what it moves *)

Lemma shrunk_entry n cov i j :
  square n cov ->
  (forall k, (k < n)%nat -> 0 < entry cov k k) ->
  (i < n)%nat -> (j < n)%nat ->
  entry (apply_shrinkage cov "constant_correlation") i j
  = (1 - 3 / 10) * entry cov i j + 3 / 10 * target_entry n cov i j.
Proof.
  intros Hs Hpos Hi Hj. unfold apply_shrinkage. simpl.
  rewrite (entry_ewise Rplus n);
    [| now apply square_scale
     | now apply square_scale, square_target_covariance
     | exact Hi | exact Hj].
  rewrite !(entry_scale _ n)
    by (try assumption; now apply square_target_covariance).
  rewrite (target_covariance_entry n) by assumption.
  reflexivity.
Qed.

(** Shrinkage leaves every variance as it is, and moves every correlation
    to seven tenths of itself plus three tenths of the average
    correlation. *)
Theorem shrinkage_keeps_variances :
  forall (n : nat) (cov : matrix),
    square n cov ->
    (forall i, (i < n)%nat -> 0 < entry cov i i) ->
    let shrunk := apply_shrinkage cov "constant_correlation" in
    (forall i, (i < n)%nat -> entry shrunk i i = entry cov i i)
    /\ (forall i j, (i < n)%nat -> (j < n)%nat -> i <> j ->
          entry shrunk i j / (sqrt (entry shrunk i i) * sqrt (entry shrunk j j))
          = 7 / 10 * (entry cov i j / (sqrt (entry cov i i) * sqrt (entry cov j j)))
            + 3 / 10 * average_correlation n cov).
Proof.
  intros n cov Hs Hpos shrunk.
  assert (forall i, (i < n)%nat -> entry shrunk i i = entry cov i i) as Hd.
  { intros i Hi. unfold shrunk. rewrite (shrunk_entry n) by assumption.
    unfold target_entry. rewrite Nat.eqb_refl. lra. }
  split; [exact Hd|].
  intros i j Hi Hj Hne. rewrite !Hd by assumption.
  unfold shrunk. rewrite (shrunk_entry n) by assumption.
  unfold target_entry.
  assert ((i =? j)%nat = false) as -> by now apply Nat.eqb_neq.
  assert (0 < sqrt (entry cov i i)) as Si by (apply sqrt_lt_R0; now apply Hpos).
  assert (0 < sqrt (entry cov j j)) as Sj by (apply sqrt_lt_R0; now apply Hpos).
  field. split; lra.
Qed.

Lemma shrinkage_keeps_variances_witness :
  let shrunk := apply_shrinkage two_by_two "constant_correlation" in
  (forall i, (i < 2)%nat -> entry shrunk i i = entry two_by_two i i)
  /\ (forall i j, (i < 2)%nat -> (j < 2)%nat -> i <> j ->
        entry shrunk i j / (sqrt (entry shrunk i i) * sqrt (entry shrunk j j))
        = 7 / 10 * (entry two_by_two i j
                    / (sqrt (entry two_by_two i i) * sqrt (entry two_by_two j j)))
          + 3 / 10 * average_correlation 2 two_by_two).
Proof.
  apply (shrinkage_keeps_variances 2 two_by_two).
  - split; [reflexivity | repeat constructor].
  - intros [|[|i]] Hi; try lia; unfold entry; simpl; lra.
Defined.

(** With two assets there is one correlation only, which is its own
    average: shrinkage returns a symmetric covariance matrix entry for
    entry. *)
Theorem shrinkage_of_two_assets :
  forall cov : matrix,
    square 2 cov ->
    entry cov 0 1 = entry cov 1 0 ->
    (forall i, (i < 2)%nat -> 0 < entry cov i i) ->
    forall i j, (i < 2)%nat -> (j < 2)%nat ->
      entry (apply_shrinkage cov "constant_correlation") i j = entry cov i j.
Proof.
  intros cov Hs Hsym Hpos i j Hi Hj.
  rewrite (shrunk_entry 2) by assumption.
  assert (0 < sqrt (entry cov 0 0)) as S0
    by (apply sqrt_lt_R0; apply Hpos; lia).
  assert (0 < sqrt (entry cov 1 1)) as S1
    by (apply sqrt_lt_R0; apply Hpos; lia).
  assert (average_correlation 2 cov
          = entry cov 0 1 / (sqrt (entry cov 0 0) * sqrt (entry cov 1 1))) as A.
  { unfold average_correlation, mean, total. simpl. field. split; lra. }
  unfold target_entry. rewrite A.
  destruct i as [|[|i]], j as [|[|j]]; try lia; simpl Nat.eqb; cbv iota.
  - lra.
  - field. split; lra.
  - rewrite <- Hsym. field. split; lra.
  - lra.
Qed.

Lemma shrinkage_of_two_assets_witness :
  entry (apply_shrinkage two_by_two "constant_correlation") 0 1
  = entry two_by_two 0 1.
Proof.
  apply (shrinkage_of_two_assets two_by_two).
  - split; [reflexivity | repeat constructor].
  - reflexivity.
  - intros [|[|i]] Hi; try lia; unfold entry; simpl; lra.
  - lia.
  - lia.
Defined.

End Shrinkage.
